(** * Agent framework: execution engine, event bus and fleet manager

    A shallow embedding of the TypeScript sources

    - [types.ts]     the data model,
    - [events.ts]    [EventBus], [AgentEvents], [createEvent],
    - [agent.ts]     [BaseAgent] (lifecycle, retry loop, metrics),
    - [manager.ts]   [AgentManager],

    together with the properties of these components that the
    specification states.

    Conventions of the embedding.

    - JavaScript numbers that hold counts, millisecond clock values and
      the numeric fields of the configuration are integers ([Z], [N]);
      the running average is a rational ([Q]), so the arithmetic below
      is the ideal one that IEEE doubles approximate.
    - A [Date] is its millisecond value.
    - An [async] function is a computation in the monad [M]: it threads
      the mutable state and either returns or throws.  An awaited promise
      that rejects is a throw at the [await].
    - The environment (the concrete agent's [execute], the event handlers,
      the time taken by awaited calls) is given by oracles. *)

From Stdlib Require Import ZArith QArith Lia List String Ascii Permutation.
From Stdlib Require Import SpecFloat.
From stdpp Require Import base gmap strings list fin_maps pretty.

Local Open Scope string_scope.
Local Open Scope list_scope.
Local Open Scope Z_scope.

(** ** State and exception monad *)

Module Js.

(** How a call completes: it returns a value or throws one. *)
Inductive Completion (E A : Type) : Type :=
| Returned (a : A)
| Threw (e : E).
Arguments Returned {E A} a.
Arguments Threw {E A} e.

(** A computation over a mutable state [S] that may throw an [E].
    Mutations made before a throw persist, as they do in JavaScript. *)
Definition M (S E A : Type) : Type := S -> Completion E A * S.

Section Ops.
Context {S E : Type}.

Definition ret {A} (a : A) : M S E A := fun s => (Returned a, s).

Definition bind {A B} (m : M S E A) (k : A -> M S E B) : M S E B :=
  fun s =>
    match m s with
    | (Returned a, s') => k a s'
    | (Threw e, s') => (Threw e, s')
    end.

Definition throw {A} (e : E) : M S E A := fun s => (Threw e, s).

(** [try { m } catch (e) { h e }] *)
Definition try_catch {A} (m : M S E A) (h : E -> M S E A) : M S E A :=
  fun s =>
    match m s with
    | (Returned a, s') => (Returned a, s')
    | (Threw e, s') => h e s'
    end.

Definition get : M S E S := fun s => (Returned s, s).
Definition gets {A} (f : S -> A) : M S E A := fun s => (Returned (f s), s).
Definition modify (f : S -> S) : M S E unit := fun s => (Returned tt, f s).

(** [for (const x of xs) { await f x }] *)
Fixpoint for_each {A} (f : A -> M S E unit) (xs : list A) : M S E unit :=
  match xs with
  | [] => ret tt
  | x :: xs' => bind (f x) (fun _ => for_each f xs')
  end.

(** Final state of a computation. *)
Definition exec {A} (m : M S E A) (s : S) : S := snd (m s).
(** Completion of a computation. *)
Definition eval {A} (m : M S E A) (s : S) : Completion E A := fst (m s).

(** [m] always returns: it throws in no state. *)
Definition returns {A} (m : M S E A) : Prop :=
  ∀ s, ∃ a, eval m s = Returned a.

(** [m] keeps the invariant [I], whether it returns or throws. *)
Definition keeps {A} (I : S → Prop) (m : M S E A) : Prop :=
  ∀ s, I s → I (exec m s).
End Ops.

Declare Scope js_scope.
Delimit Scope js_scope with js.
Notation "x <- m ;; k" := (bind m (fun x => k))
  (at level 100, m at next level, right associativity) : js_scope.
Notation "m ;; k" := (bind m (fun _ => k))
  (at level 100, right associativity) : js_scope.

(** A JavaScript [Error] object, identified by its message. *)
Record JsError : Type := { message : string }.

(** A thrown value: an [Error], or any other value, of which only the
    result of [String(v)] is observed. *)
Inductive JsValue : Type :=
| VError (e : JsError)
| VOther (repr : string).

End Js.
Import Js.

(** ** types.ts *)

Inductive AgentStatus : Type := idle | running | paused | stopped | error.

Inductive AgentPriority : Type := low | normal | high | critical.

#[global] Instance AgentStatus_eq_dec : EqDecision AgentStatus.
Proof. solve_decision. Defined.

(** [AgentEvent<T>] *)
Record AgentEvent (T : Type) : Type := {
  ev_type : string;
  ev_agentId : string;
  ev_payload : T;
  ev_timestamp : Z
}.
Arguments ev_type {T} _.
Arguments ev_agentId {T} _.
Arguments ev_payload {T} _.
Arguments ev_timestamp {T} _.

(** [createEvent(type, agentId, payload)]; [now] is [new Date()]. *)
Definition createEvent {T} (type agentId : string) (payload : T) (now : Z)
  : AgentEvent T :=
  {| ev_type := type; ev_agentId := agentId; ev_payload := payload;
     ev_timestamp := now |}.

(** ** events.ts: the event bus *)

Module EventBus.

(** A handler is a function object; the [Set]s of the bus compare
    handlers by identity, which a number stands for. *)
Definition EventHandler : Type := nat.

(** A JavaScript [Set<EventHandler>]: insertion-ordered, without
    duplicates. *)
Definition set_add (h : EventHandler) (s : list EventHandler)
  : list EventHandler :=
  if decide (h ∈ s) then s else s ++ [h].

Definition set_delete (h : EventHandler) (s : list EventHandler)
  : list EventHandler :=
  filter (fun x => x ≠ h) s.

Record EventBus : Type := {
  handlers : gmap string (list EventHandler);
  wildcardHandlers : list EventHandler;
  subscriptionCounter : N
}.

(** [new EventBus()] *)
Definition empty : EventBus :=
  {| handlers := ∅; wildcardHandlers := []; subscriptionCounter := 0%N |}.

(** A [Subscription]: its [id] and what its [unsubscribe] closure
    captured, the event type ([None] for [subscribeAll]) and the
    handler. *)
Record Subscription : Type := {
  sub_id : string;
  sub_eventType : option string;
  sub_handler : EventHandler
}.

Definition subscribe (eventType : string) (handler : EventHandler)
    (b : EventBus) : Subscription * EventBus :=
  let counter := N.succ (subscriptionCounter b) in
  let id := "sub_" +:+ pretty counter in
  let existing := default [] (handlers b !! eventType) in
  ({| sub_id := id; sub_eventType := Some eventType;
      sub_handler := handler |},
   {| handlers := <[eventType := set_add handler existing]> (handlers b);
      wildcardHandlers := wildcardHandlers b;
      subscriptionCounter := counter |}).

Definition subscribeAll (handler : EventHandler) (b : EventBus)
  : Subscription * EventBus :=
  let counter := N.succ (subscriptionCounter b) in
  let id := "sub_" +:+ pretty counter in
  ({| sub_id := id; sub_eventType := None; sub_handler := handler |},
   {| handlers := handlers b;
      wildcardHandlers := set_add handler (wildcardHandlers b);
      subscriptionCounter := counter |}).

(** [subscription.unsubscribe()] *)
Definition unsubscribe (s : Subscription) (b : EventBus) : EventBus :=
  match sub_eventType s with
  | Some eventType =>
      {| handlers := alter (set_delete (sub_handler s)) eventType (handlers b);
         wildcardHandlers := wildcardHandlers b;
         subscriptionCounter := subscriptionCounter b |}
  | None =>
      {| handlers := handlers b;
         wildcardHandlers := set_delete (sub_handler s) (wildcardHandlers b);
         subscriptionCounter := subscriptionCounter b |}
  end.

Definition clear (b : EventBus) : EventBus :=
  {| handlers := ∅; wildcardHandlers := [];
     subscriptionCounter := subscriptionCounter b |}.

(** What a handler may do to the bus while it handles an event. *)
Inductive BusOp : Type :=
| OpSubscribe (eventType : string) (h : EventHandler)
| OpSubscribeAll (h : EventHandler)
| OpUnsubscribe (s : Subscription)
| OpClear.

Definition apply_op (o : BusOp) (b : EventBus) : EventBus :=
  match o with
  | OpSubscribe eventType h => snd (subscribe eventType h b)
  | OpSubscribeAll h => snd (subscribeAll h b)
  | OpUnsubscribe s => unsubscribe s b
  | OpClear => clear b
  end.

Definition apply_ops (os : list BusOp) (b : EventBus) : EventBus :=
  fold_left (fun b o => apply_op o b) os b.

(** The operations that add a registration. *)
Definition subscribes (o : BusOp) : bool :=
  match o with
  | OpSubscribe _ _ | OpSubscribeAll _ => true
  | OpUnsubscribe _ | OpClear => false
  end.

(** The handle a subscribing operation returns. *)
Definition subscription_of (o : BusOp) (b : EventBus) : option Subscription :=
  match o with
  | OpSubscribe eventType h => Some (fst (subscribe eventType h b))
  | OpSubscribeAll h => Some (fst (subscribeAll h b))
  | OpUnsubscribe _ => None
  | OpClear => None
  end.

(** How a handler call ends: it returns (or its promise fulfils), it
    throws synchronously, or the promise it returned rejects. *)
Inductive HandlerOutcome : Type :=
| Fulfils
| Throws (v : JsValue)
| Rejects (v : JsValue).

Record Behaviour : Type := {
  effects : list BusOp;
  outcome : HandlerOutcome
}.

Section Emit.
(** The payload type of the events. *)
Context {T : Type}.
(** The handlers' code: what the [n]-th handler call of the run does,
    for handler [h] on event [e]. *)
Variable behave : nat -> EventHandler -> AgentEvent T -> Behaviour.

(** The bus together with what is observed of a run: the handler
    calls made and the lines written by [console.error]. *)
Record BusWorld : Type := {
  bus : EventBus;
  invoked : list (EventHandler * AgentEvent T);
  console : list (string * JsValue)
}.

Definition console_error (msg : string) (v : JsValue)
  : M BusWorld JsValue unit :=
  modify (fun w => {| bus := bus w; invoked := invoked w;
                      console := console w ++ [(msg, v)] |}).

(** [await handler(event)] *)
Definition call_handler (h : EventHandler) (e : AgentEvent T)
  : M BusWorld JsValue unit :=
  (w <- get ;;
   let bh := behave (length (invoked w)) h e in
   modify (fun w => {| bus := apply_ops (effects bh) (bus w);
                       invoked := invoked w ++ [(h, e)];
                       console := console w |}) ;;
   match outcome bh with
   | Fulfils => ret tt
   | Throws v => throw v
   | Rejects v => throw v
   end)%js.

(** The body of the [map] callback of [emit]: one handler call inside
    its own try/catch. *)
Definition guarded (event : AgentEvent T) (handler : EventHandler)
  : M BusWorld JsValue unit :=
  try_catch (call_handler handler event)
    (fun error =>
       console_error ("Event handler error for " +:+ ev_type event +:+ ":")
         error).

(** The array [allHandlers] of [emit]: the handlers of the event's type,
    then the wildcard ones. *)
Definition allHandlers (event : AgentEvent T) (b : EventBus)
  : list EventHandler :=
  default [] (handlers b !! ev_type event) ++ wildcardHandlers b.

(** [emit]: the array [allHandlers] is built before any handler runs;
    [map] then starts the callbacks in array order, and [Promise.all]
    awaits them.  The handlers' effects on the bus are applied in that
    order.  Handlers are taken to settle; a handler neither emits nor
    calls the engine from inside its call. *)
Definition emit (event : AgentEvent T) : M BusWorld JsValue unit :=
  (w <- get ;;
   for_each (guarded event) (allHandlers event (bus w)))%js.

(** The value a handler call fails with, if it fails. *)
Definition failure_of (o : HandlerOutcome) : option JsValue :=
  match o with
  | Fulfils => None
  | Throws v => Some v
  | Rejects v => Some v
  end.

(** The lines [console.error] writes while the handlers [hs] are called
    for [event], the first of them being call number [n] of the run: one
    line for each call that fails. *)
Fixpoint failures (event : AgentEvent T) (n : nat) (hs : list EventHandler)
  : list (string * JsValue) :=
  match hs with
  | [] => []
  | h :: hs' =>
      match failure_of (outcome (behave n h event)) with
      | Some v =>
          ("Event handler error for " +:+ ev_type event +:+ ":", v)
          :: failures event (S n) hs'
      | None => failures event (S n) hs'
      end
  end.

(** How many of the recorded calls were made to handler [h]. *)
Definition calls_of (h : EventHandler)
    (calls : list (EventHandler * AgentEvent T)) : nat :=
  length (filter (fun c => c.1 = h) calls).
End Emit.

(** [g] is not registered for [eventType]. *)
Definition unregistered (eventType : string) (g : EventHandler)
    (b : EventBus) : Prop :=
  g ∉ default [] (handlers b !! eventType).

(** [g] is not a wildcard handler. *)
Definition not_wildcard (g : EventHandler) (b : EventBus) : Prop :=
  g ∉ wildcardHandlers b.

(** Every set of the bus is duplicate-free, as a [Set] is. *)
Definition wf (b : EventBus) : Prop :=
  NoDup (wildcardHandlers b) ∧
  ∀ eventType hs, handlers b !! eventType = Some hs → NoDup hs.

End EventBus.

(** ** IEEE 754 binary64, the arithmetic of a JavaScript [number] *)

Module Double.
Definition prec : Z := 53.
Definition emax : Z := 1024.



(** [x + y], [x * y] and [x / y], rounded to nearest, ties to even. *)
Definition add : spec_float -> spec_float -> spec_float := SFadd prec emax.
Definition mul : spec_float -> spec_float -> spec_float := SFmul prec emax.
End Double.

(** [AgentEvents] *)
Module AgentEvents.
Definition STARTED := "agent:started".
Definition STOPPED := "agent:stopped".
Definition PAUSED := "agent:paused".
Definition RESUMED := "agent:resumed".
Definition ERROR := "agent:error".
Definition EXECUTION_START := "agent:execution:start".
Definition EXECUTION_COMPLETE := "agent:execution:complete".
Definition EXECUTION_FAILED := "agent:execution:failed".
Definition SIGNAL_GENERATED := "agent:signal:generated".
Definition TRADE_EXECUTED := "agent:trade:executed".
Definition PORTFOLIO_UPDATED := "agent:portfolio:updated".
Definition METRICS_UPDATED := "agent:metrics:updated".
End AgentEvents.

(** ** agent.ts: the execution engine *)

Module Agent.

(** [AgentConfig], as the constructor receives it. *)
Record AgentConfig : Type := {
  cfg_id : string;
  cfg_name : string;
  cfg_description : option string;
  cfg_priority : option AgentPriority;
  cfg_maxRetries : option Z;
  cfg_retryDelayMs : option Z;
  cfg_timeoutMs : option Z;
  cfg_enabled : option bool
}.

(** [Required<AgentConfig>], the type of [this.config]. *)
Record Config : Type := {
  id : string;
  name : string;
  description : string;
  priority : AgentPriority;
  maxRetries : Z;
  retryDelayMs : Z;
  timeoutMs : Z;
  enabled : bool
}.

Record AgentContext : Type := {
  agentId : string;
  startedAt : Z;
  iteration : Z;
  lastError : option JsError;
  metadata : gmap string string
}.

Record AgentMetrics : Type := {
  totalExecutions : Z;
  successfulExecutions : Z;
  failedExecutions : Z;
  averageExecutionTimeMs : Q;
  lastExecutionAt : option Z;
  uptime : Z
}.

(** [ExecutionResult<T>]; the field [error] is [err] here. *)
Record ExecutionResult (T : Type) : Type := {
  success : bool;
  data : option T;
  err : option JsError;
  executionTimeMs : Z;
  timestamp : Z
}.
Arguments success {T} _.
Arguments data {T} _.
Arguments err {T} _.
Arguments executionTimeMs {T} _.
Arguments timestamp {T} _.

(** The fields of [BaseAgent].  The event bus is not a field here: what
    the engine hands to it is recorded in the trace of the run. *)
Record BaseAgent : Type := {
  config : Config;
  status : AgentStatus;
  context : AgentContext;
  metrics : AgentMetrics;
  intervalId : option nat;
  startTime : option Z
}.

(** The constructor: defaults, overridden by the fields present. *)
Definition new (c : AgentConfig) (now : Z) : BaseAgent :=
  {| config :=
       {| id := cfg_id c;
          name := cfg_name c;
          description := default "" (cfg_description c);
          priority := default normal (cfg_priority c);
          maxRetries := default 3 (cfg_maxRetries c);
          retryDelayMs := default 1000 (cfg_retryDelayMs c);
          timeoutMs := default 30000 (cfg_timeoutMs c);
          enabled := default true (cfg_enabled c) |};
     status := idle;
     context :=
       {| agentId := cfg_id c; startedAt := now; iteration := 0;
          lastError := None; metadata := ∅ |};
     metrics :=
       {| totalExecutions := 0; successfulExecutions := 0;
          failedExecutions := 0; averageExecutionTimeMs := 0%Q;
          lastExecutionAt := None; uptime := 0 |};
     intervalId := None;
     startTime := None |}.

(** Field updates. *)
Definition set_status (s : AgentStatus) (a : BaseAgent) : BaseAgent :=
  {| config := config a; status := s; context := context a;
     metrics := metrics a; intervalId := intervalId a;
     startTime := startTime a |}.

Definition set_context (c : AgentContext) (a : BaseAgent) : BaseAgent :=
  {| config := config a; status := status a; context := c;
     metrics := metrics a; intervalId := intervalId a;
     startTime := startTime a |}.

Definition set_metrics (m : AgentMetrics) (a : BaseAgent) : BaseAgent :=
  {| config := config a; status := status a; context := context a;
     metrics := m; intervalId := intervalId a; startTime := startTime a |}.

Definition set_intervalId (i : option nat) (a : BaseAgent) : BaseAgent :=
  {| config := config a; status := status a; context := context a;
     metrics := metrics a; intervalId := i; startTime := startTime a |}.

Definition set_startTime (t : option Z) (a : BaseAgent) : BaseAgent :=
  {| config := config a; status := status a; context := context a;
     metrics := metrics a; intervalId := intervalId a; startTime := t |}.

Definition set_startedAt (t : Z) (c : AgentContext) : AgentContext :=
  {| agentId := agentId c; startedAt := t; iteration := iteration c;
     lastError := lastError c; metadata := metadata c |}.

Definition set_iteration (i : Z) (c : AgentContext) : AgentContext :=
  {| agentId := agentId c; startedAt := startedAt c; iteration := i;
     lastError := lastError c; metadata := metadata c |}.

Definition set_lastError (e : option JsError) (c : AgentContext)
  : AgentContext :=
  {| agentId := agentId c; startedAt := startedAt c;
     iteration := iteration c; lastError := e; metadata := metadata c |}.

(** [setMetadata], [getMetadata] *)
Definition setMetadata (key value : string) (a : BaseAgent) : BaseAgent :=
  set_context
    {| agentId := agentId (context a); startedAt := startedAt (context a);
       iteration := iteration (context a);
       lastError := lastError (context a);
       metadata := <[key := value]> (metadata (context a)) |} a.

Definition getMetadata (key : string) (a : BaseAgent) : option string :=
  metadata (context a) !! key.

(** [updateMetrics(result)], as a function of the metrics; [started] is
    [this.startTime] and [now] the value of [Date.now()]. *)
Definition updateMetrics {T} (result : ExecutionResult T)
    (started : option Z) (now : Z) (m : AgentMetrics) : AgentMetrics :=
  let total := totalExecutions m + 1 in
  let successful :=
    if success result then successfulExecutions m + 1
    else successfulExecutions m in
  let failed :=
    if success result then failedExecutions m
    else failedExecutions m + 1 in
  let totalTime := (averageExecutionTimeMs m * inject_Z (total - 1))%Q in
  {| totalExecutions := total;
     successfulExecutions := successful;
     failedExecutions := failed;
     averageExecutionTimeMs :=
       ((totalTime + inject_Z (executionTimeMs result)) / inject_Z total)%Q;
     lastExecutionAt := Some (timestamp result);
     uptime :=
       match started with
       | Some t => now - t
       | None => uptime m
       end |}.

(** The metrics after the cycles [cycles] have been recorded, oldest
    first; a cycle is its result with the values [this.startTime] and
    [Date.now()] had when it was recorded. *)
Definition record_cycles {T} (cycles : list (ExecutionResult T * option Z * Z))
    (m : AgentMetrics) : AgentMetrics :=
  fold_left (fun m c => updateMetrics c.1.1 c.1.2 c.2 m) cycles m.

Definition durations {T} (cycles : list (ExecutionResult T * option Z * Z))
  : list Z :=
  (fun c => executionTimeMs c.1.1) <$> cycles.

(** The arithmetic mean of a list of durations. *)
Definition mean (ds : list Z) : Q :=
  (inject_Z (foldr Z.add 0%Z ds) / inject_Z (Z.of_nat (length ds)))%Q.

(** The two lines of [updateMetrics] that recompute the average,
    [totalTime = average * (total - 1)] and
    [average = (totalTime + executionTimeMs) / total], over an arithmetic
    [num]; [total] is the count after its increment. *)
Section RunningAverage.
Context {num : Type}.
Variable of_Z : Z -> num.
Variables add mul div : num -> num -> num.


End RunningAverage.



Section Engine.
(** [TResult] *)
Context {T : Type}.

(** The payloads of the events the engine emits. *)
Inductive Payload : Type :=
| PConfig (config : Config)
| PMetrics (metrics : AgentMetrics)
| PEmpty
| PIteration (iteration : Z)
| PComplete (data : T) (executionTimeMs : Z)
| PError (error : option JsError).

(** The overridable hooks, with the argument of [onError]. *)
Inductive Hook : Type :=
| onStart
| onStop
| onPause
| onResume
| onError (error : option JsError).

(** What the engine asks of its environment, in program order. *)
Inductive Action : Type :=
| Emit (event : AgentEvent Payload)
| CallHook (h : Hook)
| Execute (attempt : Z) (context : AgentContext)
| Delay (ms : Z)
| SetInterval (timer : nat) (ms : Z)
| ClearInterval (timer : nat).

(** The promise [execute(context)] returns: it fulfils or rejects
    [after] milliseconds, or never settles. *)
Inductive Work : Type :=
| Resolves (after : Z) (data : T)
| Rejects (after : Z) (reason : JsValue)
| NeverSettles.

(** The state of the JavaScript runtime around the engine. *)
Record Runtime : Type := {
  now : Z;
  executions : nat;
  nextTimer : nat;
  intervals : list (nat * Z);
  trace : list Action
}.

Record World : Type := {
  self : BaseAgent;
  rt : Runtime
}.

(** The concrete agent's [execute]: the promise its [n]-th call
    returns, for the context it is given. *)
Variable execute : nat -> AgentContext -> Work.
(** The time an awaited [emit] or hook takes. *)
Variable awaitMs : Action -> Z.

Local Abbreviation M := (Js.M World JsValue).

Definition this : M BaseAgent := gets self.

Definition update (f : BaseAgent -> BaseAgent) : M unit :=
  modify (fun w => {| self := f (self w); rt := rt w |}).

Definition Date_now : M Z := gets (fun w => now (rt w)).

Definition advance (ms : Z) : M unit :=
  modify (fun w =>
    {| self := self w;
       rt := {| now := now (rt w) + ms; executions := executions (rt w);
                nextTimer := nextTimer (rt w);
                intervals := intervals (rt w); trace := trace (rt w) |} |}).

Definition record (a : Action) : M unit :=
  modify (fun w =>
    {| self := self w;
       rt := {| now := now (rt w); executions := executions (rt w);
                nextTimer := nextTimer (rt w);
                intervals := intervals (rt w);
                trace := trace (rt w) ++ [a] |} |}).

(** An awaited call into the environment. *)
Definition perform (a : Action) : M unit :=
  (record a ;; advance (awaitMs a))%js.

(** [await this.eventBus.emit(createEvent(type, this.config.id, payload))] *)
Definition emit_event (type : string) (payload : Payload) : M unit :=
  (a <- this ;;
   t <- Date_now ;;
   perform (Emit (createEvent type (id (config a)) payload t)))%js.

Definition hook (h : Hook) : M unit := perform (CallHook h).

(** [delay(ms)]: a timer of [ms] milliseconds (at least 0). *)
Definition delay (ms : Z) : M unit :=
  (record (Delay ms) ;; advance (Z.max 0 ms))%js.

Definition setInterval (ms : Z) : M nat :=
  (w <- get ;;
   let timer := nextTimer (rt w) in
   record (SetInterval timer ms) ;;
   modify (fun w =>
     {| self := self w;
        rt := {| now := now (rt w); executions := executions (rt w);
                 nextTimer := S timer;
                 intervals := intervals (rt w) ++ [(timer, ms)];
                 trace := trace (rt w) |} |}) ;;
   ret timer)%js.

Definition clearInterval (timer : nat) : M unit :=
  (record (ClearInterval timer) ;;
   modify (fun w =>
     {| self := self w;
        rt := {| now := now (rt w); executions := executions (rt w);
                 nextTimer := nextTimer (rt w);
                 intervals :=
                   filter (fun p => p.1 ≠ timer) (intervals (rt w));
                 trace := trace (rt w) |} |}))%js.

(** [this.execute(this.context)], called in attempt [attempt]. *)
Definition call_execute (attempt : Z) : M Work :=
  (a <- this ;;
   w <- get ;;
   record (Execute attempt (context a)) ;;
   modify (fun w =>
     {| self := self w;
        rt := {| now := now (rt w); executions := S (executions (rt w));
                 nextTimer := nextTimer (rt w);
                 intervals := intervals (rt w);
                 trace := trace (rt w) |} |}) ;;
   ret (execute (executions (rt w)) (context a)))%js.

Definition timeout_error : JsError := {| message := "Execution timeout" |}.

(** [Promise.race([promise, timer])] for a timer of [limit]
    milliseconds that rejects with the timeout error: what settles first,
    and after how long.  The promise exists before the timer is set, so
    a promise that settles at [limit] exactly is the first. *)
Definition race (limit : Z) (promise : Work) : (T + JsValue) * Z :=
  match promise with
  | Resolves after data =>
      if after <=? limit then (inl data, after)
      else (inr (VError timeout_error), limit)
  | Rejects after reason =>
      if after <=? limit then (inr reason, after)
      else (inr (VError timeout_error), limit)
  | NeverSettles => (inr (VError timeout_error), limit)
  end.

(** [await this.withTimeout(promise)] *)
Definition withTimeout (promise : Work) : M T :=
  (a <- this ;;
   let settled := race (timeoutMs (config a)) promise in
   advance settled.2 ;;
   match settled.1 with
   | inl data => ret data
   | inr reason => throw reason
   end)%js.

(** [error instanceof Error ? error : new Error(String(error))] *)
Definition to_Error (v : JsValue) : JsError :=
  match v with
  | VError e => e
  | VOther repr => {| message := repr |}
  end.

(** The [for] loop of [executeWithRetry], from [attempt] on.  It ends
    with [inl result] when the body returns, and with [inr lastError]
    when the loop condition fails.  [fuel] bounds the iterations. *)
Fixpoint retry_loop (fuel : nat) (attempt startTime : Z)
    (lastError : option JsError)
  : M (ExecutionResult T + option JsError) :=
  match fuel with
  | O => ret (inr lastError)
  | S fuel' =>
      (a <- this ;;
       if attempt <? maxRetries (config a) then
         r <- try_catch
                (promise <- call_execute attempt ;;
                 data <- withTimeout promise ;;
                 t <- Date_now ;;
                 let executionTimeMs := t - startTime in
                 emit_event AgentEvents.EXECUTION_COMPLETE
                   (PComplete data executionTimeMs) ;;
                 t' <- Date_now ;;
                 ret (inl {| success := true; data := Some data;
                             err := None;
                             executionTimeMs := executionTimeMs;
                             timestamp := t' |}))
                (fun error =>
                   let lastError := to_Error error in
                   update (fun a =>
                     set_context
                       (set_lastError (Some lastError) (context a)) a) ;;
                   a <- this ;;
                   (if attempt <? maxRetries (config a) - 1
                    then delay (retryDelayMs (config a) * (attempt + 1))
                    else ret tt) ;;
                   ret (inr lastError)) ;;
         match r with
         | inl result => ret (inl result)
         | inr e => retry_loop fuel' (attempt + 1) startTime (Some e)
         end
       else ret (inr lastError))%js
  end.

Definition executeWithRetry : M (ExecutionResult T) :=
  (startTime <- Date_now ;;
   a <- this ;;
   emit_event AgentEvents.EXECUTION_START
     (PIteration (iteration (context a))) ;;
   a <- this ;;
   r <- retry_loop (Z.to_nat (maxRetries (config a))) 0 startTime None ;;
   match r with
   | inl result => ret result
   | inr lastError =>
       update (set_status error) ;;
       hook (onError lastError) ;;
       emit_event AgentEvents.EXECUTION_FAILED (PError lastError) ;;
       emit_event AgentEvents.ERROR (PError lastError) ;;
       t <- Date_now ;;
       ret {| success := false; data := None; err := lastError;
              executionTimeMs := t - startTime; timestamp := t |}
   end)%js.

(** The guard of [tick]. *)
Definition eligible (a : BaseAgent) : bool :=
  bool_decide (status a = running) && enabled (config a).

Definition tick : M unit :=
  (a <- this ;;
   if negb (eligible a) then ret tt
   else
     update (fun a =>
       set_context
         (set_iteration (iteration (context a) + 1) (context a)) a) ;;
     result <- executeWithRetry ;;
     t <- Date_now ;;
     update (fun a =>
       set_metrics (updateMetrics result (startTime a) t (metrics a)) a) ;;
     a <- this ;;
     emit_event AgentEvents.METRICS_UPDATED (PMetrics (metrics a)))%js.

(** [if (intervalMs)]: a number that is present and not zero. *)
Definition truthy (intervalMs : option Z) : bool :=
  match intervalMs with
  | Some ms => negb (ms =? 0)
  | None => false
  end.

Definition start (intervalMs : option Z) : M unit :=
  (a <- this ;;
   if bool_decide (status a = running) then ret tt
   else
     t <- Date_now ;;
     update (fun a =>
       set_context (set_startedAt t (context a))
         (set_startTime (Some t) (set_status running a))) ;;
     hook onStart ;;
     a <- this ;;
     emit_event AgentEvents.STARTED (PConfig (config a)) ;;
     (if truthy intervalMs
      then timer <- setInterval (default 0 intervalMs) ;;
           update (set_intervalId (Some timer))
      else ret tt) ;;
     tick)%js.

Definition stop : M unit :=
  (a <- this ;;
   if bool_decide (status a = stopped) then ret tt
   else
     match intervalId a with
     | Some timer =>
         clearInterval timer ;; update (set_intervalId None)
     | None => ret tt
     end ;;
     update (set_status stopped) ;;
     hook onStop ;;
     a <- this ;;
     emit_event AgentEvents.STOPPED (PMetrics (metrics a)))%js.

Definition pause : M unit :=
  (a <- this ;;
   if negb (bool_decide (status a = running)) then ret tt
   else
     update (set_status paused) ;;
     hook onPause ;;
     emit_event AgentEvents.PAUSED PEmpty)%js.

Definition resume : M unit :=
  (a <- this ;;
   if negb (bool_decide (status a = paused)) then ret tt
   else
     update (set_status running) ;;
     hook onResume ;;
     emit_event AgentEvents.RESUMED PEmpty)%js.

(** The calls a client or the periodic trigger makes on an engine. *)
Inductive Call : Type :=
| CStart (intervalMs : option Z)
| CStop
| CPause
| CResume
| CTick.

Definition call (c : Call) : M unit :=
  match c with
  | CStart intervalMs => start intervalMs
  | CStop => stop
  | CPause => pause
  | CResume => resume
  | CTick => tick
  end.

(** The attempts and the waits of a trace, in order. *)
Inductive Slot : Type :=
| Attempt (index : Z)
| Wait (ms : Z).

Definition slot_of (a : Action) : option Slot :=
  match a with
  | Execute attempt _ => Some (Attempt attempt)
  | Delay ms => Some (Wait ms)
  | _ => None
  end.

Definition schedule (tr : list Action) : list Slot := omap slot_of tr.

(** The retry schedule in the specification's words: [k] attempts,
    numbered from [attempt] on, and between an attempt of index [i] and
    the next one a wait of [retryDelayMs * (i + 1)]; no wait before the
    first attempt and none after the last. *)
Fixpoint backoff (retryDelayMs attempt : Z) (k : nat) : list Slot :=
  match k with
  | O => []
  | S k' =>
      Attempt attempt ::
      match k' with
      | O => []
      | S _ =>
          Wait (retryDelayMs * (attempt + 1)) ::
          backoff retryDelayMs (attempt + 1) k'
      end
  end.

(** The world after attempt [attempt] has failed with [reason], [d]
    milliseconds after [execute] was called. *)
Definition after_failure (attempt : Z) (reason : JsValue) (d : Z) (w : World)
  : World :=
  let a := self w in
  let waits := attempt <? maxRetries (config a) - 1 in
  let ms := retryDelayMs (config a) * (attempt + 1) in
  {| self := set_context (set_lastError (Some (to_Error reason)) (context a)) a;
     rt := {| now := if waits then now (rt w) + d + Z.max 0 ms
                     else now (rt w) + d;
              executions := S (executions (rt w));
              nextTimer := nextTimer (rt w);
              intervals := intervals (rt w);
              trace := trace (rt w) ++ Execute attempt (context a)
                         :: (if waits then [Delay ms] else []) |} |}.

(** The result and the world after attempt [attempt] has succeeded with
    [data], [d] milliseconds after [execute] was called. *)
Definition completed (data : T) (d startTime : Z) (w : World) : Action :=
  Emit (createEvent AgentEvents.EXECUTION_COMPLETE (id (config (self w)))
          (PComplete data (now (rt w) + d - startTime)) (now (rt w) + d)).

Definition after_success (attempt : Z) (data : T) (d startTime : Z)
    (w : World) : World :=
  {| self := self w;
     rt := {| now := now (rt w) + d + awaitMs (completed data d startTime w);
              executions := S (executions (rt w));
              nextTimer := nextTimer (rt w);
              intervals := intervals (rt w);
              trace := trace (rt w) ++
                         [Execute attempt (context (self w));
                          completed data d startTime w] |} |}.

Definition success_result (data : T) (d startTime : Z) (w : World)
  : ExecutionResult T :=
  {| success := true; data := Some data; err := None;
     executionTimeMs := now (rt w) + d - startTime;
     timestamp := now (rt w) + d + awaitMs (completed data d startTime w) |}.





(** An invariant of the world that does not depend on the runtime. *)
Definition rt_blind (I : World → Prop) : Prop :=
  ∀ a r r', I {| self := a; rt := r |} → I {| self := a; rt := r' |}.

(** An invariant of the world that the retry loop cannot break: it does
    not depend on the runtime, on [status] or on [context.lastError]. *)
Definition retry_safe (I : World → Prop) : Prop :=
  (∀ a r r', I {| self := a; rt := r |} → I {| self := a; rt := r' |}) ∧
  (∀ a r s, I {| self := a; rt := r |} →
            I {| self := set_status s a; rt := r |}) ∧
  (∀ a r e, I {| self := a; rt := r |} →
            I {| self := set_context (set_lastError e (context a)) a;
                 rt := r |}).

(** The world after [executeWithRetry] has emitted [EXECUTION_START]. *)
Definition execution_start (w : World) : Action :=
  Emit (createEvent AgentEvents.EXECUTION_START (id (config (self w)))
          (PIteration (iteration (context (self w)))) (now (rt w))).

Definition after_start (w : World) : World :=
  {| self := self w;
     rt := {| now := now (rt w) + awaitMs (execution_start w);
              executions := executions (rt w);
              nextTimer := nextTimer (rt w);
              intervals := intervals (rt w);
              trace := trace (rt w) ++ [execution_start w] |} |}.

(** The terminal failure of a cycle whose retry loop has left the world
    [w] and the error [last]: the error hook and the two events, with
    the clock values at which each is reached. *)
Definition error_hook (last : option JsError) : Action :=
  CallHook (onError last).

Definition execution_failed (last : option JsError) (w : World) : Action :=
  Emit (createEvent AgentEvents.EXECUTION_FAILED (id (config (self w)))
          (PError last) (now (rt w) + awaitMs (error_hook last))).

Definition generic_error (last : option JsError) (w : World) : Action :=
  Emit (createEvent AgentEvents.ERROR (id (config (self w))) (PError last)
          (now (rt w) + awaitMs (error_hook last)
           + awaitMs (execution_failed last w))).

Definition after_terminal (last : option JsError) (w : World) : World :=
  {| self := set_status error (self w);
     rt := {| now := now (rt w) + awaitMs (error_hook last)
                     + awaitMs (execution_failed last w)
                     + awaitMs (generic_error last w);
              executions := executions (rt w);
              nextTimer := nextTimer (rt w);
              intervals := intervals (rt w);
              trace := trace (rt w) ++
                         [error_hook last; execution_failed last w;
                          generic_error last w] |} |}.

Definition failure_result (last : option JsError) (startTime : Z) (w : World)
  : ExecutionResult T :=
  {| success := false; data := None; err := last;
     executionTimeMs := now (rt (after_terminal last w)) - startTime;
     timestamp := now (rt (after_terminal last w)) |}.

(** The world in which an eligible [tick] calls [executeWithRetry]. *)
Definition next_iteration (w : World) : World :=
  {| self :=
       set_context
         (set_iteration (iteration (context (self w)) + 1) (context (self w)))
         (self w);
     rt := rt w |}.

(** The end of [tick], from the world [w] in which [executeWithRetry]
    has returned [result]. *)
Definition metrics_updated (result : ExecutionResult T) (w : World) : Action :=
  Emit (createEvent AgentEvents.METRICS_UPDATED (id (config (self w)))
          (PMetrics
             (updateMetrics result (startTime (self w)) (now (rt w))
                (metrics (self w))))
          (now (rt w))).

Definition after_tick (result : ExecutionResult T) (w : World) : World :=
  {| self :=
       set_metrics
         (updateMetrics result (startTime (self w)) (now (rt w))
            (metrics (self w))) (self w);
     rt := {| now := now (rt w) + awaitMs (metrics_updated result w);
              executions := executions (rt w);
              nextTimer := nextTimer (rt w);
              intervals := intervals (rt w);
              trace := trace (rt w) ++ [metrics_updated result w] |} |}.

(** The world in which [start] calls [tick], when the engine was not
    running. *)
Definition started_event (w : World) : Action :=
  Emit (createEvent AgentEvents.STARTED (id (config (self w)))
          (PConfig (config (self w))) (now (rt w) + awaitMs (CallHook onStart))).

Definition after_started (intervalMs : option Z) (w : World) : World :=
  let a :=
    set_context (set_startedAt (now (rt w)) (context (self w)))
      (set_startTime (Some (now (rt w))) (set_status running (self w))) in
  let arms := truthy intervalMs in
  let timer := nextTimer (rt w) in
  let ms := default 0 intervalMs in
  {| self := if arms then set_intervalId (Some timer) a else a;
     rt := {| now := now (rt w) + awaitMs (CallHook onStart)
                     + awaitMs (started_event w);
              executions := executions (rt w);
              nextTimer := if arms then S timer else timer;
              intervals :=
                intervals (rt w) ++ (if arms then [(timer, ms)] else []);
              trace :=
                trace (rt w) ++ CallHook onStart :: started_event w
                  :: (if arms then [SetInterval timer ms] else []) |} |}.

(** Totals that add up. *)
Definition consistent (m : AgentMetrics) : Prop :=
  totalExecutions m = successfulExecutions m + failedExecutions m.

(** [n] ticks in a row. *)
Definition ticks (n : nat) : M unit :=
  for_each (fun _ => tick) (replicate n tt).

(** An invariant of the world that depends on the metrics only. *)
Definition metrics_only (I : World → Prop) : Prop :=
  ∀ a a' r r',
    metrics a = metrics a' →
    I {| self := a; rt := r |} → I {| self := a'; rt := r' |}.


(** [getStatus], [getMetrics], [getConfig], [getContext] *)
Definition getStatus (a : BaseAgent) : AgentStatus := status a.
Definition getMetrics (a : BaseAgent) : AgentMetrics := metrics a.
Definition getConfig (a : BaseAgent) : Config := config a.
Definition getContext (a : BaseAgent) : AgentContext := context a.

(** An invariant of the world that depends on the periodic triggers
    only: the armed ones, the next timer id and [this.intervalId]. *)
Definition timers_only (I : World → Prop) : Prop :=
  ∀ a a' r r',
    intervalId a = intervalId a' →
    intervals r = intervals r' →
    nextTimer r = nextTimer r' →
    I {| self := a; rt := r |} → I {| self := a'; rt := r' |}.

(** [context.lastError] holds an error. *)
Definition has_error (w : World) : Prop :=
  is_Some (lastError (context (self w))).

(** [context.iteration] is the number of cycles recorded. *)
Definition counted (w : World) : Prop :=
  iteration (context (self w)) = totalExecutions (metrics (self w)).

(** A fresh runtime at clock value [t]. *)
Definition boot (t : Z) : Runtime :=
  {| now := t; executions := 0; nextTimer := 1; intervals := [];
     trace := [] |}.
End Engine.

Arguments Payload : clear implicits.
Arguments Action : clear implicits.
Arguments Work : clear implicits.
Arguments Runtime : clear implicits.
Arguments World : clear implicits.

End Agent.

(** ** The engine between the turns of the event loop

    [tick] is an [async] function and the periodic trigger's callback
    [() => this.tick()] does not await it.  The event loop runs one turn
    at a time; a cycle whose retry loop awaits a promise is suspended and
    other turns run meanwhile.  This module keeps, for one engine, the
    number of cycle bodies that are suspended in their retry loop. *)

Module Scheduler.
Import Agent.

Section Loop.
Context {T : Type}.

Record State : Type := {
  engine : BaseAgent;
  (** the periodic triggers that are armed *)
  armed : list nat;
  fresh : nat;
  (** the cycle bodies whose retry loop has not returned yet *)
  pending : nat
}.

Inductive Turn : Type :=
(** the callback of an armed periodic trigger runs *)
| Fire (timer : nat)
(** the retry loop of a pending cycle returns [result], having left
    [lastError] in the context, and the rest of its [tick] runs *)
| Settle (result : ExecutionResult T) (lastError : option JsError)
    (now : Z)
(** a client calls the engine *)
| DoStart (intervalMs : option Z) (now : Z)
| DoStop
| DoPause
| DoResume.

(** [tick] up to the first [await] of its retry loop. *)
Definition tick_begin (s : State) : State :=
  if negb (eligible (engine s)) then s
  else
    {| engine :=
         set_context
           (set_iteration (iteration (context (engine s)) + 1)
              (context (engine s))) (engine s);
       armed := armed s; fresh := fresh s;
       pending := S (pending s) |}.

(** What a cycle has done to the engine when its [tick] is over: the
    retry loop's writes to [context.lastError] and, on terminal
    failure, to [status]; then [updateMetrics]. *)
Definition tick_end (result : ExecutionResult T)
    (lastError : option JsError) (now : Z) (a : BaseAgent) : BaseAgent :=
  let a1 := set_context (set_lastError lastError (context a)) a in
  let a2 := if success result then a1 else set_status error a1 in
  set_metrics (updateMetrics result (startTime a2) now (metrics a2)) a2.

Definition turn (t : Turn) (s : State) : State :=
  match t with
  | Fire timer =>
      if bool_decide (timer ∈ armed s) then tick_begin s else s
  | Settle result lastError now =>
      match pending s with
      | O => s
      | S n =>
          {| engine := tick_end result lastError now (engine s);
             armed := armed s; fresh := fresh s; pending := n |}
      end
  | DoStart intervalMs now =>
      if bool_decide (status (engine s) = running) then s
      else
        let a :=
          set_context (set_startedAt now (context (engine s)))
            (set_startTime (Some now) (set_status running (engine s))) in
        tick_begin
          (if truthy intervalMs
           then {| engine := set_intervalId (Some (fresh s)) a;
                   armed := armed s ++ [fresh s];
                   fresh := S (fresh s); pending := pending s |}
           else {| engine := a; armed := armed s; fresh := fresh s;
                   pending := pending s |})
  | DoStop =>
      if bool_decide (status (engine s) = stopped) then s
      else
        {| engine := set_status stopped (set_intervalId None (engine s));
           armed :=
             match intervalId (engine s) with
             | Some timer => filter (fun i => i ≠ timer) (armed s)
             | None => armed s
             end;
           fresh := fresh s; pending := pending s |}
  | DoPause =>
      if negb (bool_decide (status (engine s) = running)) then s
      else {| engine := set_status paused (engine s); armed := armed s;
              fresh := fresh s; pending := pending s |}
  | DoResume =>
      if negb (bool_decide (status (engine s) = paused)) then s
      else {| engine := set_status running (engine s); armed := armed s;
              fresh := fresh s; pending := pending s |}
  end.

Definition run (ts : list Turn) (s : State) : State :=
  fold_left (fun s t => turn t s) ts s.

(** A new engine: nothing armed, nothing pending. *)
Definition init (a : BaseAgent) : State :=
  {| engine := a; armed := []; fresh := 1; pending := 0 |}.


(** A turn that can set the status to [running]. *)
Definition wakes (t : Turn) : bool :=
  match t with
  | DoStart _ _ | DoResume => true
  | _ => false
  end.

End Loop.

Arguments State : clear implicits.
Arguments Turn : clear implicits.
End Scheduler.

(** ** manager.ts: the fleet manager *)

Module Manager.
Import Agent.

Record ManagedAgent : Type := {
  agent : BaseAgent;
  intervalMs : option Z
}.

Definition dquote : string := String "034"%char EmptyString.

Definition already_registered (key : string) : JsValue :=
  VError {| message :=
    "Agent with id " +:+ dquote +:+ key +:+ dquote +:+ " already registered" |}.

Definition not_found (key : string) : JsValue :=
  VError {| message := "Agent " +:+ dquote +:+ key +:+ dquote +:+ " not found" |}.

(** The value of [getAggregatedMetrics]. *)
Record Aggregated : Type := {
  agg_totalExecutions : Z;
  agg_successfulExecutions : Z;
  agg_failedExecutions : Z;
  agg_averageExecutionTimeMs : Q
}.

(** The accumulator of its [reduce]. *)
Record Totals : Type := {
  sum_totalExecutions : Z;
  sum_successfulExecutions : Z;
  sum_failedExecutions : Z;
  sum_totalTime : Q
}.

Definition add_metrics (acc : Totals) (m : AgentMetrics) : Totals :=
  {| sum_totalExecutions := sum_totalExecutions acc + totalExecutions m;
     sum_successfulExecutions :=
       sum_successfulExecutions acc + successfulExecutions m;
     sum_failedExecutions := sum_failedExecutions acc + failedExecutions m;
     sum_totalTime :=
       (sum_totalTime acc
        + averageExecutionTimeMs m * inject_Z (totalExecutions m))%Q |}.

(** The time the cycles counted in a list of metrics have taken: for each
    engine its average times its count. *)
Definition weighted_time (metrics : list AgentMetrics) : Q :=
  foldr (fun m acc =>
           (averageExecutionTimeMs m * inject_Z (totalExecutions m) + acc)%Q)
    0%Q metrics.

(** [getAggregatedMetrics], from the array [metrics] on. *)
Definition aggregate (metrics : list AgentMetrics) : Aggregated :=
  match metrics with
  | [] =>
      {| agg_totalExecutions := 0; agg_successfulExecutions := 0;
         agg_failedExecutions := 0; agg_averageExecutionTimeMs := 0%Q |}
  | _ =>
      let totals :=
        fold_left add_metrics metrics
          {| sum_totalExecutions := 0; sum_successfulExecutions := 0;
             sum_failedExecutions := 0; sum_totalTime := 0%Q |} in
      {| agg_totalExecutions := sum_totalExecutions totals;
         agg_successfulExecutions := sum_successfulExecutions totals;
         agg_failedExecutions := sum_failedExecutions totals;
         agg_averageExecutionTimeMs :=
           if 0 <? sum_totalExecutions totals
           then (sum_totalTime totals
                 / inject_Z (sum_totalExecutions totals))%Q
           else 0%Q |}
  end.

(** Two aggregated metrics with the same counts and the same average. *)
Definition same_aggregate (g g' : Aggregated) : Prop :=
  agg_totalExecutions g = agg_totalExecutions g' ∧
  agg_successfulExecutions g = agg_successfulExecutions g' ∧
  agg_failedExecutions g = agg_failedExecutions g' ∧
  (agg_averageExecutionTimeMs g == agg_averageExecutionTimeMs g')%Q.

Section Fleet.
Context {T : Type}.
Variable execute : nat -> AgentContext -> Work T.
Variable awaitMs : Action T -> Z.

(** The manager's map together with the runtime its engines run in.
    The map holds the engines themselves: an operation on an engine
    is visible through the map, as it is through the reference the
    JavaScript [Map] holds. *)
Record AgentManager : Type := {
  agents : gmap string ManagedAgent;
  runtime : Runtime T
}.

Local Abbreviation M := (Js.M AgentManager JsValue).

Definition register (a : BaseAgent) (intervalMs : option Z) : M unit :=
  (m <- get ;;
   let config := config a in
   if bool_decide (is_Some (agents m !! id config))
   then throw (already_registered (id config))
   else
     modify (fun m =>
       {| agents :=
            <[id config := {| agent := a; intervalMs := intervalMs |}]>
              (agents m);
          runtime := runtime m |}))%js.

(** [await managed.agent.op()], for the engine registered as
    [agentId]. *)
Definition delegate {A} (agentId : string) (managed : ManagedAgent)
    (op : Js.M (World T) JsValue A) : M A :=
  fun m =>
    let r := op {| self := agent managed; rt := runtime m |} in
    (r.1,
     {| agents :=
          <[agentId := {| agent := self r.2;
                          intervalMs := intervalMs managed |}]>
            (agents m);
        runtime := rt r.2 |}).

Definition startAgent (agentId : string) : M unit :=
  (m <- get ;;
   match agents m !! agentId with
   | None => throw (not_found agentId)
   | Some managed =>
       delegate agentId managed
         (start execute awaitMs (intervalMs managed))
   end)%js.

Definition stopAgent (agentId : string) : M unit :=
  (m <- get ;;
   match agents m !! agentId with
   | None => throw (not_found agentId)
   | Some managed => delegate agentId managed (stop awaitMs)
   end)%js.

Definition pauseAgent (agentId : string) : M unit :=
  (m <- get ;;
   match agents m !! agentId with
   | None => throw (not_found agentId)
   | Some managed => delegate agentId managed (pause awaitMs)
   end)%js.

Definition resumeAgent (agentId : string) : M unit :=
  (m <- get ;;
   match agents m !! agentId with
   | None => throw (not_found agentId)
   | Some managed => delegate agentId managed (resume awaitMs)
   end)%js.

(** The four pass-through operations and the engine operation each
    delegates to. *)
Inductive Lifecycle : Type := LStart | LStop | LPause | LResume.

Definition manager_op (l : Lifecycle) (agentId : string) : M unit :=
  match l with
  | LStart => startAgent agentId
  | LStop => stopAgent agentId
  | LPause => pauseAgent agentId
  | LResume => resumeAgent agentId
  end.

Definition engine_op (l : Lifecycle) (managed : ManagedAgent)
  : Js.M (World T) JsValue unit :=
  match l with
  | LStart => start execute awaitMs (intervalMs managed)
  | LStop => stop awaitMs
  | LPause => pause awaitMs
  | LResume => resume awaitMs
  end.

(** A call whose promise is dropped: its effects happen, its outcome
    is not seen by the caller. *)
Definition detached {A} (op : M A) : M unit :=
  fun m => (Returned tt, (op m).2).

(** [unregister]: [managed.agent.stop()] is called without [await], then
    the entry is deleted.  The effects of [stop] are taken at the call. *)
Definition unregister (agentId : string) : M unit :=
  (m <- get ;;
   match agents m !! agentId with
   | Some managed =>
       detached (delegate agentId managed (stop awaitMs)) ;;
       modify (fun m =>
         {| agents := delete agentId (agents m); runtime := runtime m |})
   | None => ret tt
   end)%js.

Definition getAgentCount (m : AgentManager) : nat := size (agents m).

Definition getAgentStatus (agentId : string) (m : AgentManager)
  : option AgentStatus :=
  (fun managed => getStatus (agent managed)) <$> agents m !! agentId.

Definition getAgentMetrics (agentId : string) (m : AgentManager)
  : option AgentMetrics :=
  (fun managed => getMetrics (agent managed)) <$> agents m !! agentId.

(** [Array.from(this.agents.values())]: the entries of the map.  A
    JavaScript [Map] lists them in insertion order and a [gmap] in the
    order of its keys; what is computed from the list below is a count
    or a sum. *)
Definition managed_agents (m : AgentManager) : list ManagedAgent :=
  (map_to_list (agents m)).*2.

Definition getRunningAgentCount (m : AgentManager) : nat :=
  length (filter (fun managed => getStatus (agent managed) = running)
            (managed_agents m)).

Definition getAggregatedMetrics (m : AgentManager) : Aggregated :=
  aggregate ((fun managed => getMetrics (agent managed)) <$> managed_agents m).

Definition getAgent (agentId : string) (m : AgentManager)
  : option BaseAgent :=
  agent <$> agents m !! agentId.

(** The manager as its constructor leaves it. *)
Definition fresh_manager (r : Runtime T) : AgentManager :=
  {| agents := ∅; runtime := r |}.

(** The calls a client makes on the manager. *)
Inductive ManagerCall : Type :=
| MRegister (a : BaseAgent) (intervalMs : option Z)
| MUnregister (agentId : string)
| MLifecycle (l : Lifecycle) (agentId : string).

Definition manager_call (c : ManagerCall) : M unit :=
  match c with
  | MRegister a intervalMs => register a intervalMs
  | MUnregister agentId => unregister agentId
  | MLifecycle l agentId => manager_op l agentId
  end.

(** Every engine is filed under its own id. *)
Definition keyed (m : AgentManager) : Prop :=
  ∀ key managed,
    agents m !! key = Some managed → id (config (agent managed)) = key.
End Fleet.

Arguments AgentManager : clear implicits.
End Manager.

(** ** Concrete engines, buses and fleets *)

Module Examples.
Import Agent.

Definition config_of (retries : Z) (on : bool) : AgentConfig :=
  {| cfg_id := "agent-1"; cfg_name := "Agent one";
     cfg_description := None; cfg_priority := None;
     cfg_maxRetries := Some retries; cfg_retryDelayMs := Some 100;
     cfg_timeoutMs := Some 50; cfg_enabled := Some on |}.

(** An engine just constructed, at clock value 1000. *)
Definition fresh_world (retries : Z) (on : bool) : World unit :=
  {| self := Agent.new (config_of retries on) 1000; rt := boot 1000 |}.

(** The same engine with status [running]. *)
Definition running_world (retries : Z) (on : bool) : World unit :=
  {| self := set_status running (Agent.new (config_of retries on) 1000);
     rt := boot 1000 |}.

(** A unit of work that rejects after 5 ms, one that never settles, and
    one that takes 30 ms. *)
Definition always_fails (n : nat) (ctx : AgentContext) : Work unit :=
  Rejects 5 (VOther "boom").


Definition slow_success (n : nat) (ctx : AgentContext) : Work unit :=
  Resolves 30 tt.

(** Every awaited call into the environment takes 1 ms. *)
Definition one_ms (a : Action unit) : Z := 1.

Definition cycle_of (ms : Z) : ExecutionResult unit * option Z * Z :=
  ({| success := true; data := Some tt; err := None;
      executionTimeMs := ms; timestamp := 0 |}, None, 0).




(** A bus with handlers 1 and 2 subscribed to the type [tick]; handler
    1 unsubscribes handler 2 and then throws. *)
Definition tick_event : AgentEvent unit :=
  createEvent "tick" "agent-1" tt 0.

Definition two_handlers : EventBus.EventBus :=
  (EventBus.subscribe "tick" 2%nat
     (EventBus.subscribe "tick" 1%nat EventBus.empty).2).2.

Definition second_subscription : EventBus.Subscription :=
  (EventBus.subscribe "tick" 2%nat
     (EventBus.subscribe "tick" 1%nat EventBus.empty).2).1.

Definition saboteur (n : nat) (h : EventBus.EventHandler)
    (e : AgentEvent unit) : EventBus.Behaviour :=
  if decide (h = 1%nat)
  then {| EventBus.effects := [EventBus.OpUnsubscribe second_subscription];
          EventBus.outcome := EventBus.Throws (VOther "handler failed") |}
  else {| EventBus.effects := []; EventBus.outcome := EventBus.Fulfils |}.

Definition bus_world : EventBus.BusWorld (T:=unit) :=
  {| EventBus.bus := two_handlers; EventBus.invoked := [];
     EventBus.console := [] |}.

(** A fleet of one. *)
Definition fleet : Manager.AgentManager unit :=
  {| Manager.agents :=
       {[ "agent-1" :=
            {| Manager.agent := Agent.new (config_of 3 true) 1000;
               Manager.intervalMs := Some 1000 |} ]};
     Manager.runtime := boot 1000 |}.

(** The same fleet with its engine running. *)
Definition running_fleet : Manager.AgentManager unit :=
  {| Manager.agents :=
       {[ "agent-1" :=
            {| Manager.agent :=
                 set_status running (Agent.new (config_of 3 true) 1000);
               Manager.intervalMs := Some 1000 |} ]};
     Manager.runtime := boot 1000 |}.

(** The fleet after its engine has been started, paused and started
    again: the second [start] has armed trigger 2 and the engine holds
    that one; trigger 1 is still armed. *)
Definition restarted_fleet : Manager.AgentManager unit :=
  exec (Manager.startAgent slow_success one_ms "agent-1")
    (exec (Manager.pauseAgent one_ms "agent-1")
       (exec (Manager.startAgent slow_success one_ms "agent-1") fleet)).

(** An engine with the id [agent-2]. *)
Definition second_agent : BaseAgent :=
  Agent.new
    {| cfg_id := "agent-2"; cfg_name := "Agent two";
       cfg_description := None; cfg_priority := None;
       cfg_maxRetries := None; cfg_retryDelayMs := None;
       cfg_timeoutMs := None; cfg_enabled := None |} 1000.

(** The engine after a cycle whose only attempt has failed. *)
Definition failed_world : World unit :=
  exec (tick always_fails one_ms) (running_world 1 true).

(** Handler 1 subscribes handler 3 to [tick] each time it is called. *)
Definition recruiter (n : nat) (h : EventBus.EventHandler)
    (e : AgentEvent unit) : EventBus.Behaviour :=
  if decide (h = 1%nat)
  then {| EventBus.effects := [EventBus.OpSubscribe "tick" 3%nat];
          EventBus.outcome := EventBus.Fulfils |}
  else {| EventBus.effects := []; EventBus.outcome := EventBus.Fulfils |}.



(** A bus with handler 1 subscribed to [tick] and handler 2 subscribed
    to all events; handler 1 unsubscribes handler 2 and then throws. *)
Definition with_wildcard : EventBus.EventBus :=
  (EventBus.subscribeAll 2%nat
     (EventBus.subscribe "tick" 1%nat EventBus.empty).2).2.

Definition wildcard_subscription : EventBus.Subscription :=
  (EventBus.subscribeAll 2%nat
     (EventBus.subscribe "tick" 1%nat EventBus.empty).2).1.

Definition wildcard_saboteur (n : nat) (h : EventBus.EventHandler)
    (e : AgentEvent unit) : EventBus.Behaviour :=
  if decide (h = 1%nat)
  then {| EventBus.effects := [EventBus.OpUnsubscribe wildcard_subscription];
          EventBus.outcome := EventBus.Throws (VOther "handler failed") |}
  else {| EventBus.effects := []; EventBus.outcome := EventBus.Fulfils |}.

Definition wildcard_world : EventBus.BusWorld (T:=unit) :=
  {| EventBus.bus := with_wildcard; EventBus.invoked := [];
     EventBus.console := [] |}.

Definition other_event : AgentEvent unit :=
  createEvent "tock" "agent-1" tt 0.

(** The metrics of an engine that has recorded cycles of 10 and 20 ms
    and of one that has recorded a cycle of 30 ms. *)
Definition two_cycles : AgentMetrics :=
  record_cycles [cycle_of 10; cycle_of 20]
    (metrics (Agent.new (config_of 3 true) 1000)).

Definition one_cycle : AgentMetrics :=
  record_cycles [cycle_of 30] (metrics (Agent.new (config_of 3 true) 1000)).
End Examples.

(** * Properties *)

(** ** Reasoning about computations in [M] *)

Section MonadFacts.
Context {S E : Type}.

Lemma returns_ret {A} (a : A) : returns (@ret S E A a).
Proof. intros s. by exists a. Qed.

Lemma returns_bind {A B} (m : M S E A) (k : A → M S E B) :
  returns m → (∀ a, returns (k a)) → returns (bind m k).
Proof.
  intros Hm Hk s. unfold eval, bind.
  destruct (Hm s) as [a Ha]. unfold eval in Ha.
  destruct (m s) as [c s']; simpl in Ha; subst c. apply Hk.
Qed.

Lemma returns_try_catch {A} (m : M S E A) (h : E → M S E A) :
  (∀ e, returns (h e)) → returns (try_catch m h).
Proof.
  intros Hh s. unfold eval, try_catch.
  destruct (m s) as [[a|e] s']; [by exists a | apply Hh].
Qed.

Lemma returns_modify (f : S → S) : returns (@modify S E f).
Proof. intros s. by exists tt. Qed.

Lemma returns_get : returns (@get S E).
Proof. intros s. by exists s. Qed.

Lemma returns_gets {A} (f : S → A) : returns (@gets S E A f).
Proof. intros s. by exists (f s). Qed.

Lemma returns_for_each {A} (f : A → M S E unit) (xs : list A) :
  (∀ x, returns (f x)) → returns (for_each f xs).
Proof.
  intros Hf. induction xs as [|x xs IH]; simpl.
  - apply returns_ret.
  - apply returns_bind; [apply Hf | intros _; apply IH].
Qed.

Lemma keeps_ret {A} (I : S → Prop) (a : A) : keeps I (@ret S E A a).
Proof. by intros s. Qed.

Lemma keeps_throw {A} (I : S → Prop) (e : E) : keeps I (@throw S E A e).
Proof. by intros s. Qed.

Lemma keeps_bind {A B} (I : S → Prop) (m : M S E A) (k : A → M S E B) :
  keeps I m → (∀ a, keeps I (k a)) → keeps I (bind m k).
Proof.
  intros Hm Hk s Hs. unfold exec, bind.
  specialize (Hm s Hs). unfold exec in Hm.
  destruct (m s) as [[a|e] s']; simpl in *; [by apply Hk | done].
Qed.

Lemma keeps_try_catch {A} (I : S → Prop) (m : M S E A) (h : E → M S E A) :
  keeps I m → (∀ e, keeps I (h e)) → keeps I (try_catch m h).
Proof.
  intros Hm Hh s Hs. unfold exec, try_catch.
  specialize (Hm s Hs). unfold exec in Hm.
  destruct (m s) as [[a|e] s']; simpl in *; [done | by apply Hh].
Qed.

Lemma keeps_modify (I : S → Prop) (f : S → S) :
  (∀ s, I s → I (f s)) → keeps I (@modify S E f).
Proof. intros Hf s Hs. by apply Hf. Qed.

Lemma keeps_get (I : S → Prop) : keeps I (@get S E).
Proof. by intros s. Qed.

Lemma keeps_gets {A} (I : S → Prop) (f : S → A) : keeps I (@gets S E A f).
Proof. by intros s. Qed.

Lemma keeps_for_each {A} (I : S → Prop) (f : A → M S E unit) (xs : list A) :
  (∀ x, keeps I (f x)) → keeps I (for_each f xs).
Proof.
  intros Hf. induction xs as [|x xs IH]; simpl.
  - apply keeps_ret.
  - apply keeps_bind; [apply Hf | intros _; apply IH].
Qed.

(** A computation that returns in [s] continues with its result. *)
Lemma bind_returned {A B} (m : M S E A) (k : A → M S E B) s a s' :
  m s = (Returned a, s') → bind m k s = k a s'.
Proof. intros H. unfold bind. by rewrite H. Qed.

Lemma bind_threw {A B} (m : M S E A) (k : A → M S E B) s e s' :
  m s = (Threw e, s') → bind m k s = (Threw e, s').
Proof. intros H. unfold bind. by rewrite H. Qed.
End MonadFacts.

(** ** The event bus *)

Section BusFacts.
Import EventBus.
Context {T : Type}.
Variable behave : nat → EventHandler → AgentEvent T → Behaviour.

Local Abbreviation World := (@EventBus.BusWorld T).
Local Abbreviation emit := (EventBus.emit behave).
Local Abbreviation call_handler := (EventBus.call_handler behave).

Local Abbreviation guarded := (EventBus.guarded behave).
Local Abbreviation recipients := (@EventBus.allHandlers T).

Lemma emit_unfold event w :
  emit event w = for_each (guarded event) (recipients event (bus w)) w.
Proof. reflexivity. Qed.

Lemma guarded_spec event h w :
  ∃ c,
    guarded event h w =
      (Returned tt,
       {| bus := apply_ops (effects (behave (length (invoked w)) h event))
                   (bus w);
          invoked := invoked w ++ [(h, event)];
          console := console w ++ c |}).
Proof.
  unfold EventBus.guarded, try_catch, EventBus.call_handler, bind, get, modify; simpl.
  destruct (outcome (behave (length (invoked w)) h event)); simpl.
  - exists []. by rewrite app_nil_r.
  - eexists [_]. reflexivity.
  - eexists [_]. reflexivity.
Qed.

(** The guarded calls of a list of handlers all return, and each handler
    of the list is called, in order, whatever the earlier ones did. *)
Lemma for_each_guarded event hs w :
  ∃ w',
    for_each (guarded event) hs w = (Returned tt, w') ∧
    invoked w' = invoked w ++ ((fun h => (h, event)) <$> hs).
Proof.
  revert w. induction hs as [|h hs IH]; intros w; simpl.
  - exists w. by rewrite app_nil_r.
  - destruct (guarded_spec event h w) as [c Hc].
    rewrite (bind_returned _ _ _ _ _ Hc).
    destruct (IH {| bus := apply_ops (effects (behave (length (invoked w)) h event))
                            (bus w);
                    invoked := invoked w ++ [(h, event)];
                    console := console w ++ c |}) as (w' & Hw' & Hinv).
    exists w'. split; [done|]. rewrite Hinv. simpl. by rewrite <- app_assoc.
Qed.

Lemma emit_spec event w :
  ∃ w',
    emit event w = (Returned tt, w') ∧
    invoked w' =
      invoked w ++ ((fun h => (h, event)) <$> recipients event (bus w)).
Proof. rewrite emit_unfold. apply for_each_guarded. Qed.

(** An invariant of the bus that every handler's effects keep is kept by
    the guarded calls. *)
Lemma for_each_guarded_bus (I : EventBus → Prop) event hs w :
  (∀ n h b, I b → I (apply_ops (effects (behave n h event)) b)) →
  I (bus w) → I (bus (exec (for_each (guarded event) hs) w)).
Proof.
  intros Hkeep. revert w. induction hs as [|h hs IH]; intros w Hw; simpl.
  - done.
  - destruct (guarded_spec event h w) as [c Hc].
    unfold exec. rewrite (bind_returned _ _ _ _ _ Hc).
    apply IH. simpl. by apply Hkeep.
Qed.

Lemma not_elem_of_set_delete g s : g ∉ set_delete g s.
Proof. unfold set_delete. rewrite list_elem_of_filter. tauto. Qed.

Lemma elem_of_set_delete_inv g h s : g ∈ set_delete h s → g ∈ s.
Proof. unfold set_delete. rewrite list_elem_of_filter. tauto. Qed.

Lemma elem_of_set_add g h s : g ∈ set_add h s ↔ g = h ∨ g ∈ s.
Proof.
  unfold set_add. case_decide.
  - split; [tauto|]. intros [->|]; done.
  - rewrite elem_of_app, list_elem_of_singleton. tauto.
Qed.

(** Unsubscribing establishes [unregistered]. *)
Lemma unsubscribe_unregistered s eventType b :
  sub_eventType s = Some eventType →
  unregistered eventType (sub_handler s) (unsubscribe s b).
Proof.
  intros Hs. unfold unregistered, unsubscribe. rewrite Hs. simpl.
  rewrite lookup_alter_eq.
  destruct (handlers b !! eventType) as [hs|]; simpl.
  - apply not_elem_of_set_delete.
  - apply not_elem_of_nil.
Qed.

(** Every operation but a subscription of [g] to [eventType] keeps it. *)
Lemma apply_op_unregistered eventType g o b :
  o ≠ OpSubscribe eventType g →
  unregistered eventType g b → unregistered eventType g (apply_op o b).
Proof.
  intros Ho Hb. unfold unregistered in *.
  destruct o as [ty h|h|s|]; simpl.
  - destruct (decide (ty = eventType)) as [->|Hne].
    + rewrite lookup_insert_eq. simpl. rewrite elem_of_set_add.
      intros [->|?]; [by apply Ho | done].
    + by rewrite lookup_insert_ne.
  - done.
  - unfold unsubscribe. destruct (sub_eventType s) as [ty|]; simpl; [|done].
    destruct (decide (ty = eventType)) as [->|Hne].
    + rewrite lookup_alter_eq.
      destruct (handlers b !! eventType) as [hs|]; simpl in *; [|done].
      intros Hin. apply elem_of_set_delete_inv in Hin. by apply Hb.
    + by rewrite lookup_alter_ne.
  - rewrite lookup_empty. apply not_elem_of_nil.
Qed.

Lemma apply_ops_unregistered eventType g os b :
  OpSubscribe eventType g ∉ os →
  unregistered eventType g b → unregistered eventType g (apply_ops os b).
Proof.
  unfold apply_ops. revert b. induction os as [|o os IH]; intros b Hos Hb; simpl.
  - done.
  - apply IH.
    + intros Hin. apply Hos. by right.
    + apply apply_op_unregistered; [|done].
      intros ->. apply Hos. by left.
Qed.

(** A list of operations that unsubscribes [s] and never subscribes its
    handler again leaves the handler unregistered. *)
Lemma apply_ops_unsubscribes s eventType os b :
  sub_eventType s = Some eventType →
  OpUnsubscribe s ∈ os →
  OpSubscribe eventType (sub_handler s) ∉ os →
  unregistered eventType (sub_handler s) (apply_ops os b).
Proof.
  intros Hs. unfold apply_ops. revert b.
  induction os as [|o os IH]; intros b Hin Hno; simpl.
  - by apply elem_of_nil in Hin.
  - apply elem_of_cons in Hin as [<-|Hin].
    + apply (apply_ops_unregistered _ _ os).
      * intros H. apply Hno. by right.
      * by apply unsubscribe_unregistered.
    + apply IH; [done|]. intros H. apply Hno. by right.
Qed.

Lemma apply_ops_not_wildcard g os b :
  OpSubscribeAll g ∉ os →
  not_wildcard g b → not_wildcard g (apply_ops os b).
Proof.
  unfold apply_ops, not_wildcard. revert b.
  induction os as [|o os IH]; intros b Hos Hb; simpl.
  - done.
  - apply IH.
    + intros Hin. apply Hos. by right.
    + destruct o as [ty h|h|s|]; simpl.
      * done.
      * rewrite elem_of_set_add. intros [->|?]; [|done].
        apply Hos. by left.
      * unfold unsubscribe. destruct (sub_eventType s); simpl; [done|].
        intros Hin. apply elem_of_set_delete_inv in Hin. by apply Hb.
      * apply not_elem_of_nil.
Qed.

(** If one of the handlers called for [event] unsubscribes [s], and no
    handler subscribes the handler of [s] again while [event] is handled,
    that handler is unregistered when the emission is over. *)
Lemma for_each_guarded_unsubscribes s eventType event hs h w :
  sub_eventType s = Some eventType →
  h ∈ hs →
  (∀ n, OpUnsubscribe s ∈ effects (behave n h event)) →
  (∀ n h', OpSubscribe eventType (sub_handler s)
             ∉ effects (behave n h' event)) →
  unregistered eventType (sub_handler s)
    (bus (exec (for_each (guarded event) hs) w)).
Proof.
  intros Hs Hin Hun Hno. revert w.
  induction hs as [|h0 hs IH]; intros w; simpl.
  - by apply elem_of_nil in Hin.
  - destruct (guarded_spec event h0 w) as [c Hc].
    unfold exec. rewrite (bind_returned _ _ _ _ _ Hc).
    apply elem_of_cons in Hin as [<-|Hin].
    + apply (for_each_guarded_bus (unregistered eventType (sub_handler s))).
      * intros n h' b. apply apply_ops_unregistered, Hno.
      * simpl. by apply apply_ops_unsubscribes.
    + by apply IH.
Qed.

Lemma calls_of_app h (xs ys : list (EventHandler * AgentEvent T)) :
  calls_of h (xs ++ ys) = (calls_of h xs + calls_of h ys)%nat.
Proof. unfold calls_of. by rewrite filter_app, length_app. Qed.

Lemma calls_of_recipients h (event : AgentEvent T) (hs : list EventHandler) :
  calls_of h ((fun h => (h, event)) <$> hs)
  = length (filter (fun x => x = h) hs).
Proof.
  unfold calls_of. induction hs as [|x hs IH]; [done|].
  rewrite fmap_cons, !filter_cons. simpl.
  destruct (decide (x = h)); simpl; by rewrite IH.
Qed.

Lemma filter_eq_absent (h : EventHandler) (hs : list EventHandler) :
  h ∉ hs → filter (fun x => x = h) hs = [].
Proof.
  induction hs as [|x hs IH]; [done|].
  rewrite not_elem_of_cons. intros [Hne Hnin].
  rewrite filter_cons. destruct (decide (x = h)); [congruence | by apply IH].
Qed.

Lemma filter_eq_NoDup (h : EventHandler) (hs : list EventHandler) :
  NoDup hs → h ∈ hs → filter (fun x => x = h) hs = [h].
Proof.
  induction hs as [|x hs IH]; intros Hnd Hin.
  - by apply elem_of_nil in Hin.
  - apply NoDup_cons in Hnd as [Hx Hnd]. rewrite filter_cons.
    destruct (decide (x = h)) as [->|Hne].
    + by rewrite filter_eq_absent.
    + apply elem_of_cons in Hin as [->|Hin]; [done | by apply IH].
Qed.

Lemma NoDup_set_add h s : NoDup s → NoDup (set_add h s).
Proof.
  intros Hs. unfold set_add. case_decide; [done|].
  apply NoDup_app. split_and!; [done | | apply NoDup_singleton].
  intros x Hx. rewrite list_elem_of_singleton. by intros ->.
Qed.

Lemma set_add_idem h s : set_add h (set_add h s) = set_add h s.
Proof.
  unfold set_add at 1. rewrite decide_True; [done|].
  apply elem_of_set_add. by left.
Qed.

Lemma NoDup_set_delete h s : NoDup s → NoDup (set_delete h s).
Proof. apply NoDup_filter. Qed.

(** The sets of the bus stay duplicate-free under every operation. *)
Lemma wf_apply_op o b : wf b → wf (apply_op o b).
Proof.
  intros [Hwild Hsets]. destruct o as [ty h|h|s|]; simpl.
  - split; [done|]. intros ty' hs. simpl.
    destruct (decide (ty = ty')) as [->|Hne].
    + rewrite lookup_insert_eq. intros [= <-]. apply NoDup_set_add.
      destruct (handlers b !! ty') as [hs'|] eqn:Hl; simpl.
      * by apply (Hsets ty').
      * apply NoDup_nil_2.
    + rewrite lookup_insert_ne by done. apply Hsets.
  - split; [by apply NoDup_set_add | done].
  - unfold unsubscribe. destruct (sub_eventType s) as [ty|]; simpl.
    + split; [done|]. intros ty' hs. simpl.
      destruct (decide (ty = ty')) as [->|Hne].
      * rewrite lookup_alter_eq.
        destruct (handlers b !! ty') as [hs'|] eqn:Hl; simpl; [|done].
        intros [= <-]. apply NoDup_set_delete. by apply (Hsets ty').
      * rewrite lookup_alter_ne by done. apply Hsets.
    + split; [by apply NoDup_set_delete | done].
  - split; [apply NoDup_nil_2|]. intros ty hs. simpl.
    by rewrite lookup_empty.
Qed.

Lemma wf_apply_ops os b : wf b → wf (apply_ops os b).
Proof.
  unfold apply_ops. revert b. induction os as [|o os IH]; intros b Hb; simpl.
  - done.
  - by apply IH, wf_apply_op.
Qed.

Lemma emit_keeps_bus (I : EventBus → Prop) event w :
  (∀ n h b, I b → I (apply_ops (effects (behave n h event)) b)) →
  I (bus w) → I (bus (exec (emit event) w)).
Proof.
  intros Hkeep Hw.
  exact (for_each_guarded_bus I event (recipients event (bus w)) w Hkeep Hw).
Qed.

Lemma emit_keeps_wf event w : wf (bus w) → wf (bus (exec (emit event) w)).
Proof.
  apply (emit_keeps_bus wf). intros n h b. apply wf_apply_ops.
Qed.

(** An emission does not call a handler that is registered neither for
    the event's type nor as a wildcard handler. *)
Lemma emit_skips_unregistered g event w :
  unregistered (ev_type event) g (bus w) →
  not_wildcard g (bus w) →
  calls_of g (invoked (exec (emit event) w)) = calls_of g (invoked w).
Proof.
  intros Hun Hnw. destruct (emit_spec event w) as (w' & Hw' & Hinv).
  unfold exec. rewrite Hw'. simpl. rewrite Hinv, calls_of_app.
  rewrite calls_of_recipients. unfold EventBus.allHandlers.
  rewrite filter_app, !filter_eq_absent by done. simpl. lia.
Qed.

(** A handler that no handler ever subscribes stays away from every
    later emission of the type it is unregistered for. *)
Lemma emissions_skip_unregistered eventType g (later : list (AgentEvent T)) w :
  (∀ n h e, OpSubscribe eventType g ∉ effects (behave n h e)) →
  (∀ n h e, OpSubscribeAll g ∉ effects (behave n h e)) →
  Forall (fun e => ev_type e = eventType) later →
  unregistered eventType g (bus w) →
  not_wildcard g (bus w) →
  calls_of g (invoked (exec (for_each emit later) w)) = calls_of g (invoked w).
Proof.
  intros Hsub Hall Hty. revert w.
  induction Hty as [|e later He _ IH]; intros w Hun Hnw; simpl.
  - done.
  - destruct (emit_spec e w) as (w' & Hw' & _).
    unfold exec. rewrite (bind_returned _ _ _ _ _ Hw').
    assert (w' = exec (emit e) w) as -> by (unfold exec; by rewrite Hw').
    fold (exec (for_each emit later) (exec (emit e) w)).
    rewrite IH.
    + apply emit_skips_unregistered; [by rewrite He | done].
    + apply (emit_keeps_bus (unregistered eventType g)); [|done].
      intros n h b. apply apply_ops_unregistered, Hsub.
    + apply (emit_keeps_bus (not_wildcard g)); [|done].
      intros n h b. apply apply_ops_not_wildcard, Hall.
Qed.

Lemma unsubscribe_not_wildcard s b :
  sub_eventType s = None → not_wildcard (sub_handler s) (unsubscribe s b).
Proof.
  intros Hs. unfold not_wildcard, unsubscribe. rewrite Hs. simpl.
  apply not_elem_of_set_delete.
Qed.

(** A list of operations that unsubscribes the wildcard subscription [s]
    and never subscribes its handler to all events again leaves the
    handler out of the wildcard set. *)
Lemma apply_ops_unsubscribes_all s os b :
  sub_eventType s = None →
  OpUnsubscribe s ∈ os →
  OpSubscribeAll (sub_handler s) ∉ os →
  not_wildcard (sub_handler s) (apply_ops os b).
Proof.
  intros Hs. unfold apply_ops. revert b.
  induction os as [|o os IH]; intros b Hin Hno; simpl.
  - by apply elem_of_nil in Hin.
  - apply elem_of_cons in Hin as [<-|Hin].
    + apply (apply_ops_not_wildcard _ os).
      * intros H. apply Hno. by right.
      * by apply unsubscribe_not_wildcard.
    + apply IH; [done|]. intros H. apply Hno. by right.
Qed.

Lemma for_each_guarded_unsubscribes_all s event hs h w :
  sub_eventType s = None →
  h ∈ hs →
  (∀ n, OpUnsubscribe s ∈ effects (behave n h event)) →
  (∀ n h', OpSubscribeAll (sub_handler s) ∉ effects (behave n h' event)) →
  not_wildcard (sub_handler s) (bus (exec (for_each (guarded event) hs) w)).
Proof.
  intros Hs Hin Hun Hno. revert w.
  induction hs as [|h0 hs IH]; intros w; simpl.
  - by apply elem_of_nil in Hin.
  - destruct (guarded_spec event h0 w) as [c Hc].
    unfold exec. rewrite (bind_returned _ _ _ _ _ Hc).
    apply elem_of_cons in Hin as [<-|Hin].
    + apply (for_each_guarded_bus (not_wildcard (sub_handler s))).
      * intros n h' b. apply apply_ops_not_wildcard, Hno.
      * simpl. by apply apply_ops_unsubscribes_all.
    + by apply IH.
Qed.

(** A handler that no handler ever subscribes stays away from the later
    emissions of every type it is not registered for. *)
Lemma emissions_skip_absent g (later : list (AgentEvent T)) : ∀ w,
  (∀ n h e ty, OpSubscribe ty g ∉ effects (behave n h e)) →
  (∀ n h e, OpSubscribeAll g ∉ effects (behave n h e)) →
  Forall (fun e => unregistered (ev_type e) g (bus w)) later →
  not_wildcard g (bus w) →
  calls_of g (invoked (exec (for_each emit later) w)) = calls_of g (invoked w).
Proof.
  induction later as [|e later IH]; intros w Hsub Hall Hty Hnw; simpl.
  - done.
  - apply Forall_cons in Hty as [He Hty].
    destruct (emit_spec e w) as (w' & Hw' & _).
    unfold exec. rewrite (bind_returned _ _ _ _ _ Hw').
    assert (w' = exec (emit e) w) as -> by (unfold exec; by rewrite Hw').
    fold (exec (for_each emit later) (exec (emit e) w)).
    rewrite IH; [by apply emit_skips_unregistered|done|done| |].
    + eapply Forall_impl; [exact Hty|]. intros e' He'. simpl.
      apply (emit_keeps_bus (unregistered (ev_type e') g)); [|done].
      intros n h b. apply apply_ops_unregistered, Hsub.
    + apply (emit_keeps_bus (not_wildcard g)); [|done].
      intros n h b. apply apply_ops_not_wildcard, Hall.
Qed.

(** C9. [emit] calls every handler registered for the event's type and
    every wildcard handler, whatever each of them does: a handler that
    throws or rejects is caught, the others are still called, and [emit]
    itself returns.  A handler that is unsubscribed while an event is
    being handled does not make the emission fail, and later emissions
    do not call it: those of the type when the subscription was for a
    type, and those of every type that the handler is not registered
    for when the subscription was for all events. *)
Theorem emit_isolates_handler_failures (event : AgentEvent T) (w : World) :
  eval (emit event) w = Returned tt ∧
  invoked (exec (emit event) w) =
    invoked w ++
      ((fun h => (h, event)) <$>
         (default [] (handlers (bus w) !! ev_type event)
          ++ wildcardHandlers (bus w))) ∧
  (∀ (s : Subscription) (eventType : string) (h : EventHandler),
    sub_eventType s = Some eventType →
    h ∈ default [] (handlers (bus w) !! ev_type event)
          ++ wildcardHandlers (bus w) →
    (∀ n, OpUnsubscribe s ∈ effects (behave n h event)) →
    (∀ n h' e, OpSubscribe eventType (sub_handler s)
                 ∉ effects (behave n h' e)) →
    (∀ n h' e, OpSubscribeAll (sub_handler s) ∉ effects (behave n h' e)) →
    sub_handler s ∉ wildcardHandlers (bus w) →
    ∀ later : list (AgentEvent T),
      Forall (fun e => ev_type e = eventType) later →
      eval (for_each emit later) (exec (emit event) w) = Returned tt ∧
      calls_of (sub_handler s)
        (invoked (exec (for_each emit later) (exec (emit event) w)))
      = calls_of (sub_handler s) (invoked (exec (emit event) w))) ∧
  (∀ (s : Subscription) (h : EventHandler),
    sub_eventType s = None →
    h ∈ default [] (handlers (bus w) !! ev_type event)
          ++ wildcardHandlers (bus w) →
    (∀ n, OpUnsubscribe s ∈ effects (behave n h event)) →
    (∀ n h' e ty, OpSubscribe ty (sub_handler s)
                    ∉ effects (behave n h' e)) →
    (∀ n h' e, OpSubscribeAll (sub_handler s) ∉ effects (behave n h' e)) →
    ∀ later : list (AgentEvent T),
      Forall (fun e => sub_handler s
                         ∉ default [] (handlers (bus w) !! ev_type e)) later →
      eval (for_each emit later) (exec (emit event) w) = Returned tt ∧
      calls_of (sub_handler s)
        (invoked (exec (for_each emit later) (exec (emit event) w)))
      = calls_of (sub_handler s) (invoked (exec (emit event) w))).
Proof.
  destruct (emit_spec event w) as (w' & Hw' & Hinv).
  split_and!.
  - unfold eval. by rewrite Hw'.
  - unfold exec. by rewrite Hw'.
  - intros s eventType h Hs Hin Hun Hsub Hall Hnw later Hty. split.
    + assert (returns (for_each emit later)) as Hret.
      { apply returns_for_each. intros e w0.
        destruct (emit_spec e w0) as (w1 & Hw1 & _).
        exists tt. unfold eval. by rewrite Hw1. }
      destruct (Hret (exec (emit event) w)) as [[] Ha]. done.
    + apply (emissions_skip_unregistered eventType); [done..| |].
      * exact (for_each_guarded_unsubscribes s eventType event
                 (recipients event (bus w)) h w Hs Hin Hun
                 (fun n h' => Hsub n h' event)).
      * apply (emit_keeps_bus (not_wildcard (sub_handler s))); [|done].
        intros n h' b. apply apply_ops_not_wildcard, Hall.
  - intros s h Hs Hin Hun Hsub Hall later Hty. split.
    + assert (returns (for_each emit later)) as Hret.
      { apply returns_for_each. intros e w0.
        destruct (emit_spec e w0) as (w1 & Hw1 & _).
        exists tt. unfold eval. by rewrite Hw1. }
      destruct (Hret (exec (emit event) w)) as [[] Ha]. done.
    + apply emissions_skip_absent; [done..| |].
      * eapply Forall_impl; [exact Hty|]. intros e He. simpl.
        apply (emit_keeps_bus (unregistered (ev_type e) (sub_handler s)));
          [|done].
        intros n h' b. apply apply_ops_unregistered, Hsub.
      * exact (for_each_guarded_unsubscribes_all s event
                 (recipients event (bus w)) h w Hs Hin Hun
                 (fun n h' => Hall n h' event)).
Qed.

(** C10. The registrations of an event type are a set of handler
    functions.  Subscribing a handler twice for a type leaves one
    registration, so an emission of that type calls the handler once;
    unsubscribing either of the two subscriptions removes the handler,
    and an emission of that type then does not call it. *)
Theorem subscribe_twice_registers_once
    (b : EventBus) (eventType : string) (h : EventHandler) :
  wf b →
  not_wildcard h b →
  let first := subscribe eventType h b in
  let second := subscribe eventType h first.2 in
  handlers second.2 !! eventType = handlers first.2 !! eventType ∧
  length (filter (fun x => x = h)
            (default [] (handlers second.2 !! eventType))) = 1%nat ∧
  (∀ (event : AgentEvent T) (w : World),
     ev_type event = eventType → bus w = second.2 →
     calls_of h (invoked (exec (emit event) w))
     = S (calls_of h (invoked w))) ∧
  (∀ (s : Subscription) (event : AgentEvent T) (w : World),
     s = first.1 ∨ s = second.1 →
     ev_type event = eventType → bus w = unsubscribe s second.2 →
     calls_of h (invoked (exec (emit event) w)) = calls_of h (invoked w)).
Proof.
  intros [Hwild Hsets] Hnw. simpl.
  set (existing := default [] (handlers b !! eventType)).
  assert (NoDup existing) as Hnd.
  { unfold existing. destruct (handlers b !! eventType) as [hs|] eqn:Hl.
    - by apply (Hsets eventType).
    - apply NoDup_nil_2. }
  rewrite !lookup_insert_eq. simpl. rewrite set_add_idem.
  assert (filter (fun x => x = h) (set_add h existing) = [h]) as Hone.
  { apply filter_eq_NoDup; [by apply NoDup_set_add|].
    apply elem_of_set_add. by left. }
  split_and!.
  - done.
  - by rewrite Hone.
  - intros event w Hty Hbus.
    destruct (emit_spec event w) as (w' & Hw' & Hinv).
    unfold exec. rewrite Hw'. simpl. rewrite Hinv, calls_of_app.
    rewrite calls_of_recipients. unfold EventBus.allHandlers.
    rewrite Hbus, Hty. simpl. rewrite lookup_insert_eq. simpl.
    rewrite filter_app, Hone, filter_eq_absent by done.
    simpl. lia.
  - intros s event w Hs Hty Hbus.
    apply emit_skips_unregistered.
    + rewrite Hbus, Hty.
      assert (sub_eventType s = Some eventType ∧ sub_handler s = h) as [H1 H2].
      { by destruct Hs as [->| ->]. }
      rewrite <- H2. by apply unsubscribe_unregistered.
    + rewrite Hbus. unfold not_wildcard, unsubscribe.
      assert (sub_eventType s = Some eventType) as ->.
      { by destruct Hs as [->| ->]. }
      done.
Qed.
End BusFacts.

(** ** The execution engine *)

Section AgentFacts.
Import Agent.
Context {T : Type}.
Variable execute : nat → AgentContext → Work T.
Variable awaitMs : Action T → Z.

Local Abbreviation World := (Agent.World T).
Local Abbreviation M := (Js.M World JsValue).
Local Abbreviation retry_loop := (Agent.retry_loop execute awaitMs).
Local Abbreviation executeWithRetry := (Agent.executeWithRetry execute awaitMs).
Local Abbreviation tick := (Agent.tick execute awaitMs).
Local Abbreviation start := (Agent.start execute awaitMs).
Local Abbreviation stop := (Agent.stop awaitMs).
Local Abbreviation pause := (Agent.pause awaitMs).
Local Abbreviation resume := (Agent.resume awaitMs).
Local Abbreviation call := (Agent.call execute awaitMs).
Local Abbreviation emit_event := (Agent.emit_event awaitMs).
Local Abbreviation hook := (Agent.hook awaitMs).

(** *** One attempt of the retry loop *)

Ltac run_step :=
  cbn -[Agent.retry_loop Z.add Z.mul Z.sub Z.ltb Z.leb Z.max race Z.to_nat].

Lemma retry_loop_failure fuel attempt startTime last (w : World) reason d :
  attempt < maxRetries (config (self w)) →
  race (timeoutMs (config (self w)))
    (execute (executions (rt w)) (context (self w))) = (inr reason, d) →
  retry_loop (S fuel) attempt startTime last w
  = retry_loop fuel (attempt + 1) startTime (Some (to_Error reason))
      (after_failure attempt reason d w).
Proof.
  intros Hlt Hrace. apply Z.ltb_lt in Hlt. simpl.
  unfold bind at 1, this at 1, gets at 1. rewrite Hlt.
  unfold bind at 1, try_catch, bind at 1, call_execute. run_step.
  unfold bind at 1, withTimeout. run_step. rewrite Hrace. run_step.
  unfold after_failure.
  destruct (attempt <? maxRetries (config (self w)) - 1); run_step;
    by rewrite <- ?app_assoc.
Qed.

Lemma retry_loop_success fuel attempt startTime last (w : World) data d :
  attempt < maxRetries (config (self w)) →
  race (timeoutMs (config (self w)))
    (execute (executions (rt w)) (context (self w))) = (inl data, d) →
  retry_loop (S fuel) attempt startTime last w
  = (Returned (inl (success_result awaitMs data d startTime w)),
     after_success awaitMs attempt data d startTime w).
Proof.
  intros Hlt Hrace. apply Z.ltb_lt in Hlt. simpl.
  unfold bind at 1, this at 1, gets at 1. rewrite Hlt.
  unfold bind at 1, try_catch, bind at 1, call_execute. run_step.
  unfold bind at 1, withTimeout. run_step. rewrite Hrace. run_step.
  unfold after_success, success_result, completed. run_step.
  by rewrite <- ?app_assoc.
Qed.

Lemma retry_loop_exit fuel attempt startTime last (w : World) :
  maxRetries (config (self w)) ≤ attempt →
  retry_loop fuel attempt startTime last w = (Returned (inr last), w).
Proof.
  intros Hge. destruct fuel; [done|]. simpl.
  unfold bind at 1, this at 1, gets at 1.
  by rewrite (proj2 (Z.ltb_ge _ _) Hge).
Qed.

Lemma schedule_app (tr tr' : list (Action T)) :
  schedule (tr ++ tr') = schedule tr ++ schedule tr'.
Proof. apply omap_app. Qed.

Lemma race_cases limit (p : Work T) :
  (∃ data d, race limit p = (inl data, d)) ∨
  (∃ reason d, race limit p = (inr reason, d)).
Proof.
  destruct (race limit p) as [[data|reason] d]; [left|right]; eauto.
Qed.


(** What the retry loop does, for the number [fuel] of attempts that are
    left: it makes [k] of them, follows the backoff schedule, and either
    returns the result of a successful last attempt or has used all its
    attempts and leaves the error of the last one. *)
Lemma retry_loop_spec fuel : ∀ attempt startTime last (w : World),
  Z.of_nat fuel = Z.max 0 (maxRetries (config (self w)) - attempt) →
  ∃ (k : nat) c w',
    retry_loop fuel attempt startTime last w = (Returned c, w') ∧
    (k ≤ fuel)%nat ∧
    (fuel ≠ 0%nat → k ≠ 0%nat) ∧
    (∃ tr, trace (rt w') = trace (rt w) ++ tr) ∧
    schedule (trace (rt w')) =
      schedule (trace (rt w))
      ++ backoff (retryDelayMs (config (self w))) attempt k ∧
    match c with
    | inl result =>
        success result = true ∧
        k ≠ 0%nat ∧
        ∃ ctx data d,
          race (timeoutMs (config (self w)))
            (execute (executions (rt w) + k - 1)%nat ctx) = (inl data, d)
    | inr last' =>
        k = fuel ∧
        (fuel = 0%nat → last' = last ∧ w' = w) ∧
        (fuel ≠ 0%nat →
         lastError (context (self w')) = last' ∧
         ∃ ctx reason d,
           race (timeoutMs (config (self w)))
             (execute (executions (rt w) + fuel - 1)%nat ctx)
           = (inr reason, d) ∧
           last' = Some (to_Error reason))
    end.
Proof.
  induction fuel as [|fuel IH]; intros attempt startTime last w Hfuel.
  - exists 0%nat, (inr last), w. simpl.
    split_and!; try done; [exists [] |]; by rewrite app_nil_r.
  - assert (attempt < maxRetries (config (self w))) as Hlt by lia.
    destruct (race_cases (timeoutMs (config (self w)))
                (execute (executions (rt w)) (context (self w))))
      as [(data & d & Hrace)|(reason & d & Hrace)].
    + exists 1%nat. eexists _, _.
      split; [by apply retry_loop_success|].
      split_and!; [lia | done | by eexists | | done | done |].
      * simpl. by rewrite schedule_app.
      * exists (context (self w)), data, d.
        by replace (executions (rt w) + 1 - 1)%nat with (executions (rt w)) by lia.
    + rewrite (retry_loop_failure _ _ _ _ _ _ _ Hlt Hrace).
      destruct (IH (attempt + 1) startTime (Some (to_Error reason))
                  (after_failure attempt reason d w))
        as (k & c & w' & Hrun & Hk & Hk0 & [tr Htr] & Hsched & Hc).
      { simpl. lia. }
      exists (S k), c, w'. split; [done|].
      split_and!; [lia | done | | |].
      * rewrite Htr. simpl. rewrite <- app_assoc. by eexists.
      * rewrite Hsched. simpl. rewrite schedule_app, <- app_assoc. f_equal.
        destruct (decide (fuel = 0%nat)) as [->|Hne].
        -- assert (k = 0%nat) as -> by lia.
           rewrite (proj2 (Z.ltb_ge _ _)) by lia. simpl. done.
        -- rewrite (proj2 (Z.ltb_lt _ _)) by lia. simpl.
           destruct k as [|k]; [by destruct Hk0|]. done.
      * destruct c as [result|last'].
        -- destruct Hc as (Hok & Hkpos & ctx & data & d' & Hr).
           split; [done|]. split; [done|]. exists ctx, data, d'. simpl in Hr.
           destruct k as [|k]; [done|].
           replace (executions (rt w) + S (S k) - 1)%nat
             with (S (executions (rt w)) + S k - 1)%nat by lia. done.
        -- destruct Hc as (-> & H0 & Hpos). split; [done|].
           split; [done|]. intros _.
           destruct (decide (fuel = 0%nat)) as [->|Hne].
           ++ destruct (H0 eq_refl) as [-> ->]. split; [done|].
              exists (context (self w)), reason, d. split; [|done].
              by replace (executions (rt w) + 1 - 1)%nat
                with (executions (rt w)) by lia.
           ++ destruct (Hpos Hne) as (Hle & ctx & reason' & d' & Hr & ->).
              split; [done|]. exists ctx, reason', d'. split; [|done].
              simpl in Hr.
              replace (executions (rt w) + S fuel - 1)%nat
                with (S (executions (rt w)) + fuel - 1)%nat by lia. done.
Qed.

(** *** What the engine leaves alone *)

Lemma retry_safe_rt_blind (I : World → Prop) : retry_safe I → rt_blind I.
Proof. by intros (H & _ & _). Qed.

Ltac keeps_rt H :=
  repeat first
    [ apply keeps_ret | apply keeps_throw | apply keeps_get
    | apply keeps_gets
    | apply keeps_bind; [|intros ?]
    | apply keeps_modify; intros [? ?] ?; simpl; by eapply H
    | match goal with
      | |- keeps _ (if ?b then _ else _) => destruct b
      | |- keeps _ (match ?x with _ => _ end) => destruct x
      end ].

Lemma keeps_advance (I : World → Prop) ms : rt_blind I → keeps I (advance (T:=T) ms).
Proof. intros H. unfold advance. keeps_rt H. Qed.

Lemma keeps_record (I : World → Prop) a : rt_blind I → keeps I (record (T:=T) a).
Proof. intros H. unfold record. keeps_rt H. Qed.

Lemma keeps_perform (I : World → Prop) a : rt_blind I → keeps I (perform awaitMs a).
Proof.
  intros H. unfold perform. apply keeps_bind; [by apply keeps_record|].
  intros _. by apply keeps_advance.
Qed.

Lemma keeps_emit (I : World → Prop) type payload : rt_blind I → keeps I (emit_event type payload).
Proof.
  intros H. unfold Agent.emit_event, this, Date_now.
  apply keeps_bind; [apply keeps_gets|]. intros a.
  apply keeps_bind; [apply keeps_gets|]. intros t. by apply keeps_perform.
Qed.

Lemma keeps_hook (I : World → Prop) h : rt_blind I → keeps I (hook h).
Proof. intros H. by apply keeps_perform. Qed.

Lemma keeps_delay (I : World → Prop) ms : rt_blind I → keeps I (delay (T:=T) ms).
Proof.
  intros H. unfold delay. apply keeps_bind; [by apply keeps_record|].
  intros _. by apply keeps_advance.
Qed.

Lemma keeps_setInterval (I : World → Prop) ms : rt_blind I → keeps I (setInterval (T:=T) ms).
Proof.
  intros H. unfold setInterval.
  apply keeps_bind; [apply keeps_get|]. intros w.
  apply keeps_bind; [by apply keeps_record|]. intros _. keeps_rt H.
Qed.

Lemma keeps_clearInterval (I : World → Prop) timer :
  rt_blind I → keeps I (clearInterval (T:=T) timer).
Proof.
  intros H. unfold clearInterval.
  apply keeps_bind; [by apply keeps_record|]. intros _. keeps_rt H.
Qed.

Lemma keeps_call_execute (I : World → Prop) attempt :
  rt_blind I → keeps I (call_execute execute attempt).
Proof.
  intros H. unfold call_execute, this.
  apply keeps_bind; [apply keeps_gets|]. intros a.
  apply keeps_bind; [apply keeps_get|]. intros w.
  apply keeps_bind; [by apply keeps_record|]. intros _. keeps_rt H.
Qed.

Lemma keeps_withTimeout (I : World → Prop) promise :
  rt_blind I → keeps I (withTimeout (T:=T) promise).
Proof.
  intros H. unfold withTimeout, this.
  apply keeps_bind; [apply keeps_gets|]. intros a.
  apply keeps_bind; [by apply keeps_advance|]. intros _.
  destruct (race _ _).1; [apply keeps_ret | apply keeps_throw].
Qed.

Lemma keeps_update (I : World → Prop) (f : BaseAgent → BaseAgent) :
  (∀ a r, I {| self := a; rt := r |} → I {| self := f a; rt := r |}) →
  keeps I (update (T:=T) f).
Proof. intros H. apply keeps_modify. intros [a r] Hw. by apply H. Qed.

(** The loop itself writes to the runtime and to [context.lastError]
    only. *)
Lemma keeps_retry_loop_status (I : World → Prop) fuel attempt startTime last :
  rt_blind I →
  (∀ a r e, I {| self := a; rt := r |} →
            I {| self := set_context (set_lastError e (context a)) a;
                 rt := r |}) →
  keeps I (retry_loop fuel attempt startTime last).
Proof.
  intros Hrt Herr.
  revert attempt last. induction fuel as [|fuel IH]; intros attempt last; simpl.
  - apply keeps_ret.
  - apply keeps_bind; [apply keeps_gets|]. intros a.
    destruct (attempt <? maxRetries (config a)); [|apply keeps_ret].
    apply keeps_bind.
    + apply keeps_try_catch.
      * apply keeps_bind; [by apply keeps_call_execute|]. intros p.
        apply keeps_bind; [by apply keeps_withTimeout|]. intros data.
        apply keeps_bind; [apply keeps_gets|]. intros t.
        apply keeps_bind; [by apply keeps_emit|]. intros _.
        apply keeps_bind; [apply keeps_gets|]. intros t'. apply keeps_ret.
      * intros e.
        apply keeps_bind; [apply keeps_update; intros; apply Herr; done|].
        intros _. apply keeps_bind; [apply keeps_gets|]. intros a'.
        apply keeps_bind; [|intros _; apply keeps_ret].
        destruct (attempt <? _); [by apply keeps_delay | apply keeps_ret].
    + intros [result|e]; [apply keeps_ret | apply IH].
Qed.

Lemma keeps_retry_loop (I : World → Prop) fuel attempt startTime last :
  retry_safe I → keeps I (retry_loop fuel attempt startTime last).
Proof.
  intros (Hrt & _ & Herr). by apply keeps_retry_loop_status.
Qed.

Lemma keeps_executeWithRetry (I : World → Prop) : retry_safe I → keeps I executeWithRetry.
Proof.
  intros HI. pose proof (retry_safe_rt_blind I HI) as Hrt.
  unfold Agent.executeWithRetry.
  apply keeps_bind; [apply keeps_gets|]. intros startTime.
  apply keeps_bind; [apply keeps_gets|]. intros a.
  apply keeps_bind; [by apply keeps_emit|]. intros _.
  apply keeps_bind; [apply keeps_gets|]. intros a'.
  apply keeps_bind; [by apply keeps_retry_loop|].
  intros [result|last]; [apply keeps_ret|].
  apply keeps_bind.
  { apply keeps_update. intros. by apply HI. }
  intros _. apply keeps_bind; [by apply keeps_hook|]. intros _.
  apply keeps_bind; [by apply keeps_emit|]. intros _.
  apply keeps_bind; [by apply keeps_emit|]. intros _.
  apply keeps_bind; [apply keeps_gets|]. intros t. apply keeps_ret.
Qed.

(** *** Nothing the engine does throws *)

Lemma returns_perform a : returns (perform awaitMs a).
Proof.
  unfold perform. apply returns_bind; [apply returns_modify|].
  intros _. apply returns_modify.
Qed.

Lemma returns_emit type payload : returns (emit_event type payload).
Proof.
  unfold Agent.emit_event. apply returns_bind; [apply returns_gets|]. intros a.
  apply returns_bind; [apply returns_gets|]. intros t. apply returns_perform.
Qed.

Lemma returns_delay ms : returns (delay (T:=T) ms).
Proof.
  unfold delay. apply returns_bind; [apply returns_modify|].
  intros _. apply returns_modify.
Qed.

Lemma returns_retry_loop fuel attempt startTime last :
  returns (retry_loop fuel attempt startTime last).
Proof.
  revert attempt last. induction fuel as [|fuel IH]; intros attempt last; simpl.
  - apply returns_ret.
  - apply returns_bind; [apply returns_gets|]. intros a.
    destruct (attempt <? maxRetries (config a)); [|apply returns_ret].
    apply returns_bind.
    + apply returns_try_catch. intros e.
      apply returns_bind; [apply returns_modify|]. intros _.
      apply returns_bind; [apply returns_gets|]. intros a'.
      apply returns_bind; [|intros _; apply returns_ret].
      destruct (attempt <? _); [apply returns_delay | apply returns_ret].
    + intros [result|e]; [apply returns_ret | apply IH].
Qed.

Lemma returns_executeWithRetry : returns executeWithRetry.
Proof.
  unfold Agent.executeWithRetry.
  apply returns_bind; [apply returns_gets|]. intros startTime.
  apply returns_bind; [apply returns_gets|]. intros a.
  apply returns_bind; [apply returns_emit|]. intros _.
  apply returns_bind; [apply returns_gets|]. intros a'.
  apply returns_bind; [apply returns_retry_loop|].
  intros [result|last]; [apply returns_ret|].
  apply returns_bind; [apply returns_modify|]. intros _.
  apply returns_bind; [apply returns_perform|]. intros _.
  apply returns_bind; [apply returns_emit|]. intros _.
  apply returns_bind; [apply returns_emit|]. intros _.
  apply returns_bind; [apply returns_gets|]. intros t. apply returns_ret.
Qed.

Lemma returns_tick : returns tick.
Proof.
  unfold Agent.tick.
  apply returns_bind; [apply returns_gets|]. intros a.
  destruct (negb (eligible a)); [apply returns_ret|].
  apply returns_bind; [apply returns_modify|]. intros _.
  apply returns_bind; [apply returns_executeWithRetry|]. intros result.
  apply returns_bind; [apply returns_gets|]. intros t.
  apply returns_bind; [apply returns_modify|]. intros _.
  apply returns_bind; [apply returns_gets|]. intros a'. apply returns_emit.
Qed.

Lemma returns_start intervalMs : returns (start intervalMs).
Proof.
  unfold Agent.start.
  apply returns_bind; [apply returns_gets|]. intros a.
  destruct (bool_decide (status a = running)); [apply returns_ret|].
  apply returns_bind; [apply returns_gets|]. intros t.
  apply returns_bind; [apply returns_modify|]. intros _.
  apply returns_bind; [apply returns_perform|]. intros _.
  apply returns_bind; [apply returns_gets|]. intros a'.
  apply returns_bind; [apply returns_emit|]. intros _.
  apply returns_bind; [|intros _; apply returns_tick].
  destruct (truthy intervalMs); [|apply returns_ret].
  apply returns_bind; [|intros timer; apply returns_modify].
  unfold setInterval.
  apply returns_bind; [apply returns_get|]. intros w.
  apply returns_bind; [apply returns_modify|]. intros _.
  apply returns_bind; [apply returns_modify|]. intros _. apply returns_ret.
Qed.

(** *** [executeWithRetry], [tick] and [start], piece by piece *)

Lemma executeWithRetry_success (w : World) result w2 :
  retry_loop (Z.to_nat (maxRetries (config (self w)))) 0 (now (rt w)) None
    (after_start awaitMs w) = (Returned (inl result), w2) →
  executeWithRetry w = (Returned result, w2).
Proof.
  intros Hloop. unfold Agent.executeWithRetry.
  unfold bind at 1, Date_now at 1, gets at 1.
  unfold bind at 1, this at 1, gets at 1.
  unfold bind at 1.
  change (Agent.emit_event awaitMs AgentEvents.EXECUTION_START
            (PIteration (iteration (context (self w)))) w)
    with (@Returned JsValue unit tt, after_start awaitMs w).
  unfold bind at 1, this at 1, gets at 1. unfold bind at 1.
  change (self (after_start awaitMs w)) with (self w).
  by rewrite Hloop.
Qed.

Lemma executeWithRetry_failure (w : World) last w2 :
  retry_loop (Z.to_nat (maxRetries (config (self w)))) 0 (now (rt w)) None
    (after_start awaitMs w) = (Returned (inr last), w2) →
  executeWithRetry w
  = (Returned (failure_result awaitMs last (now (rt w)) w2),
     after_terminal awaitMs last w2).
Proof.
  intros Hloop. unfold Agent.executeWithRetry.
  unfold bind at 1, Date_now at 1, gets at 1.
  unfold bind at 1, this at 1, gets at 1.
  unfold bind at 1.
  change (Agent.emit_event awaitMs AgentEvents.EXECUTION_START
            (PIteration (iteration (context (self w)))) w)
    with (@Returned JsValue unit tt, after_start awaitMs w).
  unfold bind at 1, this at 1, gets at 1. unfold bind at 1.
  change (self (after_start awaitMs w)) with (self w).
  rewrite Hloop. run_step.
  unfold after_terminal, failure_result, after_terminal, execution_failed,
    generic_error, error_hook. run_step.
  by rewrite <- !app_assoc.
Qed.

Lemma tick_skipped (w : World) :
  eligible (self w) = false → tick w = (Returned tt, w).
Proof.
  intros H. unfold Agent.tick, bind, this, gets. by rewrite H.
Qed.

Lemma tick_eligible (w : World) result w1 :
  eligible (self w) = true →
  executeWithRetry (next_iteration w) = (Returned result, w1) →
  tick w = (Returned tt, after_tick awaitMs result w1).
Proof.
  intros H Hrun. unfold Agent.tick.
  unfold bind at 1, this at 1, gets at 1. rewrite H.
  change (negb true) with false. cbv beta iota.
  unfold bind at 1, update at 1, modify at 1. unfold bind at 1.
  change (Agent.executeWithRetry execute awaitMs _)
    with (executeWithRetry (next_iteration w)).
  rewrite Hrun. by destruct w1.
Qed.

Lemma start_running intervalMs (w : World) :
  status (self w) = running → start intervalMs w = (Returned tt, w).
Proof.
  intros H. unfold Agent.start, bind, this, gets.
  by rewrite bool_decide_eq_true_2.
Qed.

Lemma start_not_running intervalMs (w : World) :
  status (self w) ≠ running →
  start intervalMs w = tick (after_started awaitMs intervalMs w).
Proof.
  intros H. unfold Agent.start.
  unfold bind at 1, this at 1, gets at 1.
  rewrite bool_decide_eq_false_2 by done. unfold after_started.
  destruct intervalMs as [ms|]; [destruct (decide (ms = 0)) as [->|Hne]|].
  - run_step. by rewrite <- !app_assoc, app_nil_r.
  - unfold truthy. rewrite (proj2 (Z.eqb_neq ms 0) Hne). run_step.
    by rewrite <- !app_assoc.
  - run_step. by rewrite <- !app_assoc, app_nil_r.
Qed.

(** The retry loop of a cycle, from the world [w] in which
    [executeWithRetry] is entered. *)
Lemma cycle_loop_spec (w : World) :
  ∃ (k : nat) c w2,
    retry_loop (Z.to_nat (maxRetries (config (self w)))) 0 (now (rt w)) None
      (after_start awaitMs w) = (Returned c, w2) ∧
    (k ≤ Z.to_nat (maxRetries (config (self w))))%nat ∧
    (Z.to_nat (maxRetries (config (self w))) ≠ 0%nat → k ≠ 0%nat) ∧
    config (self w2) = config (self w) ∧
    (∃ tr, trace (rt w2) = trace (rt w) ++ execution_start w :: tr) ∧
    schedule (trace (rt w2)) =
      schedule (trace (rt w)) ++ backoff (retryDelayMs (config (self w))) 0 k ∧
    match c with
    | inl result =>
        executeWithRetry w = (Returned result, w2) ∧
        success result = true ∧
        k ≠ 0%nat ∧
        ∃ ctx data d,
          race (timeoutMs (config (self w)))
            (execute (executions (rt w) + k - 1)%nat ctx) = (inl data, d)
    | inr last =>
        executeWithRetry w
        = (Returned (failure_result awaitMs last (now (rt w)) w2),
           after_terminal awaitMs last w2) ∧
        k = Z.to_nat (maxRetries (config (self w))) ∧
        (maxRetries (config (self w)) ≤ 0 → last = None) ∧
        (1 ≤ maxRetries (config (self w)) →
         lastError (context (self w2)) = last ∧
         ∃ ctx reason d,
           race (timeoutMs (config (self w)))
             (execute (executions (rt w)
                       + Z.to_nat (maxRetries (config (self w))) - 1)%nat ctx)
           = (inr reason, d) ∧
           last = Some (to_Error reason))
    end.
Proof.
  destruct (retry_loop_spec (Z.to_nat (maxRetries (config (self w)))) 0
              (now (rt w)) None (after_start awaitMs w))
    as (k & c & w2 & Hloop & Hk & Hk0 & [tr Htr] & Hsched & Hc).
  { simpl. lia. }
  exists k, c, w2. split; [done|]. split; [done|]. split; [done|].
  split; [|split].
  2:{ exists tr. rewrite Htr. simpl. by rewrite <- app_assoc. }
  { pose proof (keeps_retry_loop
      (fun w' => config (self w') = config (self w))
      (Z.to_nat (maxRetries (config (self w)))) 0 (now (rt w)) None) as Hkeep.
    specialize (Hkeep ltac:(by split_and!) (after_start awaitMs w) eq_refl).
    unfold exec in Hkeep. by rewrite Hloop in Hkeep. }
  split.
  { rewrite Hsched. simpl. by rewrite schedule_app, app_nil_r. }
  destruct c as [result|last].
  - destruct Hc as (Hok & Hrace). split; [by apply executeWithRetry_success|].
    done.
  - destruct Hc as (-> & H0 & Hpos).
    split; [by apply executeWithRetry_failure|]. split; [done|]. split.
    + intros Hle. apply H0. lia.
    + intros Hge. apply Hpos. lia.
Qed.

(** *** The attempts of a cycle, one by one *)














(** C4. When every attempt of a cycle fails, the engine sets the status
    to [error], calls the error hook and emits [EXECUTION_FAILED] and
    [ERROR], all three with the error of the last attempt, and returns a
    failure whose [executionTimeMs] is the time from the entry of the
    cycle to that point.  Neither [tick] nor [start] throws. *)
Theorem terminal_failure (w : World) :
  let cfg := config (self w) in
  let w' := exec executeWithRetry w in
  (∀ (i : nat) ctx,
     (i < Z.to_nat (maxRetries cfg))%nat →
     ∃ reason d,
       race (timeoutMs cfg) (execute (executions (rt w) + i)%nat ctx)
       = (inr reason, d)) →
  (∃ result last,
     eval executeWithRetry w = Returned result ∧
     status (self w') = error ∧
     success result = false ∧
     err result = last ∧
     executionTimeMs result = now (rt w') - now (rt w) ∧
     (∃ tr t1 t2,
        trace (rt w') =
          tr ++ [CallHook (onError last);
                 Emit (createEvent AgentEvents.EXECUTION_FAILED (id cfg)
                         (PError last) t1);
                 Emit (createEvent AgentEvents.ERROR (id cfg)
                         (PError last) t2)]) ∧
     (1 ≤ maxRetries cfg →
      lastError (context (self w')) = last ∧
      ∃ ctx reason d,
        race (timeoutMs cfg)
          (execute (executions (rt w) + Z.to_nat (maxRetries cfg) - 1)%nat ctx)
        = (inr reason, d) ∧
        last = Some (to_Error reason))) ∧
  (∀ w0 : World, eval tick w0 = Returned tt) ∧
  (∀ intervalMs (w0 : World), eval (start intervalMs) w0 = Returned tt).
Proof.
  intros cfg w' Hfail. subst cfg w'.
  split; [|split].
  - destruct (cycle_loop_spec w)
      as (k & c & w2 & Hloop & Hk & Hk0 & Hcfg & Htr & Hsched & Hc).
    destruct c as [result|last].
    + destruct Hc as (_ & _ & Hkpos & ctx & data & d & Hrace).
      destruct (Hfail (k - 1)%nat ctx) as (reason & d' & Hr); [lia|].
      replace (executions (rt w) + (k - 1))%nat
        with (executions (rt w) + k - 1)%nat in Hr by lia.
      by rewrite Hrace in Hr.
    + destruct Hc as (Hrun & _ & _ & Hpos).
      exists (failure_result awaitMs last (now (rt w)) w2), last.
      unfold eval, exec. rewrite Hrun. simpl.
      split_and!; [done.. | |].
      * eexists _, _, _. unfold error_hook, execution_failed, generic_error.
        rewrite Hcfg. reflexivity.
      * intros Hge. by apply Hpos.
  - intros w0. destruct (returns_tick w0) as [[] H]. done.
  - intros intervalMs w0. destruct (returns_start intervalMs w0) as [[] H]. done.
Qed.

(** *** The guard of [tick] *)

Lemma eligible_false (a : BaseAgent) :
  status a ≠ running ∨ enabled (config a) = false → eligible a = false.
Proof.
  unfold eligible. intros [H| ->].
  - by rewrite bool_decide_eq_false_2.
  - apply andb_false_r.
Qed.

Lemma ticks_skipped n (w : World) :
  eligible (self w) = false → Agent.ticks execute awaitMs n w = (Returned tt, w).
Proof.
  intros H. unfold Agent.ticks. induction n as [|n IH]; simpl; [done|].
  by rewrite (bind_returned _ _ _ _ _ (tick_skipped w H)).
Qed.

Lemma pause_running (w : World) :
  status (self w) = running →
  status (self (exec pause w)) = paused ∧
  config (self (exec pause w)) = config (self w) ∧
  context (self (exec pause w)) = context (self w).
Proof.
  intros H. unfold exec.
  assert (pause w
          = (update (set_status paused) ;;
             hook onPause ;; emit_event AgentEvents.PAUSED PEmpty)%js w) as ->.
  { unfold Agent.pause. unfold bind at 1, this at 1, gets at 1.
    by rewrite bool_decide_eq_true_2. }
  by run_step.
Qed.

Lemma pause_not_running (w : World) :
  status (self w) ≠ running → pause w = (Returned tt, w).
Proof.
  intros H. unfold Agent.pause, bind, this, gets.
  by rewrite bool_decide_eq_false_2.
Qed.

Lemma resume_paused (w : World) :
  status (self w) = paused →
  status (self (exec resume w)) = running ∧
  config (self (exec resume w)) = config (self w) ∧
  context (self (exec resume w)) = context (self w).
Proof.
  intros H. unfold exec.
  assert (resume w
          = (update (set_status running) ;;
             hook onResume ;; emit_event AgentEvents.RESUMED PEmpty)%js w) as ->.
  { unfold Agent.resume. unfold bind at 1, this at 1, gets at 1.
    by rewrite bool_decide_eq_true_2. }
  by run_step.
Qed.

Lemma executeWithRetry_runs (w : World) :
  ∃ result w1, executeWithRetry w = (Returned result, w1).
Proof.
  destruct (returns_executeWithRetry w) as [result H]. unfold eval in H.
  destruct (executeWithRetry w) as [c w1]. simpl in H. subst c. eauto.
Qed.

(** An eligible tick runs a cycle: the iteration number advances, and
    the first action of the cycle is [EXECUTION_START]. *)
Lemma tick_runs_cycle (w : World) :
  eligible (self w) = true →
  iteration (context (self (exec tick w)))
    = iteration (context (self w)) + 1 ∧
  ∃ tr,
    trace (rt (exec tick w)) =
      trace (rt w) ++ execution_start (next_iteration w) :: tr.
Proof.
  intros H. destruct (executeWithRetry_runs (next_iteration w))
    as (result & w1 & Hrun).
  unfold exec. rewrite (tick_eligible w result w1 H Hrun). simpl. split.
  - pose proof (keeps_executeWithRetry
      (fun w' => iteration (context (self w'))
                 = iteration (context (self w)) + 1)) as Hkeep.
    specialize (Hkeep ltac:(by split_and!) (next_iteration w) eq_refl).
    unfold exec in Hkeep. by rewrite Hrun in Hkeep.
  - destruct (cycle_loop_spec (next_iteration w))
      as (k & c & w2 & _ & _ & _ & _ & [tr Htr] & _ & Hc).
    destruct c as [res|last].
    + destruct Hc as (Hrun' & _). rewrite Hrun in Hrun'. simplify_eq.
      eexists. rewrite Htr. simpl. by rewrite <- app_assoc.
    + destruct Hc as (Hrun' & _). rewrite Hrun in Hrun'. simplify_eq.
      eexists. simpl. rewrite Htr. simpl. by rewrite <- !app_assoc.
Qed.

(** In the event loop an engine whose status is not [running] begins
    no cycle, and stays that way, through every turn but a [start] or a
    [resume]: a trigger that fires is skipped, and a pending cycle that
    settles leaves the status as it is or sets it to [error]. *)
Lemma asleep_turn (t : Scheduler.Turn T) (s : Scheduler.State) :
  status (Scheduler.engine s) ≠ running →
  Scheduler.wakes t = false →
  status (Scheduler.engine (Scheduler.turn t s)) ≠ running ∧
  iteration (context (Scheduler.engine (Scheduler.turn t s)))
    = iteration (context (Scheduler.engine s)) ∧
  (Scheduler.pending (Scheduler.turn t s) ≤ Scheduler.pending s)%nat.
Proof.
  intros Hst Hw.
  destruct t as [timer|result last t| intervalMs t| | |];
    cbn [Scheduler.turn Scheduler.wakes] in *; try done.
  - case_bool_decide; [|done]. unfold Scheduler.tick_begin.
    by rewrite (eligible_false _ (or_introl Hst)).
  - destruct (Scheduler.pending s) eqn:E; [by rewrite E|]. simpl.
    unfold Scheduler.tick_end.
    destruct (success result); simpl; split_and!; (done || lia).
  - case_bool_decide; [done|]. by simpl.
  - by rewrite bool_decide_eq_false_2.
Qed.

Lemma asleep_run (ts : list (Scheduler.Turn T)) : ∀ s : Scheduler.State,
  status (Scheduler.engine s) ≠ running →
  Forall (fun t => Scheduler.wakes t = false) ts →
  status (Scheduler.engine (Scheduler.run ts s)) ≠ running ∧
  iteration (context (Scheduler.engine (Scheduler.run ts s)))
    = iteration (context (Scheduler.engine s)) ∧
  (Scheduler.pending (Scheduler.run ts s) ≤ Scheduler.pending s)%nat.
Proof.
  unfold Scheduler.run.
  induction ts as [|t ts IH]; intros s Hst Hts; simpl; [done|].
  apply Forall_cons in Hts as [Ht Hts].
  destruct (asleep_turn t s Hst Ht) as (Hst' & Hit & Hp).
  destruct (IH _ Hst' Hts) as (H1 & H2 & H3).
  split_and!; [done | by rewrite H2 | lia].
Qed.

(** C6. A tick that finds the status different from [running], or the
    engine disabled, changes nothing: no event, no metrics update, no
    new iteration.  After [pause] any number of ticks leave the world as
    [pause] left it, and once [resume] has run the next tick runs a
    cycle.  In the event loop too: after [pause], through every sequence
    of trigger firings and settling cycles without a [start] or a
    [resume], no cycle begins and the iteration number stays. *)
Theorem ineligible_tick_is_silent (w : World) :
  (status (self w) ≠ running ∨ enabled (config (self w)) = false →
   tick w = (Returned tt, w)) ∧
  (∀ n : nat,
     exec (Agent.ticks execute awaitMs n) (exec pause w) = exec pause w) ∧
  (status (self w) = running →
   enabled (config (self w)) = true →
   ∀ n : nat,
     let w1 := exec resume (exec (Agent.ticks execute awaitMs n) (exec pause w)) in
     status (self w1) = running ∧
     iteration (context (self w1)) = iteration (context (self w)) ∧
     iteration (context (self (exec tick w1)))
       = iteration (context (self w)) + 1) ∧
  (∀ armed fresh pending (ts : list (Scheduler.Turn T)),
     Forall (fun t => Scheduler.wakes t = false) ts →
     let paused_engine :=
       Scheduler.turn (T:=T) Scheduler.DoPause
         {| Scheduler.engine := self w; Scheduler.armed := armed;
            Scheduler.fresh := fresh; Scheduler.pending := pending |} in
     iteration (context (Scheduler.engine (Scheduler.run ts paused_engine)))
       = iteration (context (self w)) ∧
     (Scheduler.pending (Scheduler.run ts paused_engine) ≤ pending)%nat).
Proof.
  assert (∀ n, exec (Agent.ticks execute awaitMs n) (exec pause w)
               = exec pause w) as Hticks.
  { intros n. unfold exec at 1. rewrite ticks_skipped; [done|].
    apply eligible_false. left.
    destruct (decide (status (self w) = running)) as [Hr|Hr].
    - destruct (pause_running w Hr) as (-> & _). done.
    - unfold exec. by rewrite pause_not_running. }
  split_and!.
  - intros H. by apply tick_skipped, eligible_false.
  - done.
  - intros Hr Hen n w1. subst w1. rewrite Hticks.
    destruct (pause_running w Hr) as (Hst & Hcfg & Hctx).
    destruct (resume_paused _ Hst) as (Hst' & Hcfg' & Hctx').
    split_and!.
    + done.
    + by rewrite Hctx', Hctx.
    + destruct (tick_runs_cycle (exec resume (exec pause w))) as [-> _].
      * unfold eligible. rewrite Hst', Hcfg', Hcfg, Hen.
        by rewrite bool_decide_eq_true_2.
      * by rewrite Hctx', Hctx.
  - intros armed fresh pending ts Hts paused_engine.
    assert (status (Scheduler.engine paused_engine) ≠ running ∧
            iteration (context (Scheduler.engine paused_engine))
              = iteration (context (self w)) ∧
            Scheduler.pending paused_engine = pending) as (Hst & Hit & Hp).
    { subst paused_engine. cbn [Scheduler.turn].
      destruct (decide (status (self w) = running)) as [Hr|Hr].
      - by rewrite bool_decide_eq_true_2.
      - by rewrite bool_decide_eq_false_2. }
    destruct (asleep_run ts paused_engine Hst Hts) as (_ & H2 & H3).
    split; [by rewrite H2 | lia].
Qed.

(** C7, as the code has it.  [start] does nothing when the status is
    [running].  Otherwise it sets the status to [running], resets
    [startTime] and [context.startedAt], calls [onStart], emits
    [STARTED], arms a periodic trigger when [intervalMs] is given and is
    not zero, and then calls [tick] at once; that tick runs a cycle when
    the engine is enabled and is skipped when it is not. *)
Theorem start_spec (intervalMs : option Z) (w : World) :
  let cfg := config (self w) in
  (status (self w) = running → start intervalMs w = (Returned tt, w)) ∧
  (status (self w) ≠ running →
   let w1 := after_started awaitMs intervalMs w in
   start intervalMs w = tick w1 ∧
   status (self w1) = running ∧
   startTime (self w1) = Some (now (rt w)) ∧
   startedAt (context (self w1)) = now (rt w) ∧
   config (self w1) = cfg ∧
   iteration (context (self w1)) = iteration (context (self w)) ∧
   (∃ t,
      trace (rt w1) =
        trace (rt w)
        ++ [CallHook onStart;
            Emit (createEvent AgentEvents.STARTED (id cfg) (PConfig cfg) t)]
        ++ match intervalMs with
           | Some ms => if ms =? 0 then []
                        else [SetInterval (nextTimer (rt w)) ms]
           | None => []
           end) ∧
   intervals (rt w1) =
     intervals (rt w)
     ++ match intervalMs with
        | Some ms => if ms =? 0 then [] else [(nextTimer (rt w), ms)]
        | None => []
        end ∧
   (enabled cfg = true →
    iteration (context (self (exec (start intervalMs) w)))
      = iteration (context (self w)) + 1 ∧
    ∃ tr,
      trace (rt (exec (start intervalMs) w)) =
        trace (rt w1) ++ execution_start (next_iteration w1) :: tr) ∧
   (enabled cfg = false → exec (start intervalMs) w = w1)).
Proof.
  intros cfg. split; [apply start_running|]. intros Hnr w1.
  assert (status (self w1) = running ∧ config (self w1) = cfg ∧
          iteration (context (self w1)) = iteration (context (self w)))
    as (Hst & Hcfg & Hit).
  { subst w1. unfold after_started. by destruct (truthy intervalMs). }
  split_and!.
  - by apply start_not_running.
  - done.
  - subst w1. unfold after_started. by destruct (truthy intervalMs).
  - subst w1. unfold after_started. by destruct (truthy intervalMs).
  - done.
  - done.
  - eexists. subst w1. unfold after_started, started_event. simpl.
    destruct intervalMs as [ms|]; simpl; [|done].
    by destruct (ms =? 0).
  - subst w1. unfold after_started. simpl.
    destruct intervalMs as [ms|]; simpl; [|done].
    by destruct (ms =? 0).
  - intros Hen.
    assert (exec (start intervalMs) w = exec tick w1) as ->.
    { unfold exec. by rewrite (start_not_running _ _ Hnr). }
    destruct (tick_runs_cycle w1) as [Hiter Htr].
    { unfold eligible. rewrite Hst, Hcfg, Hen.
      by rewrite bool_decide_eq_true_2. }
    split; [|done]. by rewrite Hiter, Hit.
  - intros Hdis.
    assert (exec (start intervalMs) w = exec tick w1) as ->.
    { unfold exec. by rewrite (start_not_running _ _ Hnr). }
    unfold exec. rewrite tick_skipped; [done|].
    apply eligible_false. right. by rewrite Hcfg.
Qed.

(** *** Metrics *)

Lemma updateMetrics_consistent (result : ExecutionResult T) started t m :
  consistent m → consistent (updateMetrics result started t m).
Proof.
  unfold consistent, updateMetrics. simpl. destruct (success result); lia.
Qed.

Section MetricsInvariant.
Variable I : World → Prop.
Hypothesis I_metrics : metrics_only I.
Hypothesis I_update : ∀ a r (result : ExecutionResult T) t,
  I {| self := a; rt := r |} →
  I {| self := set_metrics (updateMetrics result (startTime a) t (metrics a)) a;
       rt := r |}.

Lemma metrics_only_rt_blind : rt_blind I.
Proof. intros a r r'. by apply I_metrics. Qed.

Lemma metrics_only_retry_safe : retry_safe I.
Proof. split_and!; intros *; by apply I_metrics. Qed.

Ltac keeps_engine :=
  solve [ repeat
    match goal with
    | |- keeps _ (Agent.emit_event _ _ _) =>
        apply keeps_emit; apply metrics_only_rt_blind
    | |- keeps _ (Agent.hook _ _) =>
        apply keeps_hook; apply metrics_only_rt_blind
    | |- keeps _ (setInterval _) =>
        apply keeps_setInterval; apply metrics_only_rt_blind
    | |- keeps _ (clearInterval _) =>
        apply keeps_clearInterval; apply metrics_only_rt_blind
    | |- keeps _ (Agent.executeWithRetry _ _) =>
        apply keeps_executeWithRetry; apply metrics_only_retry_safe
    | |- keeps _ (update _) =>
        apply keeps_update;
        let H := fresh in intros ? ? H; eapply I_metrics; [|exact H]; done
    | |- keeps _ (ret _) => apply keeps_ret
    | |- keeps _ (gets _) => apply keeps_gets
    | |- keeps _ (bind _ _) => apply keeps_bind; [|intros ?]
    | |- keeps _ (if ?b then _ else _) => destruct b
    | |- keeps _ (match ?x with _ => _ end) => destruct x
    end ].

Lemma keeps_tick : keeps I tick.
Proof.
  unfold Agent.tick, this, Date_now.
  apply keeps_bind; [apply keeps_gets|]. intros a.
  destruct (negb (eligible a)); [apply keeps_ret|].
  apply keeps_bind; [keeps_engine|]. intros _.
  apply keeps_bind; [keeps_engine|]. intros result.
  apply keeps_bind; [apply keeps_gets|]. intros t.
  apply keeps_bind; [|intros _; keeps_engine].
  apply keeps_update. intros a' r. apply I_update.
Qed.

Lemma keeps_call (c : Call) : keeps I (call c).
Proof.
  destruct c as [intervalMs| | | |]; simpl.
  - unfold Agent.start, this, Date_now.
    apply keeps_bind; [apply keeps_gets|]. intros a.
    destruct (bool_decide (status a = running)); [apply keeps_ret|].
    apply keeps_bind; [apply keeps_gets|]. intros t.
    apply keeps_bind; [keeps_engine|]. intros _.
    apply keeps_bind; [keeps_engine|]. intros _.
    apply keeps_bind; [apply keeps_gets|]. intros a'.
    apply keeps_bind; [keeps_engine|]. intros _.
    apply keeps_bind; [keeps_engine|]. intros _. apply keeps_tick.
  - unfold Agent.stop, this. keeps_engine.
  - unfold Agent.pause, this. keeps_engine.
  - unfold Agent.resume, this. keeps_engine.
  - apply keeps_tick.
Qed.
End MetricsInvariant.

(** Every turn of the event loop keeps the totals consistent, whatever
    the number of pending cycles. *)
Lemma turn_consistent (t : Scheduler.Turn T) (s : Scheduler.State) :
  consistent (metrics (Scheduler.engine s)) →
  consistent (metrics (Scheduler.engine (Scheduler.turn t s))).
Proof.
  intros H. destruct t as [timer|result last t| intervalMs t| | |]; simpl.
  - case_bool_decide; [|done]. unfold Scheduler.tick_begin.
    by destruct (negb _).
  - destruct (Scheduler.pending s); [done|]. simpl.
    unfold Scheduler.tick_end. simpl.
    destruct (success result); simpl; by apply updateMetrics_consistent.
  - case_bool_decide; [done|]. unfold Scheduler.tick_begin.
    destruct (truthy intervalMs); simpl; by destruct (negb _).
  - by case_bool_decide.
  - by destruct (negb _).
  - by destruct (negb _).
Qed.

(** C1. From the construction of an engine on, after every sequence of
    calls ([start], [stop], [pause], [resume] and ticks, each cycle run
    to its end), and also after every sequence of turns of the event
    loop in which cycles overlap, the metrics satisfy
    [totalExecutions = successfulExecutions + failedExecutions]. *)
Theorem totals_add_up (c : AgentConfig) (t0 : Z) (r : Runtime T)
    (calls : list Call) (turns : list (Scheduler.Turn T)) :
  let after_calls :=
    exec (for_each call calls) {| self := Agent.new c t0; rt := r |} in
  let after_turns := Scheduler.run turns (Scheduler.init (Agent.new c t0)) in
  totalExecutions (metrics (self after_calls))
    = successfulExecutions (metrics (self after_calls))
      + failedExecutions (metrics (self after_calls)) ∧
  totalExecutions (metrics (Scheduler.engine after_turns))
    = successfulExecutions (metrics (Scheduler.engine after_turns))
      + failedExecutions (metrics (Scheduler.engine after_turns)).
Proof.
  split.
  - apply (keeps_for_each (fun w => consistent (metrics (self w))));
      [|done].
    intros x. apply keeps_call.
    + intros a a' r0 r' Heq. simpl. by rewrite Heq.
    + intros a r0 result t. simpl. apply updateMetrics_consistent.
  - unfold Scheduler.run.
    assert (consistent (metrics (Scheduler.engine
              (Scheduler.init (Agent.new c t0))))) as H by done.
    revert H. generalize (Scheduler.init (Agent.new c t0)).
    induction turns as [|t ts IH]; intros s H; simpl; [done|].
    by apply IH, turn_consistent.
Qed.

(** *** The cycle as the event loop sees it *)

(** An eligible tick, run to its end, is [tick_begin] followed by
    [tick_end] for the result of its cycle. *)
Lemma tick_begin_end (w : World) armed fresh pending :
  eligible (self w) = true →
  let s := {| Scheduler.engine := self w; Scheduler.armed := armed;
              Scheduler.fresh := fresh; Scheduler.pending := pending |} in
  ∃ result last t,
    eval executeWithRetry (next_iteration w) = Returned result ∧
    self (exec tick w)
    = Scheduler.tick_end result last t
        (Scheduler.engine (Scheduler.tick_begin s)).
Proof.
  intros Hel s. subst s. unfold Scheduler.tick_begin. simpl.
  rewrite Hel. simpl.
  change (set_context _ (self w)) with (self (next_iteration w)).
  set (a := self (next_iteration w)).
  destruct (cycle_loop_spec (next_iteration w))
    as (k & c & w2 & Hloop & _ & _ & _ & _ & _ & Hc).
  assert (∃ le, self w2 = set_context (set_lastError le (context a)) a)
    as [le Hle].
  { assert (keeps
      (fun w' => ∃ le, self w' = set_context (set_lastError le (context a)) a)
      (retry_loop
         (Z.to_nat (maxRetries (config (self (next_iteration w))))) 0
         (now (rt (next_iteration w))) None)) as Hkeep.
    { apply keeps_retry_loop_status.
      - by intros a0 r r'.
      - intros a0 r e [le Hle]. simpl in *. exists e. by rewrite Hle. }
    specialize (Hkeep (after_start awaitMs (next_iteration w))).
    unfold exec in Hkeep. rewrite Hloop in Hkeep. apply Hkeep.
    exists (lastError (context a)). subst a.
    destruct w as [[? ? [] ? ? ?] ?]. done. }
  destruct c as [result|last].
  - destruct Hc as (Hrun & Hok & _).
    exists result, le, (now (rt w2)).
    unfold eval, exec. rewrite Hrun. split; [done|].
    rewrite (tick_eligible w result w2 Hel Hrun). simpl.
    unfold Scheduler.tick_end. rewrite Hok. simpl. by rewrite Hle.
  - destruct Hc as (Hrun & _).
    exists (failure_result awaitMs last (now (rt (next_iteration w))) w2), le,
      (now (rt (after_terminal awaitMs last w2))).
    unfold eval, exec. rewrite Hrun. split; [done|].
    rewrite (tick_eligible w _ _ Hel Hrun). simpl.
    unfold Scheduler.tick_end. simpl. by rewrite Hle.
Qed.

End AgentFacts.

Section MetricsFacts.
Import Agent.
Context {T : Type}.

Local Abbreviation Cycle := (ExecutionResult T * option Z * Z)%type.

Lemma record_cycles_snoc (cycles : list Cycle) (c : Cycle) m :
  record_cycles (cycles ++ [c]) m
  = updateMetrics c.1.1 c.1.2 c.2 (record_cycles cycles m).
Proof. unfold record_cycles. by rewrite fold_left_app. Qed.

Lemma sum_snoc (ds : list Z) d :
  foldr Z.add 0 (ds ++ [d]) = foldr Z.add 0 ds + d.
Proof. induction ds as [|x ds IH]; simpl; lia. Qed.

Lemma sum_Permutation (ds ds' : list Z) :
  Permutation ds ds' → foldr Z.add 0 ds = foldr Z.add 0 ds'.
Proof. induction 1; simpl; lia. Qed.

Lemma durations_snoc (cycles : list Cycle) (c : Cycle) :
  durations (cycles ++ [c]) = durations cycles ++ [executionTimeMs c.1.1].
Proof. unfold durations. by rewrite fmap_app. Qed.

(** After the cycles are recorded, the count is their number and the
    average times the count is the sum of their durations. *)
Lemma record_cycles_total (m0 : AgentMetrics) (cycles : list Cycle) :
  totalExecutions m0 = 0 →
  let m := record_cycles cycles m0 in
  totalExecutions m = Z.of_nat (length cycles) ∧
  (averageExecutionTimeMs m * inject_Z (totalExecutions m)
   == inject_Z (foldr Z.add 0%Z (durations cycles)))%Q.
Proof.
  intros H0. induction cycles as [|x cycles IH] using rev_ind.
  - simpl. rewrite H0. split; [done|]. ring.
  - destruct IH as [Hn Havg]. cbv zeta. rewrite record_cycles_snoc.
    rewrite durations_snoc, sum_snoc, length_app.
    unfold updateMetrics at 1 2. simpl.
    split; [lia|].
    replace (totalExecutions (record_cycles cycles m0) + 1 - 1)
      with (totalExecutions (record_cycles cycles m0)) by lia.
    rewrite (inject_Z_plus (foldr Z.add 0 (durations cycles))), <- Havg.
    field. rewrite Hn.
    change 0%Q with (inject_Z 0). rewrite inject_Z_injective. lia.
Qed.




End MetricsFacts.

(** ** The event loop *)

Section SchedulerFacts.
Import Agent Scheduler.
Context {T : Type}.





End SchedulerFacts.

(** ** The fleet manager *)

Section ManagerFacts.
Import Agent Manager.
Context {T : Type}.
Variable execute : nat → AgentContext → Work T.
Variable awaitMs : Action T → Z.

Local Abbreviation AgentManager := (Manager.AgentManager T).

(** C8. [register] with an id that is present throws the duplicate-id
    error and leaves the manager as it was: the registration and the
    fleet count are unchanged.  [startAgent], [stopAgent], [pauseAgent]
    and [resumeAgent] with an absent id throw the not-found error and
    leave the manager and the runtime as they were, so no engine has run;
    with a present id each is the engine's operation on that engine:
    [startAgent] runs [start] with the registered interval, [stopAgent]
    runs [stop], [pauseAgent] runs [pause] and [resumeAgent] runs
    [resume], on the registered engine in the manager's runtime; the
    call completes as the engine's operation does, the engine and the
    runtime it leaves are the manager's from then on, and the interval
    and the other entries stay as they were. *)
Theorem manager_fails_fast (m : AgentManager) :
  (∀ (a : BaseAgent) (intervalMs : option Z) (existing : ManagedAgent),
     agents m !! id (config a) = Some existing →
     register a intervalMs m
       = (Threw (VError {| message :=
            "Agent with id " +:+ dquote +:+ id (config a) +:+ dquote
            +:+ " already registered" |}), m) ∧
     agents (exec (register a intervalMs) m) !! id (config a) = Some existing ∧
     getAgentCount (exec (register a intervalMs) m) = getAgentCount m) ∧
  (∀ (l : Lifecycle) (agentId : string),
     agents m !! agentId = None →
     manager_op execute awaitMs l agentId m
       = (Threw (VError {| message :=
            "Agent " +:+ dquote +:+ agentId +:+ dquote +:+ " not found" |}),
          m)) ∧
  (∀ (l : Lifecycle) (agentId : string) (managed : ManagedAgent),
     agents m !! agentId = Some managed →
     manager_op execute awaitMs l agentId m
       = delegate agentId managed (engine_op execute awaitMs l managed) m) ∧
  (∀ (agentId : string) (managed : ManagedAgent),
     agents m !! agentId = Some managed →
     let w := {| self := agent managed; rt := runtime m |} in
     let completes (r : Completion JsValue unit * World T) :=
       (r.1,
        {| agents :=
             <[agentId := {| agent := self r.2;
                             intervalMs := intervalMs managed |}]>
               (agents m);
           runtime := rt r.2 |}) in
     startAgent execute awaitMs agentId m
       = completes (start execute awaitMs (intervalMs managed) w) ∧
     stopAgent awaitMs agentId m = completes (stop awaitMs w) ∧
     pauseAgent awaitMs agentId m = completes (pause awaitMs w) ∧
     resumeAgent awaitMs agentId m = completes (resume awaitMs w) ∧
     (status (agent managed) = running →
      getAgentStatus agentId (exec (pauseAgent awaitMs agentId) m)
      = Some paused) ∧
     (status (agent managed) = paused →
      getAgentStatus agentId (exec (resumeAgent awaitMs agentId) m)
      = Some running)).
Proof.
  split_and!.
  - intros a intervalMs existing Hin.
    assert (register a intervalMs m = (Threw (already_registered (id (config a))), m))
      as Hreg.
    { unfold register, bind, get, throw.
      by rewrite bool_decide_eq_true_2 by by rewrite Hin. }
    unfold exec. rewrite Hreg. by split_and!.
  - intros l agentId Hnone.
    destruct l; simpl;
      unfold startAgent, stopAgent, pauseAgent, resumeAgent, bind, get, throw;
      by rewrite Hnone.
  - intros l agentId managed Hin.
    destruct l; simpl;
      unfold startAgent, stopAgent, pauseAgent, resumeAgent, bind, get;
      by rewrite Hin.
  - intros agentId managed Hin w completes. subst w completes.
    assert (pauseAgent awaitMs agentId m
            = delegate agentId managed (pause awaitMs) m) as Hpause.
    { unfold pauseAgent, bind, get. by rewrite Hin. }
    assert (resumeAgent awaitMs agentId m
            = delegate agentId managed (resume awaitMs) m) as Hresume.
    { unfold resumeAgent, bind, get. by rewrite Hin. }
    split_and!.
    + unfold startAgent, bind, get. by rewrite Hin.
    + unfold stopAgent, bind, get. by rewrite Hin.
    + done.
    + done.
    + intros Hr. unfold exec, getAgentStatus. rewrite Hpause.
      unfold delegate. cbn [snd agents]. rewrite lookup_insert_eq.
      cbn [fmap option_fmap option_map agent]. unfold getStatus. f_equal.
      exact (proj1 (pause_running awaitMs
                      {| self := agent managed; rt := runtime m |} Hr)).
    + intros Hp. unfold exec, getAgentStatus. rewrite Hresume.
      unfold delegate. cbn [snd agents]. rewrite lookup_insert_eq.
      cbn [fmap option_fmap option_map agent]. unfold getStatus. f_equal.
      exact (proj1 (resume_paused awaitMs
                      {| self := agent managed; rt := runtime m |} Hp)).
Qed.
End ManagerFacts.

(** ** The properties at concrete engines, buses and fleets *)

Section Instances.
Import Agent Examples.




(** Two attempts that both reject: the engine ends in [error] and the
    result carries the error of the second attempt. *)
Lemma terminal_failure_witness :
  ∃ result last,
    eval (executeWithRetry always_fails one_ms) (fresh_world 2 true)
      = Returned result ∧
    status (self (exec (executeWithRetry always_fails one_ms)
                    (fresh_world 2 true))) = error ∧
    success result = false ∧
    err result = last ∧
    executionTimeMs result
      = now (rt (exec (executeWithRetry always_fails one_ms)
                   (fresh_world 2 true)))
        - now (rt (fresh_world 2 true)).
Proof.
  destruct (terminal_failure always_fails one_ms (fresh_world 2 true))
    as [(result & last & H1 & H2 & H3 & H4 & H5 & _) _].
  - intros i ctx _. exists (VOther "boom"), 5. reflexivity.
  - exists result, last. repeat split; assumption.
Defined.



(** A running, enabled engine: paused, ticked three times, resumed. *)
Lemma ineligible_tick_is_silent_witness :
  status (self (running_world 3 true)) = running ∧
  enabled (config (self (running_world 3 true))) = true ∧
  let w1 :=
    exec (resume one_ms)
      (exec (ticks slow_success one_ms 3)
         (exec (pause one_ms) (running_world 3 true))) in
  status (self w1) = running ∧
  iteration (context (self w1))
    = iteration (context (self (running_world 3 true))) ∧
  iteration (context (self (exec (tick slow_success one_ms) w1)))
    = iteration (context (self (running_world 3 true))) + 1.
Proof.
  split; [reflexivity|]. split; [reflexivity|].
  exact (proj1 (proj2 (proj2
    (ineligible_tick_is_silent slow_success one_ms (running_world 3 true))))
    eq_refl eq_refl 3%nat).
Defined.

(** [start(1000)] on a new, enabled engine. *)
Lemma start_spec_witness :
  status (self (fresh_world 3 true)) ≠ running ∧
  start slow_success one_ms (Some 1000) (fresh_world 3 true)
    = tick slow_success one_ms
        (after_started one_ms (Some 1000) (fresh_world 3 true)) ∧
  intervals (rt (after_started one_ms (Some 1000) (fresh_world 3 true)))
    = [(1%nat, 1000)] ∧
  iteration (context (self (exec (start slow_success one_ms (Some 1000))
                              (fresh_world 3 true)))) = 1.
Proof.
  assert (status (self (fresh_world 3 true)) ≠ running) as Hidle.
  { simpl. discriminate. }
  destruct (proj2 (start_spec slow_success one_ms (Some 1000)
                     (fresh_world 3 true)) Hidle)
    as (H1 & _ & _ & _ & _ & _ & _ & H2 & H3 & _).
  split; [exact Hidle|]. split; [exact H1|]. split; [exact H2|].
  exact (proj1 (H3 eq_refl)).
Defined.

(** C7 as stated fails: [start(0)] arms no trigger although an interval
    was given, and [start] on a disabled engine performs no cycle. *)
Lemma start_zero_interval_or_disabled :
  intervals (rt (exec (start slow_success one_ms (Some 0))
                   (fresh_world 3 true))) = [] ∧
  intervalId (self (exec (start slow_success one_ms (Some 0))
                      (fresh_world 3 true))) = None ∧
  iteration (context (self (exec (start slow_success one_ms (Some 10))
                              (fresh_world 3 false)))) = 0 ∧
  trace (rt (exec (start slow_success one_ms (Some 10))
               (fresh_world 3 false)))
    = [CallHook onStart;
       Emit (createEvent AgentEvents.STARTED "agent-1"
               (PConfig (config (self (fresh_world 3 false)))) 1001);
       SetInterval 1 10].
Proof. repeat split. Qed.

(** A fleet of one engine, [agent-1]: a second registration and an
    operation on an unknown id throw and change nothing; [pauseAgent]
    pauses the engine when it is running, and [startAgent] starts it
    and arms its interval of 1000 ms. *)
Lemma manager_fails_fast_witness :
  (Manager.register (Agent.new (config_of 1 false) 2000) None fleet
     = (Threw (VError {| message :=
          "Agent with id " +:+ Manager.dquote +:+ "agent-1" +:+ Manager.dquote
          +:+ " already registered" |}), fleet) ∧
   Manager.getAgentCount
     (exec (Manager.register (Agent.new (config_of 1 false) 2000) None) fleet)
     = Manager.getAgentCount fleet) ∧
  Manager.manager_op slow_success one_ms Manager.LStart "ghost" fleet
    = (Threw (VError {| message :=
         "Agent " +:+ Manager.dquote +:+ "ghost" +:+ Manager.dquote
         +:+ " not found" |}), fleet) ∧
  Manager.manager_op slow_success one_ms Manager.LPause "agent-1" fleet
    = Manager.delegate "agent-1"
        {| Manager.agent := Agent.new (config_of 3 true) 1000;
           Manager.intervalMs := Some 1000 |}
        (pause one_ms) fleet ∧
  (eval (Manager.pauseAgent one_ms "agent-1") running_fleet = Returned tt ∧
   Manager.getAgentStatus "agent-1"
     (exec (Manager.pauseAgent one_ms "agent-1") running_fleet)
   = Some paused) ∧
  (Manager.getAgentStatus "agent-1"
     (exec (Manager.startAgent slow_success one_ms "agent-1") fleet)
   = Some running ∧
   intervals (Manager.runtime
                (exec (Manager.startAgent slow_success one_ms "agent-1")
                   fleet))
   = [(1%nat, 1000)]).
Proof.
  destruct (manager_fails_fast slow_success one_ms fleet)
    as (Hdup & Hnone & Hsome & Hrun).
  destruct (manager_fails_fast slow_success one_ms running_fleet)
    as (_ & _ & _ & Hrunning).
  split; [|split; [|split; [|split]]].
  - destruct (Hdup (Agent.new (config_of 1 false) 2000) None
               {| Manager.agent := Agent.new (config_of 3 true) 1000;
                  Manager.intervalMs := Some 1000 |}) as (H1 & _ & H3).
    + apply lookup_singleton_eq.
    + split; [exact H1 | exact H3].
  - apply (Hnone Manager.LStart "ghost").
    apply lookup_singleton_ne. discriminate.
  - apply (Hsome Manager.LPause "agent-1"). apply lookup_singleton_eq.
  - destruct (Hrunning "agent-1" _ (lookup_singleton_eq _ _))
      as (_ & _ & Hpause & _ & Hpaused & _).
    unfold eval. rewrite Hpause. split; [reflexivity|].
    apply Hpaused. reflexivity.
  - destruct (Hrun "agent-1" _ (lookup_singleton_eq _ _)) as (Hstart & _).
    unfold exec. rewrite Hstart. split; reflexivity.
Defined.

Lemma saboteur_never_subscribes n h (e : AgentEvent unit) :
  ∀ o, o ∈ EventBus.effects (saboteur n h e) →
       o = EventBus.OpUnsubscribe second_subscription.
Proof.
  intros o. unfold saboteur. destruct (decide (h = 1%nat)); simpl.
  - intros Hin. apply list_elem_of_In in Hin. destruct Hin as [<-|[]].
    reflexivity.
  - intros Hin. apply list_elem_of_In in Hin. destruct Hin.
Defined.

Lemma wildcard_saboteur_never_subscribes n h (e : AgentEvent unit) :
  ∀ o, o ∈ EventBus.effects (wildcard_saboteur n h e) →
       o = EventBus.OpUnsubscribe wildcard_subscription.
Proof.
  intros o. unfold wildcard_saboteur. destruct (decide (h = 1%nat)); simpl.
  - intros Hin. apply list_elem_of_In in Hin. destruct Hin as [<-|[]].
    reflexivity.
  - intros Hin. apply list_elem_of_In in Hin. destruct Hin.
Defined.

(** Handler 1 unsubscribes handler 2 and throws.  The emission returns,
    both handlers are called, and two later emissions do not call
    handler 2.  The same when handler 2 was subscribed to all events:
    later emissions of [tick] and of another type do not call it. *)
Lemma emit_isolates_handler_failures_witness :
  (eval (EventBus.emit saboteur tick_event) bus_world = Returned tt ∧
   EventBus.invoked (exec (EventBus.emit saboteur tick_event) bus_world)
     = [(1%nat, tick_event); (2%nat, tick_event)] ∧
   EventBus.calls_of 2%nat
     (EventBus.invoked
        (exec (for_each (EventBus.emit saboteur) [tick_event; tick_event])
           (exec (EventBus.emit saboteur tick_event) bus_world)))
   = EventBus.calls_of 2%nat
       (EventBus.invoked (exec (EventBus.emit saboteur tick_event) bus_world))) ∧
  (eval (EventBus.emit wildcard_saboteur tick_event) wildcard_world
     = Returned tt ∧
   EventBus.invoked
     (exec (EventBus.emit wildcard_saboteur tick_event) wildcard_world)
     = [(1%nat, tick_event); (2%nat, tick_event)] ∧
   EventBus.calls_of 2%nat
     (EventBus.invoked
        (exec (for_each (EventBus.emit wildcard_saboteur)
                 [tick_event; other_event])
           (exec (EventBus.emit wildcard_saboteur tick_event) wildcard_world)))
   = EventBus.calls_of 2%nat
       (EventBus.invoked
          (exec (EventBus.emit wildcard_saboteur tick_event) wildcard_world))).
Proof.
  destruct (emit_isolates_handler_failures saboteur tick_event bus_world)
    as (Hret & Hall & Hunsub & _).
  destruct (emit_isolates_handler_failures wildcard_saboteur tick_event
              wildcard_world) as (Hret' & Hall' & _ & Hwild).
  split.
  - split; [exact Hret|]. split; [exact Hall|].
    refine (proj2 (Hunsub second_subscription "tick" 1%nat eq_refl _ _ _ _ _
                     [tick_event; tick_event] _)).
    + apply list_elem_of_In. left. reflexivity.
    + intros n. apply list_elem_of_In. left. reflexivity.
    + intros n h' e Hin.
      pose proof (saboteur_never_subscribes n h' e _ Hin) as H.
      discriminate H.
    + intros n h' e Hin.
      pose proof (saboteur_never_subscribes n h' e _ Hin) as H.
      discriminate H.
    + intros Hin. apply list_elem_of_In in Hin. destruct Hin.
    + repeat constructor.
  - split; [exact Hret'|]. split; [exact Hall'|].
    refine (proj2 (Hwild wildcard_subscription 1%nat eq_refl _ _ _ _
                     [tick_event; other_event] _)).
    + apply list_elem_of_In. left. reflexivity.
    + intros n. apply list_elem_of_In. left. reflexivity.
    + intros n h' e ty Hin.
      pose proof (wildcard_saboteur_never_subscribes n h' e _ Hin) as H.
      discriminate H.
    + intros n h' e Hin.
      pose proof (wildcard_saboteur_never_subscribes n h' e _ Hin) as H.
      discriminate H.
    + repeat constructor.
      * intros Hin. apply list_elem_of_In in Hin. vm_compute in Hin.
        destruct Hin as [H|[]]. discriminate H.
      * intros Hin. apply list_elem_of_In in Hin. vm_compute in Hin.
        destruct Hin.
Defined.

Lemma wf_empty : EventBus.wf EventBus.empty.
Proof.
  split.
  - apply NoDup_nil_2.
  - intros eventType hs H. simpl in H. rewrite lookup_empty in H.
    discriminate H.
Defined.

(** Handler 7 subscribed twice to [tick] on a new bus. *)
Lemma subscribe_twice_registers_once_witness :
  let first := EventBus.subscribe "tick" 7%nat EventBus.empty in
  let second := EventBus.subscribe "tick" 7%nat first.2 in
  EventBus.handlers second.2 !! "tick" = EventBus.handlers first.2 !! "tick" ∧
  length (filter (fun x => x = 7%nat)
            (default [] (EventBus.handlers second.2 !! "tick"))) = 1%nat.
Proof.
  destruct (subscribe_twice_registers_once (T:=unit) saboteur EventBus.empty
              "tick" 7%nat wf_empty) as (H1 & H2 & _).
  - intros Hin. apply list_elem_of_In in Hin. destruct Hin.
  - split; [exact H1 | exact H2].
Defined.
End Instances.

(** ** More on the event bus *)

Section BusMore.
Import EventBus.
Context {T : Type}.
Variable behave : nat → EventHandler → AgentEvent T → Behaviour.

Local Abbreviation World := (@EventBus.BusWorld T).
Local Abbreviation emit := (EventBus.emit behave).
Local Abbreviation guarded := (EventBus.guarded behave).

Lemma set_delete_idem h s : set_delete h (set_delete h s) = set_delete h s.
Proof.
  unfold set_delete. induction s as [|x s IH]; [done|].
  rewrite filter_cons. destruct (decide (x ≠ h)) as [Hne|Heq]; [|done].
  rewrite filter_cons. rewrite decide_True by done. by rewrite IH.
Qed.

Lemma set_delete_absent h s : h ∉ s → set_delete h s = s.
Proof.
  unfold set_delete. induction s as [|x s IH]; [done|].
  rewrite not_elem_of_cons. intros [Hne Hnin].
  rewrite filter_cons, decide_True by done. by rewrite IH.
Qed.

Lemma set_delete_set_add h s : h ∉ s → set_delete h (set_add h s) = s.
Proof.
  intros Hnin. unfold set_add. rewrite decide_False by done.
  unfold set_delete. rewrite filter_app. fold (set_delete h s).
  rewrite set_delete_absent by done.
  rewrite filter_cons, decide_False by (intros H; by apply H).
  by rewrite app_nil_r.
Qed.

(** X1. [unsubscribe] is idempotent, and it does nothing at all for an
    event type that has no set of handlers. *)
Theorem unsubscribe_idempotent (s : Subscription) (b : EventBus) :
  unsubscribe s (unsubscribe s b) = unsubscribe s b ∧
  (∀ eventType,
     sub_eventType s = Some eventType →
     handlers b !! eventType = None →
     unsubscribe s b = b).
Proof.
  split.
  - unfold unsubscribe. destruct (sub_eventType s) as [ty|]; simpl.
    + f_equal. apply map_eq. intros ty'.
      destruct (decide (ty = ty')) as [->|Hne].
      * rewrite !lookup_alter_eq.
        destruct (handlers b !! ty'); simpl; [|done].
        by rewrite set_delete_idem.
      * by rewrite !lookup_alter_ne.
    + by rewrite set_delete_idem.
  - intros ty Hs Hnone. unfold unsubscribe. rewrite Hs.
    destruct b as [hs ws c]. simpl in *. f_equal.
    apply map_eq. intros ty'.
    destruct (decide (ty = ty')) as [->|Hne].
    + by rewrite lookup_alter_eq, Hnone.
    + by rewrite lookup_alter_ne.
Qed.

(** X2. Subscribing a handler that is not yet registered and then
    unsubscribing it gives back, for every event, the handlers that were
    called before; the same holds for a wildcard handler. *)
Theorem subscribe_unsubscribe_restores (b : EventBus) (h : EventHandler) :
  (∀ eventType (event : AgentEvent T),
     h ∉ default [] (handlers b !! eventType) →
     let r := subscribe eventType h b in
     allHandlers event (unsubscribe r.1 r.2) = allHandlers event b) ∧
  (∀ event : AgentEvent T,
     h ∉ wildcardHandlers b →
     let r := subscribeAll h b in
     allHandlers event (unsubscribe r.1 r.2) = allHandlers event b).
Proof.
  split.
  - intros ty event Hnin r. subst r. unfold allHandlers, unsubscribe. simpl.
    f_equal. destruct (decide (ty = ev_type event)) as [->|Hne].
    + rewrite lookup_alter_eq, lookup_insert_eq. simpl.
      by rewrite set_delete_set_add.
    + by rewrite lookup_alter_ne, lookup_insert_ne.
  - intros event Hnin r. subst r. unfold allHandlers, unsubscribe. simpl.
    by rewrite set_delete_set_add.
Qed.

Lemma counter_apply_op o b :
  (subscriptionCounter b ≤ subscriptionCounter (apply_op o b))%N.
Proof.
  destruct o as [ty h|h|s|]; simpl; try lia.
  unfold unsubscribe. destruct (sub_eventType s); simpl; lia.
Qed.

Lemma counter_apply_ops os b :
  (subscriptionCounter b ≤ subscriptionCounter (apply_ops os b))%N.
Proof.
  unfold apply_ops. revert b. induction os as [|o os IH]; intros b; simpl.
  - lia.
  - pose proof (counter_apply_op o b). pose proof (IH (apply_op o b)). lia.
Qed.

Lemma sub_id_inj (n n' : N) :
  "sub_" +:+ pretty n = "sub_" +:+ pretty n' → n = n'.
Proof. simpl. intros [= H]. by apply (inj pretty). Qed.

(** X3. Subscription ids are not reused: whatever is done to the bus in
    between, [clear] included, a later subscription has an id different
    from an earlier one. *)
Theorem subscription_ids_fresh (b : EventBus) (os : list BusOp)
    (first later : BusOp) (s1 s2 : Subscription) :
  subscription_of first b = Some s1 →
  subscription_of later (apply_ops os (apply_op first b)) = Some s2 →
  sub_id s1 ≠ sub_id s2.
Proof.
  intros H1 H2 Heq.
  pose proof (counter_apply_ops os (apply_op first b)) as Hle.
  assert (subscriptionCounter (apply_op first b)
          = N.succ (subscriptionCounter b) ∧
          sub_id s1 = "sub_" +:+ pretty (N.succ (subscriptionCounter b)))
    as [Hc Hi].
  { destruct first; simpl in *; by simplify_eq. }
  assert (sub_id s2
          = "sub_" +:+ pretty (N.succ (subscriptionCounter
                                 (apply_ops os (apply_op first b))))) as Hj.
  { destruct later; simpl in *; by simplify_eq. }
  rewrite Hi, Hj in Heq. apply sub_id_inj in Heq. lia.
Qed.

(** X4. After [clear] an emission calls no handler and changes nothing,
    and a subscription taken before [clear] can still be unsubscribed:
    that does nothing. *)
Theorem clear_silences (b : EventBus) :
  (∀ (event : AgentEvent T) calls lines,
     let w := {| bus := clear b; invoked := calls; console := lines |} in
     emit event w = (Returned tt, w)) ∧
  (∀ s : Subscription, unsubscribe s (clear b) = clear b).
Proof.
  split.
  - intros event calls lines w. subst w.
    unfold EventBus.emit, bind, get, allHandlers. simpl.
    by rewrite lookup_empty.
  - intros s. unfold unsubscribe, clear.
    destruct (sub_eventType s) as [ty|]; simpl; [|done].
    assert (alter (set_delete (sub_handler s)) ty (∅ : gmap string (list EventHandler)) = ∅)
      as ->; [|done].
    apply map_eq. intros ty'.
    destruct (decide (ty = ty')) as [->|Hne].
    + by rewrite lookup_alter_eq, lookup_empty.
    + by rewrite lookup_alter_ne.
Qed.

Lemma guarded_console event h (w : World) :
  guarded event h w =
    (Returned tt,
     {| bus := apply_ops (effects (behave (length (invoked w)) h event)) (bus w);
        invoked := invoked w ++ [(h, event)];
        console := console w ++ failures behave event (length (invoked w)) [h] |}).
Proof.
  unfold EventBus.guarded, try_catch, EventBus.call_handler, bind, get, modify.
  simpl.
  destruct (outcome (behave (length (invoked w)) h event)); simpl; try done.
  by rewrite app_nil_r.
Qed.

Lemma failures_cons event n h hs :
  failures behave event n (h :: hs)
  = failures behave event n [h] ++ failures behave event (S n) hs.
Proof.
  simpl. by destruct (failure_of (outcome (behave n h event))).
Qed.

Lemma for_each_guarded_console event hs : ∀ w : World,
  console (exec (for_each (guarded event) hs) w)
  = console w ++ failures behave event (length (invoked w)) hs.
Proof.
  induction hs as [|h hs IH]; intros w.
  - simpl. by rewrite app_nil_r.
  - unfold exec. simpl for_each.
    rewrite (bind_returned _ _ _ _ _ (guarded_console event h w)).
    change (console (exec (for_each (guarded event) hs)
              {| bus := apply_ops (effects (behave (length (invoked w)) h event)) (bus w);
                 invoked := invoked w ++ [(h, event)];
                 console := console w ++ failures behave event (length (invoked w)) [h] |})
            = console w ++ failures behave event (length (invoked w)) (h :: hs)).
    rewrite IH. simpl console. simpl invoked.
    rewrite length_app. simpl length.
    replace (length (invoked w) + 1)%nat with (S (length (invoked w))) by lia.
    by rewrite (failures_cons event _ h hs), app_assoc.
Qed.

(** X5. [emit] writes one [console.error] line for each handler call
    that throws or rejects, with the message
    [Event handler error for <type>:] and the value thrown, and no line
    for a call that succeeds; the lines already written stay in front.
    The order of the new lines among themselves is left open: a
    rejection is logged when it is delivered. *)
Theorem emit_logs_each_failure (event : AgentEvent T) (w : World) :
  ∃ lines,
    console (exec (emit event) w) = console w ++ lines ∧
    lines
    ≡ₚ failures behave event (length (invoked w)) (allHandlers event (bus w)).
Proof. eexists. split; [apply for_each_guarded_console|done]. Qed.

Lemma filter_eq_NoDup_le (h : EventHandler) (hs : list EventHandler) :
  NoDup hs → (length (filter (fun x => x = h) hs) ≤ 1)%nat.
Proof.
  intros Hnd. destruct (decide (h ∈ hs)) as [Hin|Hnin].
  - by rewrite filter_eq_NoDup.
  - rewrite filter_eq_absent by done. simpl. lia.
Qed.

(** X6. The sets of a bus built from [new EventBus()] by any
    operations are duplicate-free, and an emission keeps them so; on
    such a bus one emission calls a handler at most twice, once for its
    registration for the event's type and once as a wildcard handler. *)
Theorem at_most_two_calls (os : list BusOp) (event : AgentEvent T)
    (w : World) (h : EventHandler) :
  wf (apply_ops os EventBus.empty) ∧
  (wf (bus w) →
   wf (bus (exec (emit event) w)) ∧
   (calls_of h (invoked (exec (emit event) w))
    ≤ calls_of h (invoked w) + 2)%nat ∧
   (h ∉ wildcardHandlers (bus w) →
    (calls_of h (invoked (exec (emit event) w))
     ≤ calls_of h (invoked w) + 1)%nat)).
Proof.
  split.
  - apply wf_apply_ops. split; [apply NoDup_nil_2|].
    intros ty hs. simpl. by rewrite lookup_empty.
  - intros Hwf. split; [by apply emit_keeps_wf|].
    destruct (emit_spec behave event w) as (w' & Hw' & Hinv).
    unfold exec. rewrite Hw'. simpl. rewrite Hinv, calls_of_app.
    rewrite calls_of_recipients. unfold allHandlers. rewrite filter_app, length_app.
    destruct Hwf as [Hwild Hsets].
    assert (NoDup (default [] (handlers (bus w) !! ev_type event))) as Hty.
    { destruct (handlers (bus w) !! ev_type event) as [hs|] eqn:Hl; simpl.
      - by apply (Hsets (ev_type event)).
      - apply NoDup_nil_2. }
    pose proof (filter_eq_NoDup_le h _ Hty).
    pose proof (filter_eq_NoDup_le h _ Hwild).
    split; [lia|]. intros Hnw. rewrite (filter_eq_absent h (wildcardHandlers _)) by done.
    simpl. lia.
Qed.

(** [g] is registered for [eventType]. *)
Lemma apply_op_registered eventType g o b :
  subscribes o = true →
  g ∈ default [] (handlers b !! eventType) ∨ o = OpSubscribe eventType g →
  g ∈ default [] (handlers (apply_op o b) !! eventType).
Proof.
  intros Hsub Hin. destruct o as [ty h|h|s|]; simpl in *; try done.
  - destruct (decide (ty = eventType)) as [->|Hne].
    + rewrite lookup_insert_eq. simpl. apply (proj2 (elem_of_set_add behave _ _ _)).
      destruct Hin as [Hin|[= ->]]; [by right | by left].
    + rewrite lookup_insert_ne by done.
      destruct Hin as [Hin|[= ? ?]]; [done | congruence].
  - by destruct Hin.
Qed.

Lemma apply_ops_registered eventType g os b :
  (∀ o, o ∈ os → subscribes o = true) →
  g ∈ default [] (handlers b !! eventType) ∨ OpSubscribe eventType g ∈ os →
  g ∈ default [] (handlers (apply_ops os b) !! eventType).
Proof.
  unfold apply_ops. revert b.
  induction os as [|o os IH]; intros b Hall Hin; simpl.
  - destruct Hin as [Hin|Hin]; [done | by apply elem_of_nil in Hin].
  - apply IH.
    + intros o' Ho'. apply Hall. by right.
    + destruct Hin as [Hin|Hin].
      * left. apply apply_op_registered; [apply Hall; by left | by left].
      * apply elem_of_cons in Hin as [<-|Hin]; [|by right].
        left. apply apply_op_registered; [apply Hall; by left | by right].
Qed.

Lemma for_each_guarded_registers eventType g event hs : ∀ w : World,
  (∀ n h o, o ∈ effects (behave n h event) → subscribes o = true) →
  g ∈ default [] (handlers (bus w) !! eventType) ∨
    (∃ h, h ∈ hs ∧ ∀ n, OpSubscribe eventType g ∈ effects (behave n h event)) →
  g ∈ default [] (handlers (bus (exec (for_each (guarded event) hs) w))
                  !! eventType).
Proof.
  induction hs as [|h0 hs IH]; intros w Hall Hin.
  - destruct Hin as [Hin|(h & Hh & _)]; [done | by apply elem_of_nil in Hh].
  - unfold exec. simpl for_each.
    rewrite (bind_returned _ _ _ _ _ (guarded_console event h0 w)).
    apply IH; [done|]. simpl.
    destruct Hin as [Hin|(h & Hh & Hsub)].
    + left. apply apply_ops_registered; [apply Hall | by left].
    + apply elem_of_cons in Hh as [->|Hh]; [|right; by exists h].
      left. apply apply_ops_registered; [apply Hall | right; apply Hsub].
Qed.

(** X7. A handler that is registered by another handler while an event
    is being emitted is not called for that event; when the handlers do
    nothing to the bus but subscribe, it is called for the next event of
    the type. *)
Theorem subscribed_during_emission (event : AgentEvent T) (w : World)
    (g h : EventHandler) :
  g ∉ allHandlers event (bus w) →
  calls_of g (invoked (exec (emit event) w)) = calls_of g (invoked w) ∧
  (h ∈ allHandlers event (bus w) →
   (∀ n, OpSubscribe (ev_type event) g ∈ effects (behave n h event)) →
   (∀ n h' o, o ∈ effects (behave n h' event) → subscribes o = true) →
   (calls_of g (invoked (exec (emit event) w))
    < calls_of g (invoked (exec (emit event) (exec (emit event) w))))%nat).
Proof.
  intros Hnin.
  destruct (emit_spec behave event w) as (w' & Hw' & Hinv).
  assert (exec (emit event) w = w') as Hexec by (unfold exec; by rewrite Hw').
  split.
  - rewrite Hexec, Hinv, calls_of_app, calls_of_recipients.
    rewrite filter_eq_absent by done. simpl. lia.
  - intros Hin Hsub Hall. rewrite Hexec.
    assert (g ∈ allHandlers event (bus w')) as Hg.
    { unfold allHandlers. apply elem_of_app. left. rewrite <- Hexec.
      apply (for_each_guarded_registers (ev_type event) g event
               (allHandlers event (bus w)) w Hall).
      right. by exists h. }
    destruct (emit_spec behave event w') as (w'' & Hw'' & Hinv').
    unfold exec. rewrite Hw''. simpl. rewrite Hinv', calls_of_app.
    rewrite calls_of_recipients.
    assert (filter (fun x => x = g) (allHandlers event (bus w')) ≠ []) as Hne.
    { intros Hnil. assert (g ∈ filter (fun x => x = g) (allHandlers event (bus w')))
        as Hf by (by apply list_elem_of_filter).
      rewrite Hnil in Hf. by apply elem_of_nil in Hf. }
    destruct (filter _ (allHandlers event (bus w'))); [done|]. simpl. lia.
Qed.
End BusMore.

(** ** More on the engine *)

Section AgentMore.
Import Agent.
Context {T : Type}.
Variable execute : nat → AgentContext → Work T.
Variable awaitMs : Action T → Z.

Local Abbreviation World := (Agent.World T).
Local Abbreviation retry_loop := (Agent.retry_loop execute awaitMs).
Local Abbreviation executeWithRetry := (Agent.executeWithRetry execute awaitMs).
Local Abbreviation tick := (Agent.tick execute awaitMs).
Local Abbreviation start := (Agent.start execute awaitMs).
Local Abbreviation stop := (Agent.stop awaitMs).
Local Abbreviation pause := (Agent.pause awaitMs).
Local Abbreviation resume := (Agent.resume awaitMs).
Local Abbreviation call := (Agent.call execute awaitMs).
Local Abbreviation emit_event := (Agent.emit_event awaitMs).
Local Abbreviation hook := (Agent.hook awaitMs).

Ltac run_step :=
  cbn -[Agent.retry_loop Z.add Z.mul Z.sub Z.ltb Z.leb Z.max race Z.to_nat].

Lemma resume_not_paused (w : World) :
  status (self w) ≠ paused → resume w = (Returned tt, w).
Proof.
  intros H. unfold Agent.resume, bind, this, gets.
  by rewrite bool_decide_eq_false_2.
Qed.

(** X8. [pause] followed by [resume] gives the engine back as it was:
    status, configuration, context, metrics and trigger are those of
    before, and the trace has gained the two hooks and the two events.
    [resume] does nothing unless the status is [paused], so it does not
    revive an engine that is idle, stopped or in error. *)
Theorem pause_resume_round_trip (w : World) :
  (status (self w) = running →
   self (exec resume (exec pause w)) = self w ∧
   intervals (rt (exec resume (exec pause w))) = intervals (rt w) ∧
   ∃ t1 t2,
     trace (rt (exec resume (exec pause w))) =
       trace (rt w)
       ++ [CallHook onPause;
           Emit (createEvent AgentEvents.PAUSED (id (config (self w))) PEmpty t1);
           CallHook onResume;
           Emit (createEvent AgentEvents.RESUMED (id (config (self w))) PEmpty t2)]) ∧
  (status (self w) ≠ paused → resume w = (Returned tt, w)).
Proof.
  split; [|apply resume_not_paused].
  intros Hr.
  assert (pause w
          = (update (set_status paused) ;;
             hook onPause ;; emit_event AgentEvents.PAUSED PEmpty)%js w) as Hp.
  { unfold Agent.pause. unfold bind at 1, this at 1, gets at 1.
    by rewrite bool_decide_eq_true_2. }
  unfold exec at 2 4 6. rewrite Hp. run_step.
  match goal with
  | |- context [exec resume ?w1] =>
      assert (resume w1
              = (update (set_status running) ;;
                 hook onResume ;; emit_event AgentEvents.RESUMED PEmpty)%js w1)
        as Hres
  end.
  { unfold Agent.resume. unfold bind at 1, this at 1, gets at 1.
    by rewrite bool_decide_eq_true_2. }
  unfold exec. rewrite Hres. run_step. split_and!.
  - destruct w as [[? ? ? ? ? ?] ?]. simpl in *. by subst.
  - done.
  - eexists _, _. by rewrite <- !app_assoc.
Qed.

Lemma stop_stopped (w : World) :
  status (self w) = stopped → stop w = (Returned tt, w).
Proof.
  intros H. unfold Agent.stop, bind, this, gets.
  by rewrite bool_decide_eq_true_2.
Qed.

(** [stop] on an engine that is not stopped. *)
Lemma stop_not_stopped (w : World) :
  status (self w) ≠ stopped →
  ∃ w1,
    stop w = (Returned tt, w1) ∧
    status (self w1) = stopped ∧
    intervalId (self w1) = None ∧
    intervals (rt w1) =
      match intervalId (self w) with
      | Some timer => filter (fun p => p.1 ≠ timer) (intervals (rt w))
      | None => intervals (rt w)
      end ∧
    config (self w1) = config (self w) ∧
    context (self w1) = context (self w) ∧
    metrics (self w1) = metrics (self w) ∧
    ∃ tr t,
      trace (rt w1) =
        trace (rt w) ++ tr
        ++ [CallHook onStop;
            Emit (createEvent AgentEvents.STOPPED (id (config (self w)))
                    (PMetrics (metrics (self w))) t)].
Proof.
  intros Hs. unfold Agent.stop. unfold bind at 1, this at 1, gets at 1.
  rewrite bool_decide_eq_false_2 by done.
  destruct (intervalId (self w)) as [timer|] eqn:Hi; run_step.
  - eexists. split; [reflexivity|]. simpl. split_and!; try done.
    eexists [_], _. by rewrite <- !app_assoc.
  - eexists. split; [reflexivity|]. simpl. split_and!; try done.
    eexists [], _. by rewrite <- !app_assoc.
Qed.

(** X9. [stop] on an engine that is not stopped sets the status to
    [stopped], cancels the periodic trigger the engine holds and forgets
    it, leaves configuration, context and metrics alone and emits
    [STOPPED] with the metrics.  A second [stop] does nothing. *)
Theorem stop_cancels_trigger (w : World) :
  let w1 := exec stop w in
  (status (self w) ≠ stopped →
   status (self w1) = stopped ∧
   intervalId (self w1) = None ∧
   intervals (rt w1) =
     match intervalId (self w) with
     | Some timer => filter (fun p => p.1 ≠ timer) (intervals (rt w))
     | None => intervals (rt w)
     end ∧
   config (self w1) = config (self w) ∧
   context (self w1) = context (self w) ∧
   metrics (self w1) = metrics (self w) ∧
   ∃ tr t,
     trace (rt w1) =
       trace (rt w) ++ tr
       ++ [CallHook onStop;
           Emit (createEvent AgentEvents.STOPPED (id (config (self w)))
                   (PMetrics (metrics (self w))) t)]) ∧
  stop w1 = (Returned tt, w1).
Proof.
  intros w1. subst w1.
  destruct (decide (status (self w) = stopped)) as [Hs|Hs].
  - split; [done|]. unfold exec. rewrite (stop_stopped w Hs). simpl.
    by apply stop_stopped.
  - destruct (stop_not_stopped w Hs) as (w1 & Hrun & Hst & H).
    unfold exec. rewrite Hrun. simpl. split; [by split|].
    by apply stop_stopped.
Qed.

(** *** The periodic triggers *)

Section Timers.
Variable I : World → Prop.
Hypothesis I_timers : timers_only I.

Ltac keeps_timers :=
  solve [ repeat
    match goal with
    | |- keeps _ (ret _) => apply keeps_ret
    | |- keeps _ (throw _) => apply keeps_throw
    | |- keeps _ (gets _) => apply keeps_gets
    | |- keeps _ get => apply keeps_get
    | |- keeps _ (bind _ _) => apply keeps_bind; [|intros ?]
    | |- keeps _ (modify _) =>
        apply keeps_modify;
        let H := fresh in
        intros [? ?] H; simpl; eapply I_timers; [| | |exact H]; reflexivity
    | |- keeps _ (if ?b then _ else _) => destruct b
    | |- keeps _ (match ?x with _ => _ end) => destruct x
    end ].

Lemma timers_emit_event type payload : keeps I (emit_event type payload).
Proof.
  unfold Agent.emit_event, this, Date_now, perform, record, advance.
  keeps_timers.
Qed.

Lemma timers_hook h : keeps I (hook h).
Proof. unfold Agent.hook, perform, record, advance. keeps_timers. Qed.

Lemma timers_retry_loop fuel : ∀ attempt startTime last,
  keeps I (retry_loop fuel attempt startTime last).
Proof.
  induction fuel as [|fuel IH]; intros attempt startTime last; simpl.
  - apply keeps_ret.
  - apply keeps_bind; [apply keeps_gets|]. intros a.
    destruct (attempt <? maxRetries (config a)); [|apply keeps_ret].
    apply keeps_bind.
    + apply keeps_try_catch.
      * apply keeps_bind.
        { unfold call_execute, this, record. keeps_timers. }
        intros p. apply keeps_bind.
        { unfold withTimeout, this, advance.
          apply keeps_bind; [apply keeps_gets|]. intros a0.
          apply keeps_bind; [keeps_timers|]. intros _.
          destruct (race _ _).1; [apply keeps_ret | apply keeps_throw]. }
        intros data. apply keeps_bind; [apply keeps_gets|]. intros t.
        apply keeps_bind; [apply timers_emit_event|]. intros _.
        apply keeps_bind; [apply keeps_gets|]. intros t'. apply keeps_ret.
      * intros e. apply keeps_bind; [unfold update; keeps_timers|]. intros _.
        apply keeps_bind; [apply keeps_gets|]. intros a'.
        apply keeps_bind; [|intros _; apply keeps_ret].
        destruct (attempt <? _); [|apply keeps_ret].
        unfold delay, record, advance. keeps_timers.
    + intros [result|e]; [apply keeps_ret | apply IH].
Qed.

Lemma timers_executeWithRetry : keeps I executeWithRetry.
Proof.
  unfold Agent.executeWithRetry, Date_now, this.
  apply keeps_bind; [apply keeps_gets|]. intros startTime.
  apply keeps_bind; [apply keeps_gets|]. intros a.
  apply keeps_bind; [apply timers_emit_event|]. intros _.
  apply keeps_bind; [apply keeps_gets|]. intros a'.
  apply keeps_bind; [apply timers_retry_loop|].
  intros [result|last]; [apply keeps_ret|].
  apply keeps_bind; [unfold update; keeps_timers|]. intros _.
  apply keeps_bind; [apply timers_hook|]. intros _.
  apply keeps_bind; [apply timers_emit_event|]. intros _.
  apply keeps_bind; [apply timers_emit_event|]. intros _.
  apply keeps_bind; [apply keeps_gets|]. intros t. apply keeps_ret.
Qed.

Lemma timers_tick : keeps I tick.
Proof.
  unfold Agent.tick, this, Date_now.
  apply keeps_bind; [apply keeps_gets|]. intros a.
  destruct (negb (eligible a)); [apply keeps_ret|].
  apply keeps_bind; [unfold update; keeps_timers|]. intros _.
  apply keeps_bind; [apply timers_executeWithRetry|]. intros result.
  apply keeps_bind; [apply keeps_gets|]. intros t.
  apply keeps_bind; [unfold update; keeps_timers|]. intros _.
  apply keeps_bind; [apply keeps_gets|]. intros a'. apply timers_emit_event.
Qed.
End Timers.

(** A tick arms and cancels no trigger. *)
Lemma tick_timers (w : World) :
  intervalId (self (exec tick w)) = intervalId (self w) ∧
  intervals (rt (exec tick w)) = intervals (rt w) ∧
  nextTimer (rt (exec tick w)) = nextTimer (rt w).
Proof.
  apply (timers_tick
    (fun w' => intervalId (self w') = intervalId (self w) ∧
               intervals (rt w') = intervals (rt w) ∧
               nextTimer (rt w') = nextTimer (rt w))); [|done].
  intros a a' r r' Hi Hl Hn (H1 & H2 & H3). simpl in *.
  by rewrite <- Hi, <- Hl, <- Hn.
Qed.

(** The status after a tick is the status before, or [error]. *)
Lemma tick_status (w : World) :
  status (self (exec tick w)) = status (self w) ∨
  status (self (exec tick w)) = error.
Proof.
  destruct (eligible (self w)) eqn:Hel.
  - destruct (tick_begin_end execute awaitMs w [] 0%nat 0%nat Hel)
      as (result & last & t & _ & Hs).
    rewrite Hs. unfold Scheduler.tick_end, Scheduler.tick_begin. simpl.
    rewrite Hel. simpl. destruct (success result); [by left | by right].
  - left. unfold exec. by rewrite (tick_skipped execute awaitMs w Hel).
Qed.

Lemma filter_keeps_all (timer : nat) (l : list (nat * Z)) :
  (∀ p, p ∈ l → p.1 ≠ timer) → filter (fun p => p.1 ≠ timer) l = l.
Proof.
  induction l as [|x l IH]; intros H; [done|].
  rewrite filter_cons, decide_True by (apply H; by left).
  rewrite IH; [done|]. intros p Hp. apply H. by right.
Qed.

(** X10. [start] with an interval followed by [stop] leaves armed
    exactly the triggers that were armed before: [stop] cancels the
    trigger of this [start] and no other.  So a trigger that an earlier
    [start] armed, and that the engine still held when it was started
    again from [paused] or [error], stays armed for good. *)
Theorem stop_cancels_latest_trigger_only (intervalMs : option Z) (w : World) :
  status (self w) ≠ running →
  truthy intervalMs = true →
  (∀ p, p ∈ intervals (rt w) → p.1 ≠ nextTimer (rt w)) →
  let w2 := exec stop (exec (start intervalMs) w) in
  intervals (rt w2) = intervals (rt w) ∧
  intervalId (self w2) = None ∧
  status (self w2) = stopped.
Proof.
  intros Hnr Harms Hfresh w2. subst w2.
  assert (exec (start intervalMs) w
          = exec tick (after_started awaitMs intervalMs w)) as ->.
  { unfold exec. by rewrite (start_not_running execute awaitMs _ _ Hnr). }
  set (w1 := after_started awaitMs intervalMs w).
  destruct (tick_timers w1) as (Hid & Hint & _).
  assert (status (self (exec tick w1)) ≠ stopped) as Hns.
  { destruct (tick_status w1) as [-> | ->]; [|done].
    subst w1. unfold after_started. rewrite Harms. simpl. done. }
  destruct (stop_not_stopped (exec tick w1) Hns)
    as (w2 & Hrun & Hst & Hnone & Hints & _).
  unfold exec at 1 3 5. rewrite Hrun. simpl.
  split_and!; [|done|done].
  rewrite Hints, Hid, Hint. subst w1. unfold after_started.
  rewrite Harms. simpl. rewrite filter_app.
  rewrite (filter_cons _ (nextTimer (rt w), default 0 intervalMs) []).
  rewrite decide_False by (simpl; intros H; by apply H).
  rewrite filter_nil, app_nil_r.
  apply filter_keeps_all. intros p Hp. by apply Hfresh.
Qed.

(** X11. When [start] returns, the status is [running] or [error]: a
    tick changes the status only to [error]. *)
Theorem status_after_start (intervalMs : option Z) (w : World) :
  (status (self (exec tick w)) = status (self w) ∨
   status (self (exec tick w)) = error) ∧
  (status (self (exec (start intervalMs) w)) = running ∨
   status (self (exec (start intervalMs) w)) = error).
Proof.
  split; [apply tick_status|].
  destruct (decide (status (self w) = running)) as [Hr|Hnr].
  - left. unfold exec. by rewrite (start_running execute awaitMs _ _ Hr).
  - assert (exec (start intervalMs) w
            = exec tick (after_started awaitMs intervalMs w)) as ->.
    { unfold exec. by rewrite (start_not_running execute awaitMs _ _ Hnr). }
    destruct (tick_status (after_started awaitMs intervalMs w)) as [-> | ->];
      [left | by right].
    unfold after_started. by destruct (truthy intervalMs).
Qed.

(** X12. A cycle whose attempts all fail halts the engine: the tick
    leaves the status [error] and counts one failed execution, and from
    then on every tick is skipped and [pause] and [resume] do nothing,
    although the periodic trigger stays armed. *)
Theorem terminal_failure_halts (w : World) :
  eligible (self w) = true →
  (∀ (i : nat) ctx,
     (i < Z.to_nat (maxRetries (config (self w))))%nat →
     ∃ reason d,
       race (timeoutMs (config (self w)))
         (execute (executions (rt w) + i)%nat ctx) = (inr reason, d)) →
  let w' := exec tick w in
  status (self w') = error ∧
  totalExecutions (metrics (self w'))
    = totalExecutions (metrics (self w)) + 1 ∧
  failedExecutions (metrics (self w'))
    = failedExecutions (metrics (self w)) + 1 ∧
  successfulExecutions (metrics (self w'))
    = successfulExecutions (metrics (self w)) ∧
  intervals (rt w') = intervals (rt w) ∧
  (∀ n, Agent.ticks execute awaitMs n w' = (Returned tt, w')) ∧
  pause w' = (Returned tt, w') ∧
  resume w' = (Returned tt, w').
Proof.
  intros Hel Hfail w'. subst w'.
  destruct (tick_begin_end execute awaitMs w [] 0%nat 0%nat Hel)
    as (result & last & t & Hres & Hs).
  assert (success result = false) as Hfalse.
  { destruct (cycle_loop_spec execute awaitMs (next_iteration w))
      as (k & c & w2 & _ & Hk & _ & _ & _ & _ & Hc).
    destruct c as [res|lst].
    - destruct Hc as (_ & _ & Hkpos & ctx & data & d & Hrace). simpl in *.
      destruct (Hfail (k - 1)%nat ctx) as (reason & d' & Hr); [lia|].
      replace (executions (rt w) + (k - 1))%nat
        with (executions (rt w) + k - 1)%nat in Hr by lia.
      by rewrite Hrace in Hr.
    - destruct Hc as (Hrun & _). unfold eval in Hres. rewrite Hrun in Hres.
      simpl in Hres. by simplify_eq. }
  assert (status (self (exec tick w)) = error) as Hst.
  { rewrite Hs. unfold Scheduler.tick_end. by rewrite Hfalse. }
  split; [done|].
  split_and!.
  - rewrite Hs. unfold Scheduler.tick_end, Scheduler.tick_begin. simpl.
    rewrite Hel, Hfalse. simpl. done.
  - rewrite Hs. unfold Scheduler.tick_end, Scheduler.tick_begin. simpl.
    rewrite Hel, Hfalse. simpl. done.
  - rewrite Hs. unfold Scheduler.tick_end, Scheduler.tick_begin. simpl.
    rewrite Hel, Hfalse. simpl. done.
  - apply tick_timers.
  - intros n. apply ticks_skipped, eligible_false. left. by rewrite Hst.
  - apply pause_not_running. by rewrite Hst.
  - apply resume_not_paused. by rewrite Hst.
Qed.

(** X13. A cycle whose first attempt succeeds: the status and
    [context.lastError] stay as they were, one successful execution is
    counted, the only attempt made is attempt 0 and no wait is made; the
    result carries the data and, as [executionTimeMs], the time from the
    entry of the cycle to the settling of the attempt, the emission of
    [EXECUTION_COMPLETE] not included. *)
Theorem first_attempt_success (w : World) (value : T) (d : Z) :
  eligible (self w) = true →
  1 ≤ maxRetries (config (self w)) →
  race (timeoutMs (config (self w)))
    (execute (executions (rt w)) (context (self (next_iteration w))))
    = (inl value, d) →
  let w' := exec tick w in
  status (self w') = status (self w) ∧
  lastError (context (self w')) = lastError (context (self w)) ∧
  iteration (context (self w')) = iteration (context (self w)) + 1 ∧
  totalExecutions (metrics (self w'))
    = totalExecutions (metrics (self w)) + 1 ∧
  successfulExecutions (metrics (self w'))
    = successfulExecutions (metrics (self w)) + 1 ∧
  failedExecutions (metrics (self w')) = failedExecutions (metrics (self w)) ∧
  schedule (trace (rt w')) = schedule (trace (rt w)) ++ [Attempt 0] ∧
  ∃ result,
    eval executeWithRetry (next_iteration w) = Returned result ∧
    success result = true ∧
    data result = Some value ∧
    err result = None ∧
    executionTimeMs result
      = awaitMs (execution_start (next_iteration w)) + d ∧
    lastExecutionAt (metrics (self w')) = Some (timestamp result).
Proof.
  intros Hel Hmax Hrace w'. subst w'.
  set (w0 := next_iteration w).
  assert (retry_loop (Z.to_nat (maxRetries (config (self w0)))) 0
            (now (rt w0)) None (after_start awaitMs w0)
          = (Returned (inl (success_result awaitMs value d (now (rt w0))
                              (after_start awaitMs w0))),
             after_success awaitMs 0 value d (now (rt w0))
               (after_start awaitMs w0))) as Hloop.
  { destruct (Z.to_nat (maxRetries (config (self w0)))) as [|fuel] eqn:Hf.
    - subst w0. simpl in Hf. lia.
    - apply retry_loop_success; [subst w0; simpl; lia | done]. }
  pose proof (executeWithRetry_success execute awaitMs w0 _ _ Hloop) as Hrun.
  unfold exec. rewrite (tick_eligible execute awaitMs w _ _ Hel Hrun). simpl.
  split_and!; try done.
  - rewrite !schedule_app. simpl. by rewrite !app_nil_r.
  - eexists. unfold eval. rewrite Hrun. simpl. split_and!; try done. unfold success_result, after_start. simpl. lia.
Qed.

(** *** Invariants of the context *)

Ltac keeps_fields :=
  solve [ repeat
    match goal with
    | |- keeps _ (ret _) => apply keeps_ret
    | |- keeps _ (throw _) => apply keeps_throw
    | |- keeps _ (gets _) => apply keeps_gets
    | |- keeps _ get => apply keeps_get
    | |- keeps _ (bind _ _) => apply keeps_bind; [|intros ?]
    | |- keeps _ (try_catch _ _) => apply keeps_try_catch; [|intros ?]
    | |- keeps _ (modify _) =>
        apply keeps_modify;
        let H := fresh in
        intros [? ?] H; simpl in *; first [exact H | by eauto]
    | |- keeps _ (let _ := _ in _) => cbv zeta
    | |- keeps _ (if ?b then _ else _) => destruct b
    | |- keeps _ (match ?x with _ => _ end) => destruct x
    end ].

Ltac unfold_engine :=
  repeat progress
    (try unfold Agent.emit_event; try unfold Agent.hook; try unfold perform;
     try unfold delay; try unfold call_execute; try unfold withTimeout;
     try unfold setInterval; try unfold clearInterval; try unfold record;
     try unfold advance; try unfold update; try unfold this;
     try unfold Date_now).

Lemma sticky_retry_loop fuel : ∀ attempt startTime last,
  keeps has_error (retry_loop fuel attempt startTime last).
Proof.
  unfold has_error.
  induction fuel as [|fuel IH]; intros attempt startTime last; simpl.
  - apply keeps_ret.
  - apply keeps_bind; [apply keeps_gets|]. intros a.
    destruct (attempt <? maxRetries (config a)); [|apply keeps_ret].
    apply keeps_bind.
    + unfold_engine. keeps_fields.
    + intros [result|e]; [apply keeps_ret | apply IH].
Qed.

Lemma sticky_tick : keeps has_error tick.
Proof.
  unfold Agent.tick, Agent.executeWithRetry.
  apply keeps_bind; [apply keeps_gets|]. intros a.
  destruct (negb (eligible a)); [apply keeps_ret|].
  apply keeps_bind; [unfold has_error; unfold_engine; keeps_fields|]. intros _.
  apply keeps_bind.
  { apply keeps_bind; [apply keeps_gets|]. intros startTime.
    apply keeps_bind; [apply keeps_gets|]. intros a0.
    apply keeps_bind; [unfold has_error; unfold_engine; keeps_fields|].
    intros _. apply keeps_bind; [apply keeps_gets|]. intros a'.
    apply keeps_bind; [apply sticky_retry_loop|].
    intros [result|last]; unfold has_error; unfold_engine; keeps_fields. }
  intros result. unfold has_error. unfold_engine. keeps_fields.
Qed.

(** X14. [context.lastError] is sticky: once an attempt has failed, no
    call of the engine clears the error, not even a cycle that
    succeeds. *)
Theorem lastError_is_sticky (calls : list Call) (w : World) :
  is_Some (lastError (context (self w))) →
  is_Some (lastError (context (self (exec (for_each call calls) w)))).
Proof.
  apply (keeps_for_each has_error). intros c.
  destruct c as [intervalMs| | | |]; simpl.
  - unfold Agent.start.
    apply keeps_bind; [apply keeps_gets|]. intros a.
    destruct (bool_decide (status a = running)); [apply keeps_ret|].
    apply keeps_bind; [apply keeps_gets|]. intros t.
    apply keeps_bind; [unfold has_error; unfold_engine; keeps_fields|].
    intros _.
    apply keeps_bind; [unfold has_error; unfold_engine; keeps_fields|].
    intros _. apply keeps_bind; [apply keeps_gets|]. intros a'.
    apply keeps_bind; [unfold has_error; unfold_engine; keeps_fields|].
    intros _.
    apply keeps_bind; [unfold has_error; unfold_engine; keeps_fields|].
    intros _. apply sticky_tick.
  - unfold Agent.stop, has_error. unfold_engine. keeps_fields.
  - unfold Agent.pause, has_error. unfold_engine. keeps_fields.
  - unfold Agent.resume, has_error. unfold_engine. keeps_fields.
  - apply sticky_tick.
Qed.

Lemma counted_tick : keeps counted tick.
Proof.
  intros w Hw. destruct (eligible (self w)) eqn:Hel.
  - destruct (executeWithRetry_runs execute awaitMs (next_iteration w))
      as (result & w1 & Hrun).
    unfold exec. rewrite (tick_eligible execute awaitMs w result w1 Hel Hrun).
    pose proof (keeps_executeWithRetry execute awaitMs
      (fun w' => iteration (context (self w'))
                 = iteration (context (self w)) + 1 ∧
                 metrics (self w') = metrics (self w))) as Hkeep.
    specialize (Hkeep ltac:(by split_and!) (next_iteration w)
                  ltac:(by split)).
    unfold exec in Hkeep. rewrite Hrun in Hkeep. simpl in Hkeep.
    destruct Hkeep as [Hi Hm].
    unfold counted in *. simpl. rewrite Hi, Hm. lia.
  - unfold exec. by rewrite (tick_skipped execute awaitMs w Hel).
Qed.

Lemma counted_call (c : Call) : keeps counted (call c).
Proof.
  destruct c as [intervalMs| | | |]; simpl.
  - intros w Hw. destruct (decide (status (self w) = running)) as [Hr|Hnr].
    + unfold exec. by rewrite (start_running execute awaitMs _ _ Hr).
    + unfold exec. rewrite (start_not_running execute awaitMs _ _ Hnr).
      apply counted_tick. unfold counted, after_started in *.
      by destruct (truthy intervalMs).
  - unfold Agent.stop, counted. unfold_engine. keeps_fields.
  - unfold Agent.pause, counted. unfold_engine. keeps_fields.
  - unfold Agent.resume, counted. unfold_engine. keeps_fields.
  - apply counted_tick.
Qed.

Lemma turn_counted (t : Scheduler.Turn T) (s : Scheduler.State) :
  iteration (context (Scheduler.engine s))
    = totalExecutions (metrics (Scheduler.engine s))
      + Z.of_nat (Scheduler.pending s) →
  iteration (context (Scheduler.engine (Scheduler.turn t s)))
    = totalExecutions (metrics (Scheduler.engine (Scheduler.turn t s)))
      + Z.of_nat (Scheduler.pending (Scheduler.turn t s)).
Proof.
  intros H. destruct t as [timer|result last t| intervalMs t| | |];
    cbn [Scheduler.turn].
  - case_bool_decide; [|done]. unfold Scheduler.tick_begin.
    destruct (negb _); simpl; [done | lia].
  - destruct (Scheduler.pending s) eqn:E; [by rewrite E|]. simpl.
    unfold Scheduler.tick_end. destruct (success result); simpl; lia.
  - case_bool_decide; [done|]. unfold Scheduler.tick_begin.
    destruct (truthy intervalMs); destruct (negb _); simpl in *; lia.
  - case_bool_decide; simpl; done.
  - destruct (negb _); simpl; done.
  - destruct (negb _); simpl; done.
Qed.

(** X15. [context.iteration] counts the cycles: from the construction
    of an engine on, after every sequence of calls run to their end it
    equals [totalExecutions]; in the event loop it equals
    [totalExecutions] plus the number of cycles still pending. *)
Theorem iteration_counts_cycles (c : AgentConfig) (t0 : Z) (r : Runtime T)
    (calls : list Call) (turns : list (Scheduler.Turn T)) :
  let after_calls :=
    exec (for_each call calls) {| self := Agent.new c t0; rt := r |} in
  let after_turns := Scheduler.run turns (Scheduler.init (Agent.new c t0)) in
  iteration (context (self after_calls))
    = totalExecutions (metrics (self after_calls)) ∧
  iteration (context (Scheduler.engine after_turns))
    = totalExecutions (metrics (Scheduler.engine after_turns))
      + Z.of_nat (Scheduler.pending after_turns).
Proof.
  split.
  - apply (keeps_for_each counted); [apply counted_call | done].
  - unfold Scheduler.run.
    assert (iteration (context (Scheduler.engine (Scheduler.init (Agent.new c t0))))
            = totalExecutions (metrics (Scheduler.engine
                                          (Scheduler.init (Agent.new c t0))))
              + Z.of_nat (Scheduler.pending (Scheduler.init (Agent.new c t0))))
      as H by done.
    revert H. generalize (Scheduler.init (Agent.new c t0)).
    induction turns as [|t ts IH]; intros s H; simpl; [done|].
    by apply IH, turn_counted.
Qed.




(** *** The configuration is never written *)

Lemma config_retry_loop (c0 : Config) fuel : ∀ attempt startTime last,
  keeps (fun w : World => config (self w) = c0)
    (retry_loop fuel attempt startTime last).
Proof.
  induction fuel as [|fuel IH]; intros attempt startTime last; simpl.
  - apply keeps_ret.
  - apply keeps_bind; [apply keeps_gets|]. intros a.
    destruct (attempt <? maxRetries (config a)); [|apply keeps_ret].
    apply keeps_bind.
    + unfold_engine. keeps_fields.
    + intros [result|e]; [apply keeps_ret | apply IH].
Qed.

Lemma config_tick (c0 : Config) :
  keeps (fun w : World => config (self w) = c0) tick.
Proof.
  unfold Agent.tick, Agent.executeWithRetry.
  apply keeps_bind; [apply keeps_gets|]. intros a.
  destruct (negb (eligible a)); [apply keeps_ret|].
  apply keeps_bind; [unfold_engine; keeps_fields|]. intros _.
  apply keeps_bind.
  { apply keeps_bind; [apply keeps_gets|]. intros startTime.
    apply keeps_bind; [apply keeps_gets|]. intros a0.
    apply keeps_bind; [unfold_engine; keeps_fields|].
    intros _. apply keeps_bind; [apply keeps_gets|]. intros a'.
    apply keeps_bind; [apply config_retry_loop|].
    intros [result|last]; unfold_engine; keeps_fields. }
  intros result. unfold_engine. keeps_fields.
Qed.

(** No call on the engine changes its configuration. *)
Lemma config_call (c : Call) (w : World) :
  config (self (exec (call c) w)) = config (self w).
Proof.
  revert w.
  assert (∀ c0, keeps (fun w : World => config (self w) = c0) (call c)) as H.
  { intros c0. destruct c as [intervalMs| | | |]; simpl.
    - unfold Agent.start.
      apply keeps_bind; [apply keeps_gets|]. intros a.
      destruct (bool_decide (status a = running)); [apply keeps_ret|].
      apply keeps_bind; [apply keeps_gets|]. intros t.
      apply keeps_bind; [unfold_engine; keeps_fields|]. intros _.
      apply keeps_bind; [unfold_engine; keeps_fields|]. intros _.
      apply keeps_bind; [apply keeps_gets|]. intros a'.
      apply keeps_bind; [unfold_engine; keeps_fields|]. intros _.
      apply keeps_bind; [unfold_engine; keeps_fields|]. intros _.
      apply config_tick.
    - unfold Agent.stop. unfold_engine. keeps_fields.
    - unfold Agent.pause. unfold_engine. keeps_fields.
    - unfold Agent.resume. unfold_engine. keeps_fields.
    - apply config_tick. }
  intros w. by apply (H (config (self w)) w).
Qed.

(** [stop], [pause] and [resume] leave the metrics and the context as
    they are. *)
Lemma quiet_call (c : Call) (w : World) :
  (∀ intervalMs, c ≠ CStart intervalMs) → c ≠ CTick →
  metrics (self (exec (call c) w)) = metrics (self w) ∧
  context (self (exec (call c) w)) = context (self w).
Proof.
  intros Hstart Htick. revert w.
  assert (∀ x y, keeps (fun w : World =>
            metrics (self w) = x ∧ context (self w) = y) (call c)) as H.
  { intros x y. destruct c as [intervalMs| | | |]; simpl.
    - by destruct (Hstart intervalMs).
    - unfold Agent.stop. unfold_engine. keeps_fields.
    - unfold Agent.pause. unfold_engine. keeps_fields.
    - unfold Agent.resume. unfold_engine. keeps_fields.
    - done. }
  intros w. by apply (H _ _ w).
Qed.

Lemma returns_hook h : returns (hook h).
Proof. unfold Agent.hook. apply returns_perform. Qed.

Lemma returns_update (f : BaseAgent → BaseAgent) : returns (update (T:=T) f).
Proof. apply returns_modify. Qed.

(** No call on the engine throws. *)
Lemma returns_call (c : Call) : returns (call c).
Proof.
  destruct c as [intervalMs| | | |]; simpl.
  - apply returns_start.
  - unfold Agent.stop.
    apply returns_bind; [apply returns_gets|]. intros a.
    destruct (bool_decide _); [apply returns_ret|].
    apply returns_bind.
    { destruct (intervalId a); [|apply returns_ret].
      apply returns_bind; [|intros _; apply returns_update].
      unfold clearInterval.
      apply returns_bind; [apply returns_modify|]. intros _.
      unfold record. apply returns_modify. }
    intros _. apply returns_bind; [apply returns_update|]. intros _.
    apply returns_bind; [apply returns_hook|]. intros _.
    apply returns_bind; [apply returns_gets|]. intros a'.
    apply returns_emit.
  - unfold Agent.pause.
    apply returns_bind; [apply returns_gets|]. intros a.
    destruct (negb _); [apply returns_ret|].
    apply returns_bind; [apply returns_update|]. intros _.
    apply returns_bind; [apply returns_hook|]. intros _.
    apply returns_emit.
  - unfold Agent.resume.
    apply returns_bind; [apply returns_gets|]. intros a.
    destruct (negb _); [apply returns_ret|].
    apply returns_bind; [apply returns_update|]. intros _.
    apply returns_bind; [apply returns_hook|]. intros _.
    apply returns_emit.
  - apply returns_tick.
Qed.
End AgentMore.

(** ** More on the fleet manager *)

Section ManagerMore.
Import Agent Manager.
Context {T : Type}.
Variable execute : nat → AgentContext → Work T.
Variable awaitMs : Action T → Z.

Local Abbreviation AgentManager := (Manager.AgentManager T).
Local Abbreviation manager_op := (Manager.manager_op execute awaitMs).
Local Abbreviation engine_op := (Manager.engine_op execute awaitMs).
Local Abbreviation unregister := (Manager.unregister awaitMs).
Local Abbreviation manager_call := (Manager.manager_call execute awaitMs).
Local Abbreviation call := (Agent.call execute awaitMs).

(** The engine operation behind a lifecycle operation, as a call. *)
Lemma engine_op_call (l : Lifecycle) (managed : ManagedAgent) :
  engine_op l managed =
    call match l with
         | LStart => CStart (intervalMs managed)
         | LStop => CStop
         | LPause => CPause
         | LResume => CResume
         end.
Proof. by destruct l. Qed.

Lemma manager_op_absent (l : Lifecycle) (agentId : string) (m : AgentManager) :
  agents m !! agentId = None →
  manager_op l agentId m = (Threw (not_found agentId), m).
Proof.
  intros Hnone.
  destruct l; simpl;
    unfold startAgent, stopAgent, pauseAgent, resumeAgent, bind, get, throw;
    by rewrite Hnone.
Qed.

Lemma manager_op_present (l : Lifecycle) (agentId : string) (m : AgentManager)
    (managed : ManagedAgent) :
  agents m !! agentId = Some managed →
  manager_op l agentId m = delegate agentId managed (engine_op l managed) m.
Proof.
  intros Hin.
  destruct l; simpl;
    unfold startAgent, stopAgent, pauseAgent, resumeAgent, bind, get;
    by rewrite Hin.
Qed.

Lemma register_fresh (a : BaseAgent) (i : option Z) (m : AgentManager) :
  agents m !! id (config a) = None →
  register a i m =
    (Returned tt,
     {| agents := <[id (config a) := {| agent := a; intervalMs := i |}]>
                    (agents m);
        runtime := runtime m |}).
Proof.
  intros Hnone. unfold register, bind, get, modify.
  rewrite bool_decide_eq_false_2; [done|].
  rewrite Hnone. by intros [? ?].
Qed.

Lemma register_present (a : BaseAgent) (i : option Z) (m : AgentManager) :
  is_Some (agents m !! id (config a)) →
  register a i m = (Threw (already_registered (id (config a))), m).
Proof.
  intros Hin. unfold register, bind, get, throw.
  by rewrite bool_decide_eq_true_2.
Qed.

Lemma unregister_absent (agentId : string) (m : AgentManager) :
  agents m !! agentId = None → unregister agentId m = (Returned tt, m).
Proof.
  intros Hnone. unfold Manager.unregister, bind, get, ret. by rewrite Hnone.
Qed.

Lemma unregister_present (agentId : string) (m : AgentManager)
    (managed : ManagedAgent) :
  agents m !! agentId = Some managed →
  unregister agentId m =
    (Returned tt,
     {| agents := delete agentId (agents m);
        runtime :=
          rt (exec (Agent.stop awaitMs)
                {| self := agent managed; rt := runtime m |}) |}).
Proof.
  intros Hin. unfold Manager.unregister, bind, get, detached, modify, delegate.
  rewrite Hin. simpl. unfold exec. f_equal. f_equal.
  apply delete_insert_eq.
Qed.

(** X17. [register] with a new id returns, files the engine under its id
    with the interval given, raises the count by one and leaves the other
    entries and the runtime as they were; [unregister] of that id then
    gives the registry back, and the whole manager when the engine is
    stopped. *)
Theorem register_unregister_round_trip (a : BaseAgent) (i : option Z)
    (m : AgentManager) :
  agents m !! id (config a) = None →
  let m1 := exec (register a i) m in
  eval (register a i) m = Returned tt ∧
  agents m1 !! id (config a) = Some {| agent := a; intervalMs := i |} ∧
  getAgent (id (config a)) m1 = Some a ∧
  getAgentCount m1 = S (getAgentCount m) ∧
  runtime m1 = runtime m ∧
  (∀ other, other ≠ id (config a) → agents m1 !! other = agents m !! other) ∧
  agents (exec (unregister (id (config a))) m1) = agents m ∧
  (status a = stopped → exec (unregister (id (config a))) m1 = m).
Proof.
  intros Hnone m1. subst m1. unfold exec at 1 2 3 4 5 7 9, eval.
  rewrite (register_fresh a i m Hnone). simpl.
  set (m1 := {| agents := _; runtime := runtime m |}).
  assert (agents m1 !! id (config a)
          = Some {| agent := a; intervalMs := i |}) as Hin
    by apply lookup_insert_eq.
  split_and!; try done.
  - unfold getAgent. by rewrite Hin.
  - unfold getAgentCount. simpl. by rewrite map_size_insert_None.
  - intros other Hne. by apply lookup_insert_ne.
  - unfold exec. rewrite (unregister_present _ m1 _ Hin). simpl.
    by rewrite delete_insert_eq, delete_id.
  - intros Hs. unfold exec. rewrite (unregister_present _ m1 _ Hin). simpl.
    rewrite delete_insert_eq, delete_id by done.
    unfold exec. rewrite (stop_stopped awaitMs) by done.
    by destruct m.
Qed.

(** X18. [unregister] of an id that is not registered returns and
    changes nothing, where [stopAgent] throws.  For a registered id it
    returns, removes that entry and no other, and lowers the count by
    one; unless the engine was stopped already, the periodic trigger
    the engine holds is cancelled and the other triggers stay armed,
    among them a trigger that an earlier [start] of the same engine
    armed and that the engine no longer holds. *)
Theorem unregister_stops_and_forgets (agentId : string) (m : AgentManager) :
  (agents m !! agentId = None →
   unregister agentId m = (Returned tt, m) ∧
   eval (stopAgent awaitMs agentId) m = Threw (not_found agentId)) ∧
  (∀ managed, agents m !! agentId = Some managed →
     let m1 := exec (unregister agentId) m in
     eval (unregister agentId) m = Returned tt ∧
     agents m1 !! agentId = None ∧
     (∀ other, other ≠ agentId → agents m1 !! other = agents m !! other) ∧
     S (getAgentCount m1) = getAgentCount m ∧
     (status (agent managed) = stopped → runtime m1 = runtime m) ∧
     (status (agent managed) ≠ stopped →
        (∀ timer, intervalId (agent managed) = Some timer →
           intervals (runtime m1)
             = filter (fun p => p.1 ≠ timer) (intervals (runtime m)) ∧
           ∀ p, p ∈ intervals (runtime m1) → p.1 ≠ timer) ∧
        (intervalId (agent managed) = None →
           intervals (runtime m1) = intervals (runtime m)))).
Proof.
  split.
  - intros Hnone. split; [by apply unregister_absent|].
    unfold eval, stopAgent, bind, get, throw. by rewrite Hnone.
  - intros managed Hin m1. subst m1. unfold exec at 1 2 3 4 5 6 7, eval.
    rewrite (unregister_present _ _ _ Hin). simpl. split_and!.
    + done.
    + apply lookup_delete_eq.
    + intros other Hne. by apply lookup_delete_ne.
    + unfold getAgentCount. simpl.
      rewrite map_size_delete, Hin.
      pose proof (map_size_ne_0_lookup_2 (agents m) agentId
                    (mk_is_Some _ _ Hin)). lia.
    + intros Hs. unfold exec. by rewrite (stop_stopped awaitMs).
    + intros Hs.
      destruct (stop_not_stopped awaitMs
                  {| self := agent managed; rt := runtime m |} Hs)
        as (w1 & Hstop & _ & _ & Hint & _).
      unfold exec. rewrite Hstop. simpl in *. split_and!.
      * intros timer Ht. rewrite Ht in Hint. split; [done|].
        intros p Hp. rewrite Hint in Hp.
        by apply list_elem_of_filter in Hp as [? _].
      * intros Ht. by rewrite Ht in Hint.
Qed.

(** X19. A lifecycle operation of the manager touches the engine it names
    and no other: every other entry and the count are as before.  When
    the id is registered the operation returns, and the entry it leaves
    holds the same interval and an engine with the same configuration. *)
Theorem lifecycle_touches_one_engine (l : Lifecycle) (agentId : string)
    (m : AgentManager) :
  let m1 := exec (manager_op l agentId) m in
  (∀ other, other ≠ agentId → agents m1 !! other = agents m !! other) ∧
  getAgentCount m1 = getAgentCount m ∧
  (∀ managed, agents m !! agentId = Some managed →
     eval (manager_op l agentId) m = Returned tt ∧
     ∃ a, agents m1 !! agentId
            = Some {| agent := a; intervalMs := intervalMs managed |} ∧
          config a = config (agent managed)).
Proof.
  intros m1. subst m1.
  destruct (agents m !! agentId) as [managed|] eqn:Hin.
  - unfold exec, eval. rewrite (manager_op_present _ _ _ _ Hin).
    unfold delegate. simpl. split_and!.
    + intros other Hne. by apply lookup_insert_ne.
    + unfold getAgentCount. simpl.
      by rewrite map_size_insert_Some.
    + intros ? [= <-]. split.
      * rewrite engine_op_call.
        destruct (returns_call execute awaitMs
                    match l with
                    | LStart => CStart (intervalMs managed)
                    | LStop => CStop
                    | LPause => CPause
                    | LResume => CResume
                    end {| self := agent managed; rt := runtime m |})
          as [[] Hr].
        exact Hr.
      * eexists. split; [apply lookup_insert_eq|].
        rewrite engine_op_call. apply (config_call execute awaitMs).
  - unfold exec. rewrite (manager_op_absent _ _ _ Hin). simpl.
    by split_and!.
Qed.

Lemma keyed_register (a : BaseAgent) (i : option Z) :
  keeps keyed (register (T:=T) a i).
Proof.
  intros m Hk. unfold exec.
  destruct (agents m !! id (config a)) as [existing|] eqn:Hin.
  - by rewrite register_present.
  - rewrite register_fresh by done. simpl.
    intros key managed. simpl.
    destruct (decide (key = id (config a))) as [->|Hne].
    + rewrite lookup_insert_eq. by intros [= <-].
    + rewrite lookup_insert_ne by done. apply Hk.
Qed.

Lemma keyed_unregister (agentId : string) : keeps keyed (unregister agentId).
Proof.
  intros m Hk. unfold exec.
  destruct (agents m !! agentId) as [managed|] eqn:Hin.
  - rewrite (unregister_present _ _ _ Hin). simpl.
    intros key managed'. simpl.
    destruct (decide (key = agentId)) as [->|Hne].
    + by rewrite lookup_delete_eq.
    + rewrite lookup_delete_ne by done. apply Hk.
  - by rewrite unregister_absent.
Qed.

Lemma keyed_manager_op (l : Lifecycle) (agentId : string) :
  keeps keyed (manager_op l agentId).
Proof.
  intros m Hk. unfold exec.
  destruct (agents m !! agentId) as [managed|] eqn:Hin.
  - rewrite (manager_op_present _ _ _ _ Hin). unfold delegate. simpl.
    intros key managed'. simpl.
    destruct (decide (key = agentId)) as [->|Hne].
    + rewrite lookup_insert_eq. intros [= <-]. simpl.
      rewrite engine_op_call.
      pose proof (config_call execute awaitMs
                    match l with
                    | LStart => CStart (intervalMs managed)
                    | LStop => CStop
                    | LPause => CPause
                    | LResume => CResume
                    end {| self := agent managed; rt := runtime m |}) as Hc.
      unfold exec in Hc. rewrite Hc. simpl. by apply Hk.
    + rewrite lookup_insert_ne by done. apply Hk.
  - by rewrite manager_op_absent.
Qed.

(** X20. Whatever calls a client makes on a manager, starting from the
    empty one, every engine is filed under its own id: [getAgent] with an
    id gives an engine whose configuration holds that id. *)
Theorem engines_filed_under_their_id (calls : list ManagerCall)
    (r : Runtime T) (agentId : string) (a : BaseAgent) :
  getAgent agentId (exec (for_each manager_call calls) (fresh_manager r))
    = Some a →
  id (getConfig a) = agentId.
Proof.
  assert (keyed (exec (for_each manager_call calls) (fresh_manager r))) as Hk.
  { apply (keeps_for_each keyed).
    - intros [a' i|agentId'|l agentId']; simpl.
      + apply keyed_register.
      + apply keyed_unregister.
      + apply keyed_manager_op.
    - intros key managed. unfold fresh_manager. simpl.
      by rewrite lookup_empty. }
  unfold getAgent. intros Hget.
  destruct (agents _ !! agentId) as [managed|] eqn:Hin; [|done].
  simpl in Hget. injection Hget as <-. by apply Hk.
Qed.

(** *** Fleet metrics *)

Lemma fold_add_metrics (ms : list AgentMetrics) : ∀ acc,
  sum_totalExecutions (fold_left add_metrics ms acc)
    = sum_totalExecutions acc + foldr Z.add 0 (totalExecutions <$> ms) ∧
  sum_successfulExecutions (fold_left add_metrics ms acc)
    = sum_successfulExecutions acc
      + foldr Z.add 0 (successfulExecutions <$> ms) ∧
  sum_failedExecutions (fold_left add_metrics ms acc)
    = sum_failedExecutions acc + foldr Z.add 0 (failedExecutions <$> ms) ∧
  (sum_totalTime (fold_left add_metrics ms acc)
   == sum_totalTime acc + weighted_time ms)%Q.
Proof.
  induction ms as [|x ms IH]; intros acc.
  - cbn. split_and!; try lia. ring.
  - cbn [fold_left]. destruct (IH (add_metrics acc x)) as (H1 & H2 & H3 & H4).
    rewrite H1, H2, H3, H4. unfold add_metrics.
    cbn [sum_totalExecutions sum_successfulExecutions sum_failedExecutions
         sum_totalTime weighted_time foldr fmap list_fmap].
    split_and!; try lia. fold (weighted_time ms). ring.
Qed.

Lemma aggregate_fields (ms : list AgentMetrics) :
  agg_totalExecutions (aggregate ms)
    = foldr Z.add 0 (totalExecutions <$> ms) ∧
  agg_successfulExecutions (aggregate ms)
    = foldr Z.add 0 (successfulExecutions <$> ms) ∧
  agg_failedExecutions (aggregate ms)
    = foldr Z.add 0 (failedExecutions <$> ms) ∧
  (agg_averageExecutionTimeMs (aggregate ms)
   == if (0 <? foldr Z.add 0 (totalExecutions <$> ms))%Z
      then weighted_time ms
           / inject_Z (foldr Z.add 0%Z (totalExecutions <$> ms))
      else 0)%Q.
Proof.
  destruct ms as [|x ms]; [by simpl|].
  unfold aggregate. cbv zeta.
  destruct (fold_add_metrics (x :: ms)
              {| sum_totalExecutions := 0; sum_successfulExecutions := 0;
                 sum_failedExecutions := 0; sum_totalTime := 0%Q |})
    as (H1 & H2 & H3 & H4).
  cbn [agg_totalExecutions agg_successfulExecutions agg_failedExecutions
       agg_averageExecutionTimeMs].
  rewrite H1, H2, H3. cbn [sum_totalExecutions sum_successfulExecutions
    sum_failedExecutions sum_totalTime] in *.
  rewrite !Z.add_0_l. split_and!; try done.
  destruct (0 <? _); [|reflexivity].
  rewrite H4. by rewrite Qplus_0_l.
Qed.

Lemma sum_consistent (ms : list AgentMetrics) :
  Forall consistent ms →
  foldr Z.add 0 (totalExecutions <$> ms)
  = foldr Z.add 0 (successfulExecutions <$> ms)
    + foldr Z.add 0 (failedExecutions <$> ms).
Proof.
  induction 1 as [|x ms Hx _ IH]; [done|].
  rewrite !fmap_cons. cbn [foldr]. unfold consistent in Hx. lia.
Qed.

Lemma weighted_time_Permutation (ms ms' : list AgentMetrics) :
  ms ≡ₚ ms' → (weighted_time ms == weighted_time ms')%Q.
Proof.
  induction 1 as [|x ms ms' _ IH|x y ms|ms ms' ms'' _ IH1 _ IH2]; simpl.
  - reflexivity.
  - by rewrite IH.
  - ring.
  - by rewrite IH1.
Qed.

(** X21. The aggregated metrics of a fleet: each count is the sum of the
    engines' counts, so totals that add up for every engine add up for
    the fleet; the average is zero when no cycle has been recorded, with
    no division by zero, and otherwise it is the time of all recorded
    cycles, each engine's average weighted by its count, divided by
    their number. *)
Theorem aggregate_adds_up (ms : list AgentMetrics) :
  let g := aggregate ms in
  agg_totalExecutions g = foldr Z.add 0 (totalExecutions <$> ms) ∧
  agg_successfulExecutions g = foldr Z.add 0 (successfulExecutions <$> ms) ∧
  agg_failedExecutions g = foldr Z.add 0 (failedExecutions <$> ms) ∧
  (Forall consistent ms →
   agg_totalExecutions g
   = agg_successfulExecutions g + agg_failedExecutions g) ∧
  (agg_totalExecutions g ≤ 0 → agg_averageExecutionTimeMs g = 0%Q) ∧
  (0 < agg_totalExecutions g →
   (agg_averageExecutionTimeMs g * inject_Z (agg_totalExecutions g)
    == weighted_time ms)%Q).
Proof.
  intros g. subst g.
  destruct (aggregate_fields ms) as (H1 & H2 & H3 & H4).
  split_and!; try done.
  - intros Hc. rewrite H1, H2, H3. by apply sum_consistent.
  - intros Hle. destruct ms as [|x ms]; [done|].
    unfold aggregate in *. cbv zeta in *.
    cbn [agg_totalExecutions agg_averageExecutionTimeMs] in *.
    by rewrite (proj2 (Z.ltb_ge _ _) Hle).
  - intros Hlt. rewrite H4, H1. rewrite H1 in Hlt.
    rewrite (proj2 (Z.ltb_lt _ _) Hlt). field.
    change 0%Q with (inject_Z 0). rewrite inject_Z_injective. lia.
Qed.

Lemma aggregate_Permutation (ms ms' : list AgentMetrics) :
  ms ≡ₚ ms' → same_aggregate (aggregate ms) (aggregate ms').
Proof.
  intros Hp. unfold same_aggregate.
  destruct (aggregate_fields ms) as (H1 & H2 & H3 & H4).
  destruct (aggregate_fields ms') as (H1' & H2' & H3' & H4').
  pose proof (sum_Permutation _ _ (fmap_Permutation totalExecutions _ _ Hp))
    as E1.
  pose proof (sum_Permutation _ _
                (fmap_Permutation successfulExecutions _ _ Hp)) as E2.
  pose proof (sum_Permutation _ _ (fmap_Permutation failedExecutions _ _ Hp))
    as E3.
  split_and!; [congruence..|].
  rewrite H4, H4', E1.
  destruct (0 <? foldr Z.add 0 (totalExecutions <$> ms')); [|reflexivity].
  by rewrite (weighted_time_Permutation _ _ Hp).
Qed.

(** The entries of the map when [agentId] is registered, and after its
    entry has been replaced. *)
Lemma managed_agents_present (m : AgentManager) (agentId : string)
    (managed : ManagedAgent) :
  agents m !! agentId = Some managed →
  managed_agents m
  ≡ₚ managed :: (map_to_list (delete agentId (agents m))).*2.
Proof.
  intros Hin. unfold managed_agents.
  by rewrite <- (map_to_list_delete _ _ _ Hin).
Qed.

Lemma managed_agents_replaced (m : AgentManager) (agentId : string)
    (managed' : ManagedAgent) (r : Runtime T) :
  managed_agents {| agents := <[agentId := managed']> (agents m);
                    runtime := r |}
  ≡ₚ managed' :: (map_to_list (delete agentId (agents m))).*2.
Proof.
  unfold managed_agents. simpl.
  rewrite <- insert_delete_eq.
  by rewrite map_to_list_insert by apply lookup_delete_eq.
Qed.

(** X22. The aggregated metrics do not depend on the order in which the
    engines are listed: the counts are the same and so is the average.
    So [getAggregatedMetrics] is the aggregate of the engines' metrics in
    whatever order the map lists them. *)
Theorem aggregate_order_independent (ms ms' : list AgentMetrics)
    (m : AgentManager) (listing : list ManagedAgent) :
  (ms ≡ₚ ms' → same_aggregate (aggregate ms) (aggregate ms')) ∧
  (listing ≡ₚ managed_agents m →
   same_aggregate (getAggregatedMetrics m)
     (aggregate ((fun managed => getMetrics (agent managed)) <$> listing))).
Proof.
  split; [apply aggregate_Permutation|].
  intros Hp. unfold getAggregatedMetrics.
  apply aggregate_Permutation. by rewrite Hp.
Qed.

Lemma sum_app (xs ys : list Z) :
  foldr Z.add 0 (xs ++ ys) = foldr Z.add 0 xs + foldr Z.add 0 ys.
Proof. induction xs as [|x xs IH]; simpl; lia. Qed.

Lemma fleet_totals (m0 : AgentMetrics)
    (fleet : list (list (ExecutionResult T * option Z * Z))) :
  totalExecutions m0 = 0 →
  foldr Z.add 0
    (totalExecutions <$> ((fun cycles => record_cycles cycles m0) <$> fleet))
  = Z.of_nat (length (concat fleet)) ∧
  (weighted_time ((fun cycles => record_cycles cycles m0) <$> fleet)
   == inject_Z (foldr Z.add 0%Z (durations (concat fleet))))%Q.
Proof.
  intros H0. induction fleet as [|cycles fleet [IH1 IH2]].
  - split; [done|]. reflexivity.
  - destruct (record_cycles_total m0 cycles H0) as [Hn Havg].
    rewrite !fmap_cons. cbn [foldr concat]. split.
    + rewrite IH1, Hn, length_app. lia.
    + change (weighted_time (record_cycles cycles m0 :: ?l))
        with (averageExecutionTimeMs (record_cycles cycles m0)
              * inject_Z (totalExecutions (record_cycles cycles m0))
              + weighted_time l)%Q.
      rewrite IH2, Havg. unfold durations. rewrite fmap_app, sum_app.
      by rewrite inject_Z_plus.
Qed.

(** X23. When every engine of a fleet starts from a count of zero, the
    aggregated count is the number of cycles recorded by all engines
    together, and, once there is a cycle, the aggregated average is the
    arithmetic mean of the durations of all those cycles: weighting each
    engine's average by its count loses nothing. *)
Theorem fleet_average_is_mean_of_all_cycles (m0 : AgentMetrics)
    (fleet : list (list (ExecutionResult T * option Z * Z))) :
  totalExecutions m0 = 0 →
  let g := aggregate ((fun cycles => record_cycles cycles m0) <$> fleet) in
  agg_totalExecutions g = Z.of_nat (length (concat fleet)) ∧
  (concat fleet ≠ [] →
   (agg_averageExecutionTimeMs g == mean (durations (concat fleet)))%Q).
Proof.
  intros H0 g. subst g.
  destruct (fleet_totals m0 fleet H0) as [Hn Ht].
  destruct (aggregate_fields
              ((fun cycles => record_cycles cycles m0) <$> fleet))
    as (H1 & _ & _ & H4).
  split; [by rewrite H1|].
  intros Hne. rewrite H4, Hn.
  assert (0 < Z.of_nat (length (concat fleet))) as Hpos.
  { destruct (concat fleet); [done|]. simpl. lia. }
  rewrite (proj2 (Z.ltb_lt _ _) Hpos), Ht.
  unfold mean, durations. by rewrite length_fmap.
Qed.

Lemma running_count_Permutation (xs ys : list ManagedAgent) :
  xs ≡ₚ ys →
  length (filter (fun managed => getStatus (agent managed) = running) xs)
  = length (filter (fun managed => getStatus (agent managed) = running) ys).
Proof. intros Hp. by rewrite Hp. Qed.

(** The running count before and after a lifecycle operation differ by
    the engine the operation names. *)
Lemma running_count_delegate (l : Lifecycle) (agentId : string)
    (m : AgentManager) (managed : ManagedAgent) :
  agents m !! agentId = Some managed →
  let w1 := exec (engine_op l managed)
              {| self := agent managed; rt := runtime m |} in
  (getRunningAgentCount (exec (manager_op l agentId) m)
   + (if decide (status (agent managed) = running) then 1 else 0)
   = getRunningAgentCount m
     + (if decide (status (self w1) = running) then 1 else 0))%nat.
Proof.
  intros Hin w1. subst w1. unfold exec at 1.
  rewrite (manager_op_present _ _ _ _ Hin). unfold delegate. cbn [snd].
  unfold getRunningAgentCount.
  rewrite (running_count_Permutation _ _ (managed_agents_replaced _ _ _ _)).
  rewrite (running_count_Permutation _ _ (managed_agents_present _ _ _ Hin)).
  rewrite !filter_cons. unfold getStatus, exec. cbn [agent].
  repeat case_decide; simpl; lia.
Qed.

Lemma running_count_bound (m : AgentManager) :
  (getRunningAgentCount m ≤ getAgentCount m)%nat.
Proof.
  unfold getRunningAgentCount, getAgentCount, managed_agents.
  etrans; [apply length_filter|].
  by rewrite length_fmap, length_map_to_list.
Qed.

(** X24. The running count never exceeds the number of engines, and it
    follows the lifecycle: pausing or stopping a running engine lowers it
    by one, resuming the paused engine brings it back, and pausing,
    stopping or resuming an engine in a status the operation ignores
    leaves it as it is. *)
Theorem running_count_follows_lifecycle (agentId : string) (m : AgentManager)
    (managed : ManagedAgent) :
  agents m !! agentId = Some managed →
  (getRunningAgentCount m ≤ getAgentCount m)%nat ∧
  (status (agent managed) = running →
   S (getRunningAgentCount (exec (manager_op LPause agentId) m))
     = getRunningAgentCount m ∧
   getRunningAgentCount
     (exec (manager_op LResume agentId) (exec (manager_op LPause agentId) m))
     = getRunningAgentCount m ∧
   S (getRunningAgentCount (exec (manager_op LStop agentId) m))
     = getRunningAgentCount m) ∧
  (status (agent managed) ≠ running →
   getRunningAgentCount (exec (manager_op LPause agentId) m)
     = getRunningAgentCount m ∧
   getRunningAgentCount (exec (manager_op LStop agentId) m)
     = getRunningAgentCount m) ∧
  (status (agent managed) ≠ paused →
   getRunningAgentCount (exec (manager_op LResume agentId) m)
     = getRunningAgentCount m).
Proof.
  intros Hin.
  pose proof (running_count_delegate LPause agentId m managed Hin) as Hp.
  pose proof (running_count_delegate LStop agentId m managed Hin) as Hs.
  pose proof (running_count_delegate LResume agentId m managed Hin) as Hr.
  cbv zeta in Hp, Hs, Hr. cbn [Manager.engine_op] in Hp, Hs, Hr.
  set (w0 := {| self := agent managed; rt := runtime m |}) in *.
  assert (status (agent managed) ≠ stopped →
          status (self (exec (Agent.stop awaitMs) w0)) = stopped) as Hstopped.
  { intros Hns.
    destruct (stop_not_stopped awaitMs w0 Hns) as (w1 & Hstop & Hst1 & _).
    unfold exec. by rewrite Hstop. }
  split_and!.
  - apply running_count_bound.
  - intros Hrun.
    destruct (pause_running awaitMs w0 Hrun) as (Hst & _ & _).
    rewrite Hst in Hp. rewrite decide_True in Hp by done.
    rewrite decide_False in Hp by done.
    rewrite Hstopped in Hs by (by rewrite Hrun).
    rewrite decide_True in Hs by done.
    rewrite decide_False in Hs by done.
    split_and!; [lia| |lia].
    set (m1 := exec (manager_op LPause agentId) m) in *.
    set (w := exec (Agent.pause awaitMs) w0) in *.
    assert (agents m1 !! agentId
            = Some {| agent := self w; intervalMs := intervalMs managed |}
            ∧ runtime m1 = rt w) as [Hin1 Hrt1].
    { subst m1. unfold exec at 1 2.
      rewrite (manager_op_present _ _ _ _ Hin). unfold delegate. cbn [snd].
      cbn [agents runtime Manager.engine_op].
      split; [rewrite lookup_insert_eq|]; reflexivity. }
    pose proof (running_count_delegate LResume agentId m1 _ Hin1) as Hr1.
    cbv zeta in Hr1. cbn [Manager.engine_op agent] in Hr1.
    rewrite Hrt1 in Hr1.
    assert ({| self := self w; rt := rt w |} = w) as Hw by by destruct w.
    rewrite Hw in Hr1.
    destruct (resume_paused awaitMs w Hst) as (Hst2 & _ & _).
    rewrite Hst2, Hst in Hr1.
    rewrite (decide_True (P := running = running)) in Hr1 by done.
    rewrite (decide_False (P := paused = running)) in Hr1 by done. lia.
  - intros Hnr. rewrite decide_False in Hp, Hs by done. split.
    + assert (exec (Agent.pause awaitMs) w0 = w0) as Hex.
      { unfold exec. by rewrite (pause_not_running awaitMs). }
      rewrite Hex in Hp. subst w0. cbn [self] in Hp.
      rewrite decide_False in Hp by done. lia.
    + destruct (decide (status (agent managed) = stopped)) as [Hst|Hns].
      * assert (exec (Agent.stop awaitMs) w0 = w0) as Hex.
        { unfold exec. by rewrite (stop_stopped awaitMs). }
        rewrite Hex in Hs. subst w0. cbn [self] in Hs.
        rewrite decide_False in Hs by done. lia.
      * rewrite Hstopped in Hs by done.
        rewrite decide_False in Hs by done. lia.
  - intros Hnp.
    assert (exec (Agent.resume awaitMs) w0 = w0) as Hex.
    { unfold exec. by rewrite (resume_not_paused awaitMs). }
    rewrite Hex in Hr. subst w0. cbn [self] in Hr.
    destruct (decide (status (agent managed) = running)); lia.
Qed.

(** X25. [stopAgent], [pauseAgent] and [resumeAgent] record no cycle: the
    metrics of the engine they name and the aggregated metrics of the
    fleet are what they were. *)
Theorem quiet_operations_keep_metrics (l : Lifecycle) (agentId : string)
    (m : AgentManager) :
  l ≠ LStart →
  getAgentMetrics agentId (exec (manager_op l agentId) m)
    = getAgentMetrics agentId m ∧
  same_aggregate (getAggregatedMetrics (exec (manager_op l agentId) m))
    (getAggregatedMetrics m).
Proof.
  intros Hl.
  destruct (agents m !! agentId) as [managed|] eqn:Hin.
  - assert (metrics (self (exec (engine_op l managed)
                       {| self := agent managed; rt := runtime m |}))
            = metrics (agent managed)) as Hm.
    { rewrite engine_op_call.
      refine (proj1 (quiet_call execute awaitMs _
                {| self := agent managed; rt := runtime m |} _ _)).
      - intros i. by destruct l.
      - by destruct l. }
    unfold exec at 1 2. rewrite (manager_op_present _ _ _ _ Hin).
    unfold delegate. cbn [snd]. split.
    + unfold getAgentMetrics. cbn [agents].
      rewrite lookup_insert_eq, Hin. simpl. unfold getMetrics. cbn [agent].
      f_equal. exact Hm.
    + unfold getAggregatedMetrics. apply aggregate_Permutation.
      rewrite (managed_agents_replaced _ _ _ _).
      rewrite (managed_agents_present _ _ _ Hin).
      rewrite !fmap_cons. unfold getMetrics at 1 3. cbn [agent].
      unfold exec in Hm. by rewrite Hm.
  - unfold exec. rewrite (manager_op_absent _ _ _ Hin). cbn [snd].
    split; [done|]. unfold same_aggregate. by split_and!.
Qed.
End ManagerMore.

(** ** Further properties at concrete engines, buses and fleets *)

Section MoreInstances.
Import Agent Examples.

(** Unsubscribing from a new bus, once or twice, leaves it as it is. *)
Lemma unsubscribe_idempotent_witness :
  EventBus.unsubscribe second_subscription
    (EventBus.unsubscribe second_subscription two_handlers)
  = EventBus.unsubscribe second_subscription two_handlers ∧
  EventBus.unsubscribe second_subscription EventBus.empty = EventBus.empty.
Proof.
  split.
  - exact (proj1 (unsubscribe_idempotent second_subscription two_handlers)).
  - apply (proj2 (unsubscribe_idempotent second_subscription EventBus.empty)
             "tick"); reflexivity.
Defined.

(** Handler 7 subscribed to [tick] and unsubscribed again. *)
Lemma subscribe_unsubscribe_restores_witness :
  EventBus.allHandlers tick_event
    (EventBus.unsubscribe (EventBus.subscribe "tick" 7%nat two_handlers).1
       (EventBus.subscribe "tick" 7%nat two_handlers).2)
  = EventBus.allHandlers tick_event two_handlers.
Proof.
  apply (proj1 (subscribe_unsubscribe_restores two_handlers 7%nat)
           "tick" tick_event).
  intros Hin. apply list_elem_of_In in Hin. vm_compute in Hin.
  destruct Hin as [H|[H|[]]]; discriminate H.
Defined.

(** A subscription taken after [clear] has a new id. *)
Lemma subscription_ids_fresh_witness :
  EventBus.sub_id (EventBus.subscribe "tick" 1%nat EventBus.empty).1
  ≠ EventBus.sub_id
      (EventBus.subscribe "tick" 2%nat
         (EventBus.clear (EventBus.subscribe "tick" 1%nat EventBus.empty).2)).1.
Proof.
  apply (subscription_ids_fresh EventBus.empty [EventBus.OpClear]
           (EventBus.OpSubscribe "tick" 1%nat)
           (EventBus.OpSubscribe "tick" 2%nat)); reflexivity.
Defined.

(** Handler 1, subscribed to [tick] only, is called once. *)
Lemma at_most_two_calls_witness :
  (EventBus.calls_of 1%nat
     (EventBus.invoked (exec (EventBus.emit saboteur tick_event) bus_world))
   ≤ EventBus.calls_of 1%nat (EventBus.invoked bus_world) + 1)%nat.
Proof.
  destruct (at_most_two_calls saboteur
              [EventBus.OpSubscribe "tick" 1%nat;
               EventBus.OpSubscribe "tick" 2%nat]
              tick_event bus_world 1%nat) as [Hwf H].
  destruct (H Hwf) as (_ & _ & H1). apply H1.
  intros Hin. apply list_elem_of_In in Hin. destruct Hin.
Defined.

Lemma recruiter_only_subscribes n h (e : AgentEvent unit) :
  ∀ o, o ∈ EventBus.effects (recruiter n h e) → EventBus.subscribes o = true.
Proof.
  intros o. unfold recruiter. destruct (decide (h = 1%nat)); simpl.
  - intros Hin. apply list_elem_of_In in Hin. destruct Hin as [<-|[]].
    reflexivity.
  - intros Hin. apply list_elem_of_In in Hin. destruct Hin.
Defined.

(** Handler 3, subscribed by handler 1 during an emission, is called
    from the next emission on. *)
Lemma subscribed_during_emission_witness :
  EventBus.calls_of 3%nat
    (EventBus.invoked (exec (EventBus.emit recruiter tick_event) bus_world))
  = EventBus.calls_of 3%nat (EventBus.invoked bus_world) ∧
  (EventBus.calls_of 3%nat
     (EventBus.invoked (exec (EventBus.emit recruiter tick_event) bus_world))
   < EventBus.calls_of 3%nat
       (EventBus.invoked
          (exec (EventBus.emit recruiter tick_event)
             (exec (EventBus.emit recruiter tick_event) bus_world))))%nat.
Proof.
  destruct (subscribed_during_emission recruiter tick_event bus_world
              3%nat 1%nat) as [H1 H2].
  - intros Hin. apply list_elem_of_In in Hin. vm_compute in Hin.
    destruct Hin as [H|[H|[]]]; discriminate H.
  - split; [exact H1|]. apply H2.
    + apply list_elem_of_In. left. reflexivity.
    + intros n. apply list_elem_of_In. left. reflexivity.
    + intros n h' o. apply recruiter_only_subscribes.
Defined.

(** A running engine paused and resumed. *)
Lemma pause_resume_round_trip_witness :
  self (exec (resume one_ms) (exec (pause one_ms) (running_world 3 true)))
  = self (running_world 3 true) ∧
  resume one_ms (fresh_world 3 true) = (Returned tt, fresh_world 3 true).
Proof.
  destruct (pause_resume_round_trip one_ms (running_world 3 true))
    as [Hround _].
  destruct (pause_resume_round_trip one_ms (fresh_world 3 true))
    as [_ Hidle].
  split.
  - exact (proj1 (Hround eq_refl)).
  - apply Hidle. discriminate.
Defined.

(** A running engine stopped. *)
Lemma stop_cancels_trigger_witness :
  status (self (exec (stop one_ms) (running_world 3 true))) = stopped ∧
  intervalId (self (exec (stop one_ms) (running_world 3 true))) = None.
Proof.
  destruct (stop_cancels_trigger one_ms (running_world 3 true)) as [H _].
  destruct H as (H1 & H2 & _); [discriminate|].
  split; [exact H1 | exact H2].
Defined.

(** A new engine started with an interval of 10 ms and stopped. *)
Lemma stop_cancels_latest_trigger_only_witness :
  intervals (rt (exec (stop one_ms)
                   (exec (start always_fails one_ms (Some 10))
                      (fresh_world 3 true))))
  = intervals (rt (fresh_world 3 true)) ∧
  status (self (exec (stop one_ms)
                  (exec (start always_fails one_ms (Some 10))
                     (fresh_world 3 true)))) = stopped.
Proof.
  destruct (stop_cancels_latest_trigger_only always_fails one_ms (Some 10)
              (fresh_world 3 true)) as (H1 & _ & H3).
  - discriminate.
  - reflexivity.
  - intros p Hin. apply list_elem_of_In in Hin. destruct Hin.
  - split; [exact H1 | exact H3].
Defined.

(** Two attempts that both reject: the engine is in [error] and the
    next three ticks do nothing. *)
Lemma terminal_failure_halts_witness :
  status (self (exec (tick always_fails one_ms) (running_world 2 true)))
  = error ∧
  ticks always_fails one_ms 3
    (exec (tick always_fails one_ms) (running_world 2 true))
  = (Returned tt, exec (tick always_fails one_ms) (running_world 2 true)).
Proof.
  destruct (terminal_failure_halts always_fails one_ms (running_world 2 true))
    as (H1 & _ & _ & _ & _ & H6 & _).
  - reflexivity.
  - intros i ctx _. exists (VOther "boom"), 5. reflexivity.
  - split; [exact H1 | exact (H6 3%nat)].
Defined.

(** A unit of work of 30 ms against a timeout of 50 ms. *)
Lemma first_attempt_success_witness :
  status (self (exec (tick slow_success one_ms) (running_world 3 true)))
  = running ∧
  successfulExecutions
    (metrics (self (exec (tick slow_success one_ms) (running_world 3 true))))
  = 1 ∧
  schedule (trace (rt (exec (tick slow_success one_ms) (running_world 3 true))))
  = schedule (trace (rt (running_world 3 true))) ++ [Attempt 0].
Proof.
  destruct (first_attempt_success slow_success one_ms (running_world 3 true)
              tt 30) as (H1 & _ & _ & _ & H5 & _ & H7 & _).
  - reflexivity.
  - simpl. lia.
  - reflexivity.
  - split; [exact H1|]. split; [exact H5 | exact H7].
Defined.

(** The error of a failed cycle survives a restart and a stop. *)
Lemma lastError_is_sticky_witness :
  is_Some (lastError (context (self failed_world))) ∧
  is_Some (lastError (context (self
    (exec (for_each (call slow_success one_ms) [CStart None; CStop])
       failed_world)))).
Proof.
  assert (is_Some (lastError (context (self failed_world)))) as H.
  { eexists. vm_compute. reflexivity. }
  split; [exact H|].
  exact (lastError_is_sticky slow_success one_ms [CStart None; CStop]
           failed_world H).
Defined.


Lemma second_agent_is_new : Manager.agents fleet !! "agent-2" = None.
Proof. apply lookup_singleton_ne. discriminate. Defined.

(** The engine [agent-2] registered with the fleet and unregistered. *)
Lemma register_unregister_round_trip_witness :
  Manager.getAgentCount (exec (Manager.register second_agent None) fleet)
  = S (Manager.getAgentCount fleet) ∧
  Manager.agents
    (exec (Manager.unregister one_ms "agent-2")
       (exec (Manager.register second_agent None) fleet))
  = Manager.agents fleet.
Proof.
  destruct (register_unregister_round_trip one_ms second_agent None fleet
              second_agent_is_new) as (_ & _ & _ & H4 & _ & _ & H7 & _).
  split; [exact H4 | exact H7].
Defined.

(** [unregister] of the only engine of the fleet, and of an id that is
    not registered.  When the engine has been started twice,
    [unregister] cancels trigger 2, which the engine holds, and trigger
    1 stays armed although the fleet is empty. *)
Lemma unregister_stops_and_forgets_witness :
  Manager.unregister one_ms "ghost" fleet = (Returned tt, fleet) ∧
  Manager.agents (exec (Manager.unregister one_ms "agent-1") fleet)
    !! "agent-1" = None ∧
  S (Manager.getAgentCount (exec (Manager.unregister one_ms "agent-1") fleet))
  = Manager.getAgentCount fleet ∧
  intervals (Manager.runtime restarted_fleet)
  = [(1%nat, 1000); (2%nat, 1000)] ∧
  intervals (Manager.runtime
               (exec (Manager.unregister one_ms "agent-1") restarted_fleet))
  = [(1%nat, 1000)] ∧
  Manager.getAgentCount
    (exec (Manager.unregister one_ms "agent-1") restarted_fleet) = 0%nat.
Proof.
  destruct (unregister_stops_and_forgets one_ms "ghost" fleet) as [Habsent _].
  destruct (unregister_stops_and_forgets one_ms "agent-1" fleet)
    as [_ Hpresent].
  destruct (unregister_stops_and_forgets one_ms "agent-1" restarted_fleet)
    as [_ Hrestarted].
  split.
  { apply Habsent. apply lookup_singleton_ne. discriminate. }
  destruct (Hpresent _ (lookup_singleton_eq _ _)) as (_ & H2 & _ & H4 & _).
  split; [exact H2|]. split; [exact H4|].
  split; [vm_compute; reflexivity|].
  assert (∃ managed, Manager.agents restarted_fleet !! "agent-1" = Some managed
                     ∧ status (Manager.agent managed) = running
                     ∧ intervalId (Manager.agent managed) = Some 2%nat)
    as (managed & Hin & Hstatus & Hheld).
  { eexists. split; [vm_compute; reflexivity|]. split; reflexivity. }
  destruct (Hrestarted managed Hin) as (_ & _ & _ & Hcount & _ & Hcancel).
  destruct Hcancel as (Htimer & _).
  { rewrite Hstatus. discriminate. }
  split.
  - rewrite (proj1 (Htimer 2%nat Hheld)). vm_compute. reflexivity.
  - apply eq_add_S. rewrite Hcount. vm_compute. reflexivity.
Defined.

(** [startAgent] on the engine of the fleet. *)
Lemma lifecycle_touches_one_engine_witness :
  eval (Manager.manager_op slow_success one_ms Manager.LStart "agent-1") fleet
  = Returned tt ∧
  Manager.getAgentCount
    (exec (Manager.manager_op slow_success one_ms Manager.LStart "agent-1")
       fleet)
  = Manager.getAgentCount fleet.
Proof.
  destruct (lifecycle_touches_one_engine slow_success one_ms Manager.LStart
              "agent-1" fleet) as (_ & Hcount & Hpresent).
  split; [|exact Hcount].
  exact (proj1 (Hpresent _ (lookup_singleton_eq _ _))).
Defined.

(** An engine registered with a new manager and started. *)
Lemma engines_filed_under_their_id_witness :
  ∃ a,
    Manager.getAgent "agent-2"
      (exec (for_each (Manager.manager_call slow_success one_ms)
               [Manager.MRegister second_agent (Some 10);
                Manager.MLifecycle Manager.LStart "agent-2"])
         (Manager.fresh_manager (boot 1000)))
    = Some a ∧
    id (getConfig a) = "agent-2".
Proof.
  eexists. split; [vm_compute; reflexivity|].
  apply (engines_filed_under_their_id slow_success one_ms
           [Manager.MRegister second_agent (Some 10);
            Manager.MLifecycle Manager.LStart "agent-2"] (boot 1000)).
  vm_compute. reflexivity.
Defined.

Lemma two_metrics_consistent : Forall consistent [two_cycles; one_cycle].
Proof. repeat constructor. Defined.

(** Two engines, with two cycles and one cycle recorded. *)
Lemma aggregate_adds_up_witness :
  Manager.agg_totalExecutions (Manager.aggregate [two_cycles; one_cycle])
  = Manager.agg_successfulExecutions (Manager.aggregate [two_cycles; one_cycle])
    + Manager.agg_failedExecutions (Manager.aggregate [two_cycles; one_cycle]) ∧
  (Manager.agg_averageExecutionTimeMs
     (Manager.aggregate [two_cycles; one_cycle])
   * inject_Z (Manager.agg_totalExecutions
                 (Manager.aggregate [two_cycles; one_cycle]))
   == Manager.weighted_time [two_cycles; one_cycle])%Q.
Proof.
  destruct (aggregate_adds_up [two_cycles; one_cycle])
    as (_ & _ & _ & Hc & _ & Havg).
  split.
  - exact (Hc two_metrics_consistent).
  - apply Havg. reflexivity.
Defined.

(** The two engines listed in either order. *)
Lemma aggregate_order_independent_witness :
  Manager.same_aggregate (Manager.aggregate [two_cycles; one_cycle])
    (Manager.aggregate [one_cycle; two_cycles]) ∧
  Manager.same_aggregate (Manager.getAggregatedMetrics fleet)
    (Manager.aggregate
       ((fun managed => getMetrics (Manager.agent managed))
        <$> Manager.managed_agents fleet)).
Proof.
  destruct (aggregate_order_independent [two_cycles; one_cycle]
              [one_cycle; two_cycles] fleet (Manager.managed_agents fleet))
    as [H1 H2].
  split.
  - apply H1. apply perm_swap.
  - apply H2. apply Permutation_refl.
Defined.

(** The fleet average of cycles of 10, 20 and 30 ms is their mean. *)
Lemma fleet_average_is_mean_of_all_cycles_witness :
  Manager.agg_totalExecutions (Manager.aggregate [two_cycles; one_cycle]) = 3 ∧
  (Manager.agg_averageExecutionTimeMs
     (Manager.aggregate [two_cycles; one_cycle])
   == mean [10%Z; 20%Z; 30%Z])%Q.
Proof.
  destruct (fleet_average_is_mean_of_all_cycles
              (metrics (Agent.new (config_of 3 true) 1000))
              [[cycle_of 10; cycle_of 20]; [cycle_of 30]] eq_refl)
    as [H1 H2].
  split; [exact H1|]. apply H2. discriminate.
Defined.

(** Pausing and stopping the running engine of a fleet. *)
Lemma running_count_follows_lifecycle_witness :
  S (Manager.getRunningAgentCount
       (exec (Manager.manager_op slow_success one_ms Manager.LPause "agent-1")
          running_fleet))
  = Manager.getRunningAgentCount running_fleet ∧
  Manager.getRunningAgentCount
    (exec (Manager.manager_op slow_success one_ms Manager.LResume "agent-1")
       fleet)
  = Manager.getRunningAgentCount fleet.
Proof.
  destruct (running_count_follows_lifecycle slow_success one_ms "agent-1"
              running_fleet _ (lookup_singleton_eq _ _))
    as (_ & Hrunning & _).
  destruct (running_count_follows_lifecycle slow_success one_ms "agent-1"
              fleet _ (lookup_singleton_eq _ _))
    as (_ & _ & _ & Hidle).
  split.
  - exact (proj1 (Hrunning eq_refl)).
  - apply Hidle. discriminate.
Defined.

(** Pausing the engine of the fleet. *)
Lemma quiet_operations_keep_metrics_witness :
  Manager.getAgentMetrics "agent-1"
    (exec (Manager.manager_op slow_success one_ms Manager.LPause "agent-1")
       running_fleet)
  = Manager.getAgentMetrics "agent-1" running_fleet.
Proof.
  refine (proj1 (quiet_operations_keep_metrics slow_success one_ms
                   Manager.LPause "agent-1" running_fleet _)).
  discriminate.
Defined.
End MoreInstances.
